(** * S3Bench: the chunked fetch engine and its statistics, checked against the Go source

    The development follows the Go sources of the benchmark:
    - the range planner [planChunks], the fetch operation [downloadChunk]
      and the dispatcher [downloadObject] (downloader);
    - [computeStats] and [computeAggregate] (statistics);
    - the best-sweep scan and the chart of [printComparisonReport] (report);
    - [parseConfig], [parseByteSize] and [formatConcurrencyList], with the
      library functions they call (configuration);
    - the sweep of [main]: its two loops, the per-run step and the output
      file.

    Go's [int64] (and [int] on a 64-bit target) is modelled as [Z] with the
    two's-complement wrap-around written out at every arithmetic operation,
    [float64] as the kernel's binary64 floats, loops as fuel-indexed
    fixpoints, and the worker pool as a step relation over dispatcher
    states. *)

From Stdlib Require Import ZArith List Lia Bool Sorting Permutation.
From Stdlib.Strings Require Import Byte.
From Stdlib.Strings Require String.
Import String.StringSyntax.
From Stdlib Require Import Floats.
From Stdlib Require Uint63.
Import ListNotations.
Local Open Scope Z_scope.

(** ** Go's 64-bit signed integers *)

Module Int64.

Definition min_int : Z := - 2 ^ 63.
Definition max_int : Z := 2 ^ 63 - 1.

Definition in_range (z : Z) : Prop := min_int <= z <= max_int.

(** Two's-complement reduction of a mathematical integer to [int64]:
    what Go's [+], [-] and [++] do on overflow. *)
Definition wrap (z : Z) : Z := (z + 2 ^ 63) mod 2 ^ 64 - 2 ^ 63.

Definition add (a b : Z) : Z := wrap (a + b).
Definition sub (a b : Z) : Z := wrap (a - b).

End Int64.

(** ** Data model (downloader) *)

(** [ChunkSpec] describes a single byte-range segment of the object. *)
Module ChunkSpec.
Record t : Type := mk {
  Index : Z;
  RangeStart : Z;
  RangeEnd : Z;   (* inclusive *)
  Size : Z        (* RangeEnd - RangeStart + 1 *)
}.
End ChunkSpec.

(** ** The range planner *)

(** The [for offset := 0; offset < objectSize; offset += chunkSize] loop of
    [planChunks], one iteration per unit of fuel. [None] means the fuel ran
    out before the loop condition became false. *)
Fixpoint planChunks_loop (fuel : nat) (objectSize chunkSize : Z)
    (offset index : Z) (chunks : list ChunkSpec.t) : option (list ChunkSpec.t) :=
  match fuel with
  | O => None
  | S fuel' =>
      if offset <? objectSize then
        let end0 := Int64.sub (Int64.add offset chunkSize) 1 in
        let end_ := if end0 >=? objectSize then Int64.sub objectSize 1 else end0 in
        let c := {| ChunkSpec.Index := index;
                    ChunkSpec.RangeStart := offset;
                    ChunkSpec.RangeEnd := end_;
                    ChunkSpec.Size := Int64.add (Int64.sub end_ offset) 1 |} in
        planChunks_loop fuel' objectSize chunkSize
          (Int64.add offset chunkSize) (Int64.add index 1) (chunks ++ [c])
      else Some chunks
  end.

Definition planChunks (fuel : nat) (objectSize chunkSize : Z)
  : option (list ChunkSpec.t) :=
  planChunks_loop fuel objectSize chunkSize 0 0 [].

(** [planChunks] returns [chunks]: some amount of fuel suffices. *)
Definition planChunks_returns (objectSize chunkSize : Z) (chunks : list ChunkSpec.t) : Prop :=
  exists fuel, planChunks fuel objectSize chunkSize = Some chunks.

(** [planChunks] never returns: the loop runs forever. *)
Definition planChunks_diverges (objectSize chunkSize : Z) : Prop :=
  forall fuel, planChunks fuel objectSize chunkSize = None.

(** The number of chunks of a plan: [ceil (objectSize / chunkSize)]. *)
Definition chunkCount (objectSize chunkSize : Z) : Z :=
  (objectSize + chunkSize - 1) / chunkSize.

(** The descriptor the plan holds at position [i]: bytes
    [i * chunkSize .. min ((i + 1) * chunkSize, objectSize) - 1]. *)
Definition chunk_at (objectSize chunkSize : Z) (i : Z) : ChunkSpec.t :=
  {| ChunkSpec.Index := i;
     ChunkSpec.RangeStart := i * chunkSize;
     ChunkSpec.RangeEnd := Z.min ((i + 1) * chunkSize) objectSize - 1;
     ChunkSpec.Size := Z.min chunkSize (objectSize - i * chunkSize) |}.

(** The first [n] descriptors in closed form. *)
Definition plan_prefix (objectSize chunkSize : Z) (n : nat) : list ChunkSpec.t :=
  map (fun i => chunk_at objectSize chunkSize (Z.of_nat i)) (seq 0 n).

Definition sum_sizes (chunks : list ChunkSpec.t) : Z :=
  fold_right (fun c acc => ChunkSpec.Size c + acc) 0 chunks.

(** What it means for an ordered sequence of descriptors to partition
    [[0, objectSize)] into consecutive ranges of at most [chunkSize] bytes. *)
Record Partitions (objectSize chunkSize : Z) (chunks : list ChunkSpec.t) : Prop := {
  part_indices :
    forall i c, nth_error chunks i = Some c -> ChunkSpec.Index c = Z.of_nat i;
  part_first :
    forall c, nth_error chunks 0 = Some c -> ChunkSpec.RangeStart c = 0;
  part_last :
    forall c, nth_error chunks (length chunks - 1) = Some c ->
              ChunkSpec.RangeEnd c = objectSize - 1;
  part_adjacent :
    forall i a b, nth_error chunks i = Some a -> nth_error chunks (S i) = Some b ->
                  ChunkSpec.RangeEnd a + 1 = ChunkSpec.RangeStart b;
  part_size :
    forall c, In c chunks ->
              ChunkSpec.Size c = ChunkSpec.RangeEnd c - ChunkSpec.RangeStart c + 1 /\ 1 <= ChunkSpec.Size c <= chunkSize;
  part_full :
    forall i c, nth_error chunks i = Some c -> (S i < length chunks)%nat ->
                ChunkSpec.Size c = chunkSize;
  part_sum : sum_sizes chunks = objectSize;
  part_cover :
    forall b, 0 <= b < objectSize ->
              exists i c, nth_error chunks i = Some c /\ ChunkSpec.RangeStart c <= b <= ChunkSpec.RangeEnd c;
  part_disjoint :
    forall i j a b, (i < j)%nat ->
                    nth_error chunks i = Some a -> nth_error chunks j = Some b ->
                    ChunkSpec.RangeEnd a < ChunkSpec.RangeStart b;
  part_empty : objectSize = 0 -> chunks = []
}.

(** ** Errors, slices and streams *)

(** The error values the downloader handles: the two sentinels of package
    [io], any other failure of the SDK or the connection, and the three
    wrappers [downloadChunk] builds with [fmt.Errorf ("...: %w")]. *)
Inductive GoError : Type :=
| EOF
| ErrUnexpectedEOF
| ErrShortBuffer
| TransportError (code : Z)
| GetObjectFailed (index rangeStart rangeEnd : Z) (cause : GoError)
| ReadingBodyFailed (index : Z) (cause : GoError)
| DrainingBodyFailed (index : Z) (cause : GoError).

(** [err == io.EOF] and [err == io.ErrUnexpectedEOF]: comparisons with a
    sentinel. *)
Definition is_EOF (e : GoError) : bool :=
  match e with EOF => true | _ => false end.
Definition is_ErrUnexpectedEOF (e : GoError) : bool :=
  match e with ErrUnexpectedEOF => true | _ => false end.

(** The spec's [ChunkFetchError] and [ChunkReadError]. *)
Definition is_ChunkFetchError (e : GoError) : bool :=
  match e with GetObjectFailed _ _ _ _ => true | _ => false end.
Definition is_ChunkReadError (e : GoError) : bool :=
  match e with ReadingBodyFailed _ _ => true | _ => false end.

(** [s[i] = v] on a slice: [None] is the run-time panic for an index out of
    range. *)
Fixpoint update_nth {A : Type} (n : nat) (v : A) (s : list A) : list A :=
  match s, n with
  | [], _ => []
  | _ :: s', O => v :: s'
  | a :: s', S n' => a :: update_nth n' v s'
  end.

Definition slice_set {A : Type} (s : list A) (i : Z) (v : A) : option (list A) :=
  if (0 <=? i) && (i <? Z.of_nat (length s))
  then Some (update_nth (Z.to_nat i) v s)
  else None.

(** A response body: the bytes the server still delivers, how many of them
    one [Read] hands over at most ([S burst]), and the error every [Read]
    reports once they are consumed ([EOF] for a clean end of stream). *)
Record Body : Type := mkBody {
  pending : list byte;
  burst : nat;
  ending : GoError
}.

(** [r.Read (p)] with [len (p) = k]: the bytes read, the error, and the
    reader afterwards. *)
Definition Read (r : Body) (k : nat) : list byte * option GoError * Body :=
  match pending r with
  | [] => ([], Some (ending r), r)
  | _ :: _ =>
      let n := Nat.min k (Nat.min (S (burst r)) (length (pending r))) in
      (firstn n (pending r), None,
       {| pending := skipn n (pending r); burst := burst r; ending := ending r |})
  end.

(** The loop of [io.ReadAtLeast]:
    [for n < min && err == nil { nn, err = r.Read (buf[n:]); n += nn }]. *)
Fixpoint ReadAtLeast_loop (fuel : nat) (r : Body) (bufLen min : nat)
    (got : list byte) (err : option GoError)
  : option (list byte * option GoError) :=
  match fuel with
  | O => None
  | S fuel' =>
      match err with
      | None =>
          if (length got <? min)%nat then
            let '(bs, e, r') := Read r (bufLen - length got) in
            ReadAtLeast_loop fuel' r' bufLen min (got ++ bs) e
          else Some (got, err)
      | Some _ => Some (got, err)
      end
  end.

(** [io.ReadAtLeast]: the bytes now in [buf[:n]] and the error. The loop
    gets one unit of fuel per pending byte and two to end. *)
Definition ReadAtLeast (r : Body) (bufLen min : nat)
  : option (list byte * option GoError) :=
  if (bufLen <? min)%nat then Some ([], Some ErrShortBuffer)
  else
    match ReadAtLeast_loop (S (S (length (pending r)))) r bufLen min [] None with
    | None => None
    | Some (got, err) =>
        if (min <=? length got)%nat then Some (got, None)
        else
          match got, err with
          | _ :: _, Some EOF => Some (got, Some ErrUnexpectedEOF)
          | _, _ => Some (got, err)
          end
    end.

(** [io.ReadFull (r, buf)] is [ReadAtLeast (r, buf, len (buf))]. *)
Definition ReadFull (r : Body) (bufLen : nat) : option (list byte * option GoError) :=
  ReadAtLeast r bufLen bufLen.

(** [io.Copy (io.Discard, r)], that is [io.Discard]'s [ReadFrom]: read 8 KiB
    at a time, count, stop at the first error and report it unless it is
    [EOF]. *)
Definition discardBufferLen : nat := Z.to_nat 8192.

Fixpoint Copy_discard_loop (fuel : nat) (r : Body) (n : Z)
  : option (Z * option GoError) :=
  match fuel with
  | O => None
  | S fuel' =>
      let '(bs, e, r') := Read r discardBufferLen in
      let n' := Int64.add n (Z.of_nat (length bs)) in
      match e with
      | None => Copy_discard_loop fuel' r' n'
      | Some EOF => Some (n', None)
      | Some err => Some (n', Some err)
      end
  end.

Definition Copy_discard (r : Body) : option (Z * option GoError) :=
  Copy_discard_loop (S (length (pending r))) r 0.

(** What [io.ReadFull] yields, in closed form: the buffer is filled when the
    stream holds enough bytes; otherwise everything pending is read and the
    stream's own error is reported, except that a clean end after at least
    one byte becomes [ErrUnexpectedEOF]. *)
Definition ReadFull_outcome (r : Body) (bufLen : nat) : list byte * option GoError :=
  if (bufLen <=? length (pending r))%nat
  then (firstn bufLen (pending r), None)
  else (pending r,
        Some match pending r, ending r with
             | _ :: _, EOF => ErrUnexpectedEOF
             | _, e => e
             end).

(** What [io.Copy (io.Discard, r)] yields, in closed form. *)
Definition Copy_discard_outcome (r : Body) : Z * option GoError :=
  (Int64.wrap (Z.of_nat (length (pending r))),
   if is_EOF (ending r) then None else Some (ending r)).

(** ** The fetch operation *)

(** [ChunkResult] holds the timing and outcome of one chunk download. Times
    and durations are nanosecond counts. *)
Module ChunkResult.
Record t : Type := mk {
  Index : Z;
  Size : Z;
  StartTime : Z;
  TTFB : Z;
  ElapsedTotal : Z;
  Err : option GoError
}.
(** Go's zero value, what [make ([]ChunkResult, n)] fills the table with. *)
Definition zero : t := mk 0 0 0 0 0 None.
End ChunkResult.

(** What one ranged [GetObject] meets on the wire: the clock at dispatch,
    the SDK's answer (an error, or the headers and a body), and the two
    readings of [time.Since (start)]: when the headers are in, and when the
    body is consumed. *)
Record Exchange : Type := mkExchange {
  startTime : Z;
  response : GoError + Body;
  ttfbReading : Z;
  elapsedReading : Z
}.

(** The output buffers: [nil] in discard mode, one slot per chunk in capture
    (write) mode. *)
Definition OutBufs : Type := option (list (list byte)).

(** The two shapes of result [downloadChunk] builds: a failure carries the
    error and the timings read before it (size and total elapsed time stay
    zero); a success carries the byte count and both timings. *)
Definition failedResult (index start ttfb : Z) (e : GoError) : ChunkResult.t :=
  {| ChunkResult.Index := index;
     ChunkResult.Size := 0;
     ChunkResult.StartTime := start;
     ChunkResult.TTFB := ttfb;
     ChunkResult.ElapsedTotal := 0;
     ChunkResult.Err := Some e |}.

Definition doneResult (index n start ttfb elapsed : Z) : ChunkResult.t :=
  {| ChunkResult.Index := index;
     ChunkResult.Size := n;
     ChunkResult.StartTime := start;
     ChunkResult.TTFB := ttfb;
     ChunkResult.ElapsedTotal := elapsed;
     ChunkResult.Err := None |}.

(** [downloadChunk]: the chunk's result and the output buffers afterwards;
    [None] is a run-time panic ([make] with a negative length, or
    [outBufs[chunk.Index]] out of range). The progress counter is left out:
    it counts the bytes that pass and changes no result. *)
Definition downloadChunk (x : Exchange) (chunk : ChunkSpec.t) (outBufs : OutBufs)
  : option (ChunkResult.t * OutBufs) :=
  let index := ChunkSpec.Index chunk in
  let start := startTime x in
  match response x with
  | inl err =>
      Some (failedResult index start 0
              (GetObjectFailed index (ChunkSpec.RangeStart chunk)
                 (ChunkSpec.RangeEnd chunk) err),
            outBufs)
  | inr body =>
      let ttfb := ttfbReading x in
      match outBufs with
      | Some bufs =>
          (* Write mode: allocate exactly chunk.Size bytes and fill from body. *)
          if ChunkSpec.Size chunk <? 0 then None
          else
            match ReadFull body (Z.to_nat (ChunkSpec.Size chunk)) with
            | None => None
            | Some (got, err) =>
                let n := Z.of_nat (length got) in
                let stored :=
                  (* outBufs[chunk.Index] = buf[:n] *)
                  match slice_set bufs index got with
                  | None => None
                  | Some bufs' =>
                      Some (doneResult index n start ttfb (elapsedReading x),
                            Some bufs')
                  end in
                match err with
                | Some e =>
                    (* err != nil && err != io.ErrUnexpectedEOF *)
                    if negb (is_ErrUnexpectedEOF e)
                    then Some (failedResult index start ttfb
                                 (ReadingBodyFailed index e),
                               outBufs)
                    else stored
                | None => stored
                end
            end
      | None =>
          (* Discard mode: drain body without allocating an output buffer. *)
          match Copy_discard body with
          | None => None
          | Some (n, Some e) =>
              Some (failedResult index start ttfb (DrainingBodyFailed index e),
                    outBufs)
          | Some (n, None) =>
              Some (doneResult index n start ttfb (elapsedReading x), outBufs)
          end
      end
  end.

(** *** Sample inputs for the fetch operation *)

(** A chunk of five bytes, [bytes=0-4], at index 0. *)
Definition chunk5 : ChunkSpec.t := ChunkSpec.mk 0 0 4 5.




(** A body that delivers seven bytes and then ends cleanly. *)
Definition longBody : Body := mkBody [x01; x02; x03; x04; x05; x06; x07] 2 EOF.

(** A body whose connection is reset after two bytes. *)
Definition brokenBody : Body := mkBody [x01; x02] 0 (TransportError 104).

(** The exchange that answers with [body]: dispatched at time 1000, headers
    after 5 ns, body consumed after 9 ns. *)
Definition exchangeOf (body : Body) : Exchange := mkExchange 1000 (inr body) 5 9.

(** ** The dispatcher *)

(** [DownloadResult] aggregates all chunk results for a single run. *)
Module DownloadResult.
Record t : Type := mk {
  Chunks : list ChunkResult.t;
  TotalTime : Z;
  TTFB : Z     (* TTFB of the first chunk to respond *)
}.
(** [DownloadResult{}]. *)
Definition zero : t := mk [] 0 0.
End DownloadResult.

(** Where a worker goroutine stands in its loop
    [for chunk := range jobs { res := downloadChunk (..); results[chunk.Index] = res;
                               if res.Err == nil { mu.Lock (); ..; mu.Unlock () } }]. *)
Inductive Worker : Type :=
| Idle                                             (* about to receive from [jobs] *)
| Fetching (chunk : ChunkSpec.t)                   (* inside [downloadChunk] *)
| Fetched (chunk : ChunkSpec.t) (res : ChunkResult.t)  (* about to write [results] *)
| Recorded (res : ChunkResult.t)                   (* about to take the mutex *)
| Exited.                                          (* [jobs] is drained: [wg.Done ()] *)

(** The state a dispatch shares between its workers. *)
Record Dispatch : Type := mkDispatch {
  jobs : list ChunkSpec.t;          (* the closed, buffered channel *)
  workers : list Worker;
  results : list ChunkResult.t;     (* the result table *)
  outBufs : OutBufs;
  firstTTFB : Z;
  ttfbSet : bool;
  panicked : bool                   (* a goroutine panicked: the process dies *)
}.

(** The answer of the object store to each ranged request of one dispatch. *)
Definition World : Type := ChunkSpec.t -> Exchange.

Definition set_worker (st : Dispatch) (i : nat) (w : Worker) : list Worker :=
  update_nth i w (workers st).

Definition panic (st : Dispatch) : Dispatch :=
  mkDispatch (jobs st) (workers st) (results st) (outBufs st)
    (firstTTFB st) (ttfbSet st) true.

(** One atomic step of worker [i]; [None] when the worker cannot move (it
    has exited, or the process has died). *)
Definition worker_step (world : World) (i : nat) (st : Dispatch) : option Dispatch :=
  if panicked st then None
  else
    match nth_error (workers st) i with
    | None | Some Exited => None
    | Some Idle =>
        match jobs st with
        | chunk :: rest =>
            Some (mkDispatch rest (set_worker st i (Fetching chunk)) (results st)
                    (outBufs st) (firstTTFB st) (ttfbSet st) false)
        | [] =>
            Some (mkDispatch [] (set_worker st i Exited) (results st)
                    (outBufs st) (firstTTFB st) (ttfbSet st) false)
        end
    | Some (Fetching chunk) =>
        match downloadChunk (world chunk) chunk (outBufs st) with
        | Some (res, bufs) =>
            Some (mkDispatch (jobs st) (set_worker st i (Fetched chunk res))
                    (results st) bufs (firstTTFB st) (ttfbSet st) false)
        | None => Some (panic st)
        end
    | Some (Fetched chunk res) =>
        (* results[chunk.Index] = res *)
        match slice_set (results st) (ChunkSpec.Index chunk) res with
        | Some table =>
            Some (mkDispatch (jobs st) (set_worker st i (Recorded res)) table
                    (outBufs st) (firstTTFB st) (ttfbSet st) false)
        | None => Some (panic st)
        end
    | Some (Recorded res) =>
        match ChunkResult.Err res with
        | None =>
            if ttfbSet st
            then Some (mkDispatch (jobs st) (set_worker st i Idle) (results st)
                         (outBufs st) (firstTTFB st) true false)
            else Some (mkDispatch (jobs st) (set_worker st i Idle) (results st)
                         (outBufs st) (ChunkResult.TTFB res) true false)
        | Some _ =>
            Some (mkDispatch (jobs st) (set_worker st i Idle) (results st)
                    (outBufs st) (firstTTFB st) (ttfbSet st) false)
        end
    end.

(** Some worker takes a step. *)
Definition step (world : World) (st st' : Dispatch) : Prop :=
  exists i, worker_step world i st = Some st'.

(** The states a dispatch can reach, under any interleaving of its workers. *)
Inductive reachable (world : World) (st0 : Dispatch) : Dispatch -> Prop :=
| reach_start : reachable world st0 st0
| reach_step st st' :
    reachable world st0 st -> step world st st' -> reachable world st0 st'.

(** A schedule names the worker that moves next; a worker that cannot move
    lets its turn pass. *)
Fixpoint run (world : World) (schedule : list nat) (st : Dispatch) : Dispatch :=
  match schedule with
  | [] => st
  | i :: rest =>
      match worker_step world i st with
      | Some st' => run world rest st'
      | None => run world rest st
      end
  end.

(** The state [downloadObject] sets up before it starts its workers: the
    queue pre-loaded, the table sized to [len (chunks)], and
    [min (concurrency, len (chunks))] workers. *)
Definition workerCount (concurrency : Z) (chunks : list ChunkSpec.t) : Z :=
  if concurrency >? Z.of_nat (length chunks)
  then Z.of_nat (length chunks) else concurrency.

Definition dispatch_init (chunks : list ChunkSpec.t) (bufs : OutBufs)
    (concurrency : Z) : Dispatch :=
  {| jobs := chunks;
     workers := repeat Idle (Z.to_nat (workerCount concurrency chunks));
     results := repeat ChunkResult.zero (length chunks);
     outBufs := bufs;
     firstTTFB := 0;
     ttfbSet := false;
     panicked := false |}.

(** [wg.Wait ()] returns: every worker has exited. *)
Definition joined (st : Dispatch) : Prop :=
  panicked st = false /\ Forall (fun w => w = Exited) (workers st).

Definition joinedb (st : Dispatch) : bool :=
  negb (panicked st)
  && forallb (fun w => match w with Exited => true | _ => false end) (workers st).

(** The scan [for _, r := range results { if r.Err != nil { return DownloadResult{}, r.Err } }]. *)
Fixpoint firstError (table : list ChunkResult.t) : option GoError :=
  match table with
  | [] => None
  | r :: rest =>
      match ChunkResult.Err r with
      | Some e => Some e
      | None => firstError rest
      end
  end.

(** What [downloadObject] returns once the workers have joined in state
    [st], [totalTime] being [time.Since (overallStart)]. *)
Definition dispatch_finish (st : Dispatch) (totalTime : Z)
  : DownloadResult.t * option GoError :=
  match firstError (results st) with
  | Some e => (DownloadResult.zero, Some e)
  | None =>
      ({| DownloadResult.Chunks := results st;
          DownloadResult.TotalTime := totalTime;
          DownloadResult.TTFB := firstTTFB st |}, None)
  end.

(** [downloadObject] returns [out] (and leaves the output buffers [bufs']):
    some interleaving of the workers leads to a joined state [st], from
    which the final scan yields [out]. *)
Definition downloadObject_returns (world : World) (chunks : list ChunkSpec.t)
    (bufs : OutBufs) (concurrency totalTime : Z)
    (out : DownloadResult.t * option GoError) (bufs' : OutBufs) : Prop :=
  exists st,
    reachable world (dispatch_init chunks bufs concurrency) st /\
    joined st /\
    out = dispatch_finish st totalTime /\
    bufs' = outBufs st.

(** The same under a given schedule, as a function: [None] when the
    schedule ends before the workers have joined. *)
Definition downloadObject (world : World) (chunks : list ChunkSpec.t)
    (bufs : OutBufs) (concurrency totalTime : Z) (schedule : list nat)
  : option ((DownloadResult.t * option GoError) * OutBufs) :=
  let st := run world schedule (dispatch_init chunks bufs concurrency) in
  if joinedb st then Some (dispatch_finish st totalTime, outBufs st) else None.

(** The measure every step decreases: what is still queued, and how far each
    worker is from its next receive. *)
Definition worker_weight (w : Worker) : nat :=
  match w with
  | Exited => 0
  | Idle => 1
  | Recorded _ => 2
  | Fetched _ _ => 3
  | Fetching _ => 4
  end.

Definition dispatch_measure (st : Dispatch) : nat :=
  ((if panicked st then 0 else 1)
   + 5 * length (jobs st)
   + fold_right (fun w acc => worker_weight w + acc) 0 (workers st))%nat.

(** The descriptors carry their positions as indices and non-negative sizes
    (what the planner produces), and the output buffers, when there are any,
    have one slot per descriptor (what [main] allocates). *)
Definition well_indexed (chunks : list ChunkSpec.t) : Prop :=
  forall i c, nth_error chunks i = Some c ->
              ChunkSpec.Index c = Z.of_nat i /\ 0 <= ChunkSpec.Size c.

Definition bufs_sized (bufs : OutBufs) (n : nat) : Prop :=
  match bufs with
  | None => True
  | Some slots => length slots = n
  end.

(** [res] is the outcome of fetching [chunk] in this dispatch's mode. *)
Definition outcome_of (world : World) (capture : bool) (chunk : ChunkSpec.t)
    (res : ChunkResult.t) : Prop :=
  exists bufs bufs',
    (if capture then bufs <> None else bufs = None) /\
    downloadChunk (world chunk) chunk bufs = Some (res, bufs').

Definition capture_mode (bufs : OutBufs) : bool :=
  match bufs with Some _ => true | None => false end.


(** What holds under every interleaving for well-indexed descriptors: no
    panic, and every descriptor is still queued, or in the hands of a
    worker, or has its outcome in its slot of the table. *)
Record dispatch_inv (world : World) (chunks : list ChunkSpec.t) (capture : bool)
    (st : Dispatch) : Prop := {
  inv_alive : panicked st = false;
  inv_table_len : length (results st) = length chunks;
  inv_mode : capture_mode (outBufs st) = capture;
  inv_bufs : bufs_sized (outBufs st) (length chunks);
  inv_jobs : forall c, In c (jobs st) -> In c chunks;
  inv_fetching :
    forall k c, nth_error (workers st) k = Some (Fetching c) -> In c chunks;
  inv_fetched :
    forall k c r, nth_error (workers st) k = Some (Fetched c r) ->
                  In c chunks /\ outcome_of world capture c r;
  inv_chunk :
    forall i c, nth_error chunks i = Some c ->
      (exists r, nth_error (results st) i = Some r /\ outcome_of world capture c r)
      \/ In c (jobs st)
      \/ (exists k, nth_error (workers st) k = Some (Fetching c))
      \/ (exists k r, nth_error (workers st) k = Some (Fetched c r));
  inv_exited :
    (exists k, nth_error (workers st) k = Some Exited) -> jobs st = []
}.

(** *** Sample inputs for the dispatcher *)

(** The plan of a ten-byte object in chunks of three bytes. *)
Definition sampleChunks : list ChunkSpec.t :=
  [ ChunkSpec.mk 0 0 2 3; ChunkSpec.mk 1 3 5 3;
    ChunkSpec.mk 2 6 8 3; ChunkSpec.mk 3 9 9 1 ].

(** A store that answers every request with seven bytes. *)
Definition sampleWorld : World := fun _ => exchangeOf longBody.

(** A store whose connection breaks on the chunks of index 1 and 3 and that
    refuses the request for the chunk of index 2. *)
Definition failingWorld : World :=
  fun c =>
    if ChunkSpec.Index c =? 2 then mkExchange 1000 (inl (TransportError 503)) 0 0
    else if Z.odd (ChunkSpec.Index c) then exchangeOf brokenBody
    else exchangeOf longBody.


(** ** Go's [float64] *)

(** [float64] is the kernel's binary64 type: [+], [*], [/] and the
    comparisons are the IEEE 754 operations, rounding to nearest even. What
    follows adds the conversions and the library functions the statistics
    use. *)
Module Float64.

(** [float64 (z)] for an [int64] (or [int]) [z]: the nearest binary64 value. *)
Definition of_int64 (z : Z) : float :=
  if z <? 0 then
    if z =? Int64.min_int then (-9223372036854775808)%float
    else (- of_uint63 (Uint63.of_Z (- z)))%float
  else of_uint63 (Uint63.of_Z z).

(** The integer part of a finite binary64 value, truncated toward zero. *)
Definition truncate (x : spec_float) : option Z :=
  match x with
  | S754_zero _ => Some 0
  | S754_finite s m e =>
      let mag := if 0 <=? e then Z.pos m * 2 ^ e else Z.pos m / 2 ^ (- e) in
      Some (if s then - mag else mag)
  | S754_infinity _ | S754_nan => None
  end.

(** [int64 (f)] (and [int (f)], [time.Duration (f)]): truncation toward
    zero. Go leaves the result open when the value does not fit; the model
    takes what amd64 yields then, the smallest [int64]. *)
Definition to_int64 (f : float) : Z :=
  match truncate (Prim2SF f) with
  | Some v =>
      if (Int64.min_int <=? v) && (v <=? Int64.max_int) then v else Int64.min_int
  | None => Int64.min_int
  end.

(** [math.Ceil]: the least integer value not below [f]; zeros, infinities
    and NaN are returned as they are. *)
Definition Ceil (f : float) : float :=
  match Prim2SF f with
  | S754_finite s m e =>
      if 0 <=? e then f
      else
        let q := Z.pos m / 2 ^ (- e) in
        let r := Z.pos m mod 2 ^ (- e) in
        if s then (if q =? 0 then neg_zero else (- of_uint63 (Uint63.of_Z q))%float)
        else of_uint63 (Uint63.of_Z (if r =? 0 then q else q + 1))
  | _ => f
  end.

(** The order of [sort.Float64s]: [x < y], with NaN before every other value. *)
Definition less (x y : float) : bool :=
  (x <? y)%float || (is_nan x && negb (is_nan y)).

Fixpoint insert (x : float) (l : list float) : list float :=
  match l with
  | [] => [x]
  | y :: l' => if less y x then y :: insert x l' else x :: l
  end.

(** [sort.Float64s], as an insertion sort. The library's algorithm differs,
    and so can the order it leaves between [+0] and [-0], the only values
    that compare equal without being the same. *)
Definition sort (l : list float) : list float := fold_right insert [] l.

(** Two values are the same number: identical, or equal as [==] has it
    (which identifies [+0] and [-0]). *)
Definition same_value (x y : float) : Prop := x = y \/ (x =? y)%float = true.

End Float64.

(** [d.Seconds ()] for a [time.Duration] [d]:
    [float64 (d / Second) + float64 (d % Second) / 1e9], the integer division
    and remainder truncating toward zero. *)
Definition Seconds (d : Z) : float :=
  let sec := Z.quot d 1000000000 in
  let nsec := Z.rem d 1000000000 in
  (Float64.of_int64 sec + Float64.of_int64 nsec / 1e9)%float.

(** ** Statistics *)

(** The configuration fields the modelled code reads. *)
Record Config : Type := mkConfig {
  ChunkSize : Z;
  DiscardOutput : bool
}.

(** [LatencyStats] holds percentile and aggregate statistics for chunk
    download latencies. *)
Module LatencyStats.
Record t : Type := mk {
  Min : Z; Max : Z; Mean : Z; P50 : Z; P95 : Z; P99 : Z
}.
End LatencyStats.

(** [RunSummary] contains the aggregate benchmark results for a single run. *)
Module RunSummary.
Record t : Type := mk {
  RunNumber : Z;
  ObjectSize : Z;
  TotalBytes : Z;
  ChunkCount : Z;
  ChunkSize : Z;
  Concurrency : Z;
  TotalTime : Z;
  TTFB : Z;
  ThroughputMB : float;
  ThroughputGB : float;
  ChunkLatency : LatencyStats.t
}.
End RunSummary.

(** [AggregateSummary] holds min/max/mean throughput across multiple runs. *)
Module AggregateSummary.
Record t : Type := mk {
  Runs : Z;
  MinThroughputMB : float;
  MaxThroughputMB : float;
  MeanThroughputMB : float;
  MinThroughputGB : float;
  MaxThroughputGB : float;
  MeanThroughputGB : float
}.
(** [AggregateSummary{}]. *)
Definition zero : t := mk 0 0 0 0 0 0 0.
End AggregateSummary.

(** [ConcurrencySweep] holds all runs for a single concurrency level. *)
Module ConcurrencySweep.
Record t : Type := mk {
  Concurrency : Z;
  Summaries : list RunSummary.t;
  Aggregate : AggregateSummary.t
}.
End ConcurrencySweep.

(** The first loop of [computeStats]: the byte total and the durations as
    floats, in table order. *)
Definition collect (chunks : list ChunkResult.t) : Z * list float :=
  fold_left
    (fun acc c =>
       (Int64.add (fst acc) (ChunkResult.Size c),
        snd acc ++ [Float64.of_int64 (ChunkResult.ElapsedTotal c)]))
    chunks (0, []).

(** [sum := 0.0; for _, d := range durations { sum += d }]. *)
Definition float_sum (l : list float) : float :=
  fold_left PrimFloat.add l 0%float.

(** The index [percentile] reads: [int (math.Ceil (p / 100.0 * float64 (n))) - 1],
    clamped to [[0, n - 1]]. *)
Definition percentileIndex (p : float) (n : Z) : Z :=
  let idx := Int64.sub (Float64.to_int64 (Float64.Ceil (p / 100 * Float64.of_int64 n)%float)) 1 in
  let idx := if idx <? 0 then 0 else idx in
  if idx >=? n then n - 1 else idx.

(** The closure [percentile] of [computeStats], over the sorted durations. *)
Definition percentile (durations : list float) (p : float) : Z :=
  let n := Z.of_nat (length durations) in
  if n =? 0 then 0
  else Float64.to_int64 (nth (Z.to_nat (percentileIndex p n)) durations 0%float).

(** [computeStats] builds a [RunSummary] from a completed [DownloadResult]. *)
Definition computeStats (result : DownloadResult.t) (cfg : Config)
    (objectSize runNumber concurrency : Z) : RunSummary.t :=
  let '(totalBytes, unsorted) := collect (DownloadResult.Chunks result) in
  let durations := Float64.sort unsorted in
  let n := Z.of_nat (length durations) in
  let sum := float_sum durations in
  let '(minD, maxD, meanD) :=
    if 0 <? n
    then (Float64.to_int64 (nth 0 durations 0%float),
          Float64.to_int64 (nth (Z.to_nat (n - 1)) durations 0%float),
          Float64.to_int64 (sum / Float64.of_int64 n)%float)
    else (0, 0, 0) in
  let elapsed := Seconds (DownloadResult.TotalTime result) in
  let '(throughputMB, throughputGB) :=
    if (0 <? elapsed)%float
    then ((Float64.of_int64 totalBytes / 1048576 / elapsed)%float,
          (Float64.of_int64 totalBytes / 1073741824 / elapsed)%float)
    else (0%float, 0%float) in
  {| RunSummary.RunNumber := runNumber;
     RunSummary.ObjectSize := objectSize;
     RunSummary.TotalBytes := totalBytes;
     RunSummary.ChunkCount := Z.of_nat (length (DownloadResult.Chunks result));
     RunSummary.ChunkSize := ChunkSize cfg;
     RunSummary.Concurrency := concurrency;
     RunSummary.TotalTime := DownloadResult.TotalTime result;
     RunSummary.TTFB := DownloadResult.TTFB result;
     RunSummary.ThroughputMB := throughputMB;
     RunSummary.ThroughputGB := throughputGB;
     RunSummary.ChunkLatency :=
       {| LatencyStats.Min := minD;
          LatencyStats.Max := maxD;
          LatencyStats.Mean := meanD;
          LatencyStats.P50 := percentile durations 50;
          LatencyStats.P95 := percentile durations 95;
          LatencyStats.P99 := percentile durations 99 |} |}.

(** The loop of [computeAggregate]: the running minimum, maximum and sum. *)
Definition aggregate_step (acc : float * float * float) (s : RunSummary.t)
  : float * float * float :=
  let '(minMB, maxMB, sumMB) := acc in
  let t := RunSummary.ThroughputMB s in
  (if (t <? minMB)%float then t else minMB,
   if (maxMB <? t)%float then t else maxMB,
   (sumMB + t)%float).

(** [computeAggregate] summarises throughput statistics across multiple runs. *)
Definition computeAggregate (summaries : list RunSummary.t) : AggregateSummary.t :=
  match summaries with
  | [] => AggregateSummary.zero
  | first :: _ =>
      let '(minMB, maxMB, sumMB) :=
        fold_left aggregate_step summaries
          (RunSummary.ThroughputMB first, RunSummary.ThroughputMB first, 0%float) in
      let meanMB := (sumMB / Float64.of_int64 (Z.of_nat (length summaries)))%float in
      {| AggregateSummary.Runs := Z.of_nat (length summaries);
         AggregateSummary.MinThroughputMB := minMB;
         AggregateSummary.MaxThroughputMB := maxMB;
         AggregateSummary.MeanThroughputMB := meanMB;
         AggregateSummary.MinThroughputGB := (minMB / 1024)%float;
         AggregateSummary.MaxThroughputGB := (maxMB / 1024)%float;
         AggregateSummary.MeanThroughputGB := (meanMB / 1024)%float |}
  end.

(** ** The best sweep *)

(** The scan of [printComparisonReport]:
    [bestMean := 0.0; bestIdx := 0;
     for i, sw := range sweeps { if sw.Aggregate.MeanThroughputMB > bestMean { .. } }].
    The state is [(bestMean, bestIdx)] and the position [i]. *)
Definition bestSweep_step (acc : float * nat * nat) (sw : ConcurrencySweep.t)
  : float * nat * nat :=
  let '(bestMean, bestIdx, i) := acc in
  let mean := AggregateSummary.MeanThroughputMB (ConcurrencySweep.Aggregate sw) in
  if (bestMean <? mean)%float then (mean, i, S i) else (bestMean, bestIdx, S i).

Definition bestSweep (sweeps : list ConcurrencySweep.t) : float * nat :=
  fst (fold_left bestSweep_step sweeps (0%float, 0%nat, 0%nat)).

Definition bestIdx (sweeps : list ConcurrencySweep.t) : nat := snd (bestSweep sweeps).

(** ** One run of [main] *)

(** What one pass of the run loop of [main] leads to: [log.Fatalf] (the
    process exits, no summary exists), or the run's summary. *)
Inductive RunOutcome : Type :=
| RunFailed (concurrency run : Z) (err : GoError)
| RunDone (summary : RunSummary.t).

Definition benchmarkRun (cfg : Config) (objectSize run concurrency : Z)
    (out : DownloadResult.t * option GoError) : RunOutcome :=
  match out with
  | (_, Some err) => RunFailed concurrency run err
  | (result, None) => RunDone (computeStats result cfg objectSize run concurrency)
  end.


(** ** The order of binary64 values, read on integer keys *)

(** A value that is not NaN has a key: its class and sign first, then
    exponent and mantissa (both negated below zero); the lexicographic order
    of the keys is the order of the values. *)
Definition Key : Type := (Z * Z * Z)%type.

Definition key_compare (a b : Key) : comparison :=
  let '(a1, a2, a3) := a in
  let '(b1, b2, b3) := b in
  match a1 ?= b1 with
  | Eq => match a2 ?= b2 with
          | Eq => a3 ?= b3
          | c => c
          end
  | c => c
  end.

Definition sf_key (x : spec_float) : option Key :=
  match x with
  | S754_nan => None
  | S754_infinity true => Some (-2, 0, 0)
  | S754_finite true m e => Some (-1, - e, Z.neg m)
  | S754_zero _ => Some (0, 0, 0)
  | S754_finite false m e => Some (1, e, Z.pos m)
  | S754_infinity false => Some (2, 0, 0)
  end.

Definition fkey (x : float) : option Key := sf_key (Prim2SF x).

Definition key_lt (a b : Key) : Prop :=
  let '(a1, a2, a3) := a in
  let '(b1, b2, b3) := b in
  a1 < b1 \/ (a1 = b1 /\ (a2 < b2 \/ (a2 = b2 /\ a3 < b3))).

Definition key_ltb (a b : Key) : bool :=
  match key_compare a b with Lt => true | _ => false end.
Definition key_leb (a b : Key) : bool :=
  match key_compare a b with Gt => false | _ => true end.
Definition key_eqb (a b : Key) : bool :=
  match key_compare a b with Eq => true | _ => false end.

(** ** Invariants of the report and aggregate scans *)

(** The mean throughput the report reads from a sweep. *)
Definition meanOf (sw : ConcurrencySweep.t) : float :=
  AggregateSummary.MeanThroughputMB (ConcurrencySweep.Aggregate sw).

(** What the scan has established after the sweeps [seen]. *)
Definition best_inv (seen : list ConcurrencySweep.t) (acc : float * nat * nat) : Prop :=
  let '(bestMean, idx, i) := acc in
  i = length seen /\
  (0 <=? bestMean)%float = true /\
  (forall sw, In sw seen -> (bestMean <? meanOf sw)%float = false) /\
  ((bestMean = 0%float /\ idx = 0%nat /\
    forall sw, In sw seen -> (0 <? meanOf sw)%float = false)
   \/
   (exists sw, nth_error seen idx = Some sw /\ meanOf sw = bestMean /\
      (0 <? bestMean)%float = true /\
      forall j sw', (j < idx)%nat -> nth_error seen j = Some sw' ->
                    (bestMean <=? meanOf sw')%float = false)).

(** The throughputs of a sequence of runs, in MB/s. *)
Definition throughputs (summaries : list RunSummary.t) : list float :=
  map RunSummary.ThroughputMB summaries.

(** What the loop of [computeAggregate] has established after the runs
    [seen], started from the throughput [x0]. *)
Definition aggregate_inv (x0 : float) (seen : list RunSummary.t)
    (acc : float * float * float) : Prop :=
  let '(minMB, maxMB, sumMB) := acc in
  (minMB = x0 \/ In minMB (throughputs seen)) /\
  (maxMB = x0 \/ In maxMB (throughputs seen)) /\
  (forall t, In t (throughputs seen) -> (t <? minMB)%float = false) /\
  (forall t, In t (throughputs seen) -> (maxMB <? t)%float = false) /\
  sumMB = float_sum (throughputs seen).

(** ** Integers that binary64 holds exactly *)

(** The binary64 value of an integer of magnitude at most [2^53]: the
    mantissa is the magnitude shifted to 53 digits. *)
Definition exact_sf (z : Z) : spec_float :=
  match z with
  | Z0 => S754_zero false
  | Zpos p =>
      let d := Z.pos (digits2_pos p) in
      S754_finite false (Z.to_pos (Z.pos p * 2 ^ 53 / 2 ^ d)) (d - 53)
  | Zneg p =>
      let d := Z.pos (digits2_pos p) in
      S754_finite true (Z.to_pos (Z.pos p * 2 ^ 53 / 2 ^ d)) (d - 53)
  end.

(** The key of the binary64 value of an integer of magnitude at most
    [2^53]. *)
Definition exact_key (z : Z) : Key :=
  match z with
  | Z0 => (0, 0, 0)
  | Zpos p =>
      let d := Z.pos (digits2_pos p) in
      (1, d - 53, Z.pos (Z.to_pos (Z.pos p * 2 ^ 53 / 2 ^ d)))
  | Zneg p =>
      let d := Z.pos (digits2_pos p) in
      (-1, - (d - 53), Z.neg (Z.to_pos (Z.pos p * 2 ^ 53 / 2 ^ d)))
  end.

(** The insertion sort of [Float64.sort], on integers. *)
Fixpoint insertZ (x : Z) (l : list Z) : list Z :=
  match l with
  | [] => [x]
  | y :: l' => if y <? x then y :: insertZ x l' else x :: l
  end.

Definition sortZ (l : list Z) : list Z := fold_right insertZ [] l.

(** ** What [computeStats] reads from a result *)

(** The elapsed times of the chunks, in table order, and their sizes. *)
Definition elapsedTimes (result : DownloadResult.t) : list Z :=
  map ChunkResult.ElapsedTotal (DownloadResult.Chunks result).

Definition chunkSizes (result : DownloadResult.t) : list Z :=
  map ChunkResult.Size (DownloadResult.Chunks result).

(** A duration that [float64] holds exactly. *)
Definition exact_duration (d : Z) : Prop := - 2 ^ 53 <= d <= 2 ^ 53.

(** ** Counting the steps of a dispatch *)

(** The states a dispatch reaches in exactly [n] steps. *)
Inductive reachable_in (world : World) (st0 : Dispatch) : nat -> Dispatch -> Prop :=
| reach_in_start : reachable_in world st0 0 st0
| reach_in_step n st st' :
    reachable_in world st0 n st -> step world st st' ->
    reachable_in world st0 (S n) st'.

(** The steps still to come: four for every queued chunk (receive, fetch,
    record, first-byte time), and for every worker what is left of its
    current round, plus the one step by which it exits. *)
Definition steps_left (st : Dispatch) : nat :=
  (4 * length (jobs st)
   + fold_right (fun w acc => worker_weight w + acc) 0 (workers st))%nat.

(** ** The first-byte time of a dispatch *)


(** ** The output buffers of a dispatch *)

(** What capture mode keeps of the answer to a chunk's request: the first
    [chunk.Size] bytes of the body (all of it when it is shorter). *)
Definition received (world : World) (c : ChunkSpec.t) : list byte :=
  match response (world c) with
  | inr body => firstn (Z.to_nat (ChunkSpec.Size c)) (pending body)
  | inl _ => []
  end.

(** What holds of the output buffers under every interleaving, in capture
    mode: the slot of a descriptor whose fetch succeeds holds the bytes
    received for it as soon as the fetch is over. *)
Definition slots_inv (world : World) (chunks : list ChunkSpec.t) (st : Dispatch) : Prop :=
  exists slots,
    outBufs st = Some slots /\
    forall p c, nth_error chunks p = Some c ->
      (exists r, outcome_of world true c r /\ ChunkResult.Err r = None) ->
      In c (jobs st)
      \/ (exists k, nth_error (workers st) k = Some (Fetching c))
      \/ nth_error slots p = Some (received world c).

(** ** A store that serves the object *)

(** The store answers the request for [c] with a body of exactly
    [c.Size] bytes that ends cleanly. *)
Definition serves (world : World) (c : ChunkSpec.t) : Prop :=
  exists body,
    response (world c) = inr body /\
    Z.of_nat (length (pending body)) = ChunkSpec.Size c /\
    ending body = EOF.

(** ** The sign of a binary64 value *)

(** Strictly positive: a positive finite value or [+Inf]. *)
Definition sf_positive (x : spec_float) : Prop :=
  match x with
  | S754_finite false _ _ | S754_infinity false => True
  | _ => False
  end.

(** Not above zero: a zero, a negative value, or NaN. *)
Definition sf_nonpositive (x : spec_float) : Prop :=
  match x with
  | S754_finite false _ _ | S754_infinity false => False
  | _ => True
  end.

(** The sign a rounding leaves. *)
Definition sf_signed (s : bool) (x : spec_float) : Prop :=
  match x with
  | S754_zero s' | S754_infinity s' | S754_finite s' _ _ => s' = s
  | S754_nan => True
  end.

(** ** Nearest-rank indices *)

(** The nearest-rank index in exact arithmetic: [ceil (p * n / 100) - 1]. *)
Definition nearestRank (p n : Z) : Z := (p * n + 99) / 100 - 1.

(** For [n] durations the three indices [computeStats] computes in
    [float64] are the nearest-rank indices. *)
Definition ranks_agree (n : Z) : bool :=
  (percentileIndex 50 n =? nearestRank 50 n)
  && (percentileIndex 95 n =? nearestRank 95 n)
  && (percentileIndex 99 n =? nearestRank 99 n).

(** The same for the [k] counts from [n] on. *)
Fixpoint ranks_agree_upto (k : nat) (n : Z) : bool :=
  match k with
  | O => true
  | S k' => ranks_agree n && ranks_agree_upto k' (n + 1)
  end.

(** ** The bar chart of the comparison report *)

(** [repeatChar] returns [n] copies of the rune [ch], and the empty string
    for [n <= 0]. A string is kept as its runes. *)
Definition repeatChar (ch : Z) (n : Z) : list Z :=
  if n <=? 0 then [] else repeat ch (Z.to_nat n).

Definition barWidth : Z := 40.

(** The two runes of a bar: U+2588 (full block) and U+2591 (light shade). *)
Definition fullBlock : Z := 9608.
Definition lightShade : Z := 9617.

(** [bar := int (mean / bestMean * barWidth); if bar < 1 { bar = 1 }]. *)
Definition barLength (mean bestMean : float) : Z :=
  let bar := Float64.to_int64 (mean / bestMean * 40)%float in
  if bar <? 1 then 1 else bar.

(** The cells of one line of the chart:
    [repeatChar ('█', bar)] followed by [repeatChar ('░', barWidth - bar)]. *)
Definition chartBar (mean bestMean : float) : list Z :=
  repeatChar fullBlock (barLength mean bestMean)
  ++ repeatChar lightShade (barWidth - barLength mean bestMean).

(** ** The progress counter *)

(** [io.Reader]: [Read (p)] with [len (p) = k] yields the bytes read, the
    error, and the reader afterwards. *)
Class Reader (R : Type) : Type :=
  Reader_Read : R -> nat -> list byte * option GoError * R.

#[export] Instance Body_Reader : Reader Body := Read.

(** [countingReader] wraps an [io.Reader] and increments a counter as bytes
    are read. The counter is an [atomic.Int64]: additions wrap, and no
    interleaving can split one. *)
Record countingReader (R : Type) : Type := mkCountingReader {
  cr_r : R;
  cr_counter : Z
}.
Arguments mkCountingReader {R} _ _.
Arguments cr_r {R} _.
Arguments cr_counter {R} _.

Definition countingReader_Read {R : Type} `{Reader R} (cr : countingReader R) (k : nat)
  : list byte * option GoError * countingReader R :=
  let '(bs, err, r') := Reader_Read (cr_r cr) k in
  let n := Z.of_nat (length bs) in
  (bs, err,
   mkCountingReader r'
     (if 0 <? n then Int64.add (cr_counter cr) n else cr_counter cr)).

#[export] Instance countingReader_Reader {R : Type} `{Reader R} : Reader (countingReader R) :=
  countingReader_Read.

(** [io.ReadAtLeast], [io.ReadFull] and [io.Copy (io.Discard, _)] over any
    reader, with the fuel of the loop made explicit. *)
Fixpoint io_ReadAtLeast_loop {R : Type} `{Reader R} (fuel : nat) (r : R)
    (bufLen min : nat) (got : list byte) (err : option GoError)
  : option (list byte * option GoError * R) :=
  match fuel with
  | O => None
  | S fuel' =>
      match err with
      | None =>
          if (length got <? min)%nat then
            let '(bs, e, r') := Reader_Read r (bufLen - length got) in
            io_ReadAtLeast_loop fuel' r' bufLen min (got ++ bs) e
          else Some (got, err, r)
      | Some _ => Some (got, err, r)
      end
  end.

Definition io_ReadFull {R : Type} `{Reader R} (fuel : nat) (r : R) (bufLen : nat)
  : option (list byte * option GoError * R) :=
  match io_ReadAtLeast_loop fuel r bufLen bufLen [] None with
  | None => None
  | Some (got, err, r') =>
      if (bufLen <=? length got)%nat then Some (got, None, r')
      else
        match got, err with
        | _ :: _, Some EOF => Some (got, Some ErrUnexpectedEOF, r')
        | _, _ => Some (got, err, r')
        end
  end.

Fixpoint io_Copy_discard_loop {R : Type} `{Reader R} (fuel : nat) (r : R) (n : Z)
  : option (Z * option GoError * R) :=
  match fuel with
  | O => None
  | S fuel' =>
      let '(bs, e, r') := Reader_Read r discardBufferLen in
      let n' := Int64.add n (Z.of_nat (length bs)) in
      match e with
      | None => io_Copy_discard_loop fuel' r' n'
      | Some EOF => Some (n', None, r')
      | Some err => Some (n', Some err, r')
      end
  end.

(** [downloadChunk] with its progress counter: [progress] is [None] for a
    nil pointer, and otherwise the value of the counter, which the result
    gives back as it is after the fetch. *)
Definition downloadChunk_counted (x : Exchange) (chunk : ChunkSpec.t)
    (outBufs : OutBufs) (progress : option Z)
  : option (ChunkResult.t * OutBufs * option Z) :=
  let index := ChunkSpec.Index chunk in
  let start := startTime x in
  match response x with
  | inl err =>
      Some (failedResult index start 0
              (GetObjectFailed index (ChunkSpec.RangeStart chunk)
                 (ChunkSpec.RangeEnd chunk) err),
            outBufs, progress)
  | inr body =>
      let ttfb := ttfbReading x in
      let fuel := S (S (length (pending body))) in
      match outBufs with
      | Some bufs =>
          if ChunkSpec.Size chunk <? 0 then None
          else
            let k := Z.to_nat (ChunkSpec.Size chunk) in
            let read :=
              match progress with
              | Some c =>
                  match io_ReadFull fuel (mkCountingReader body c) k with
                  | Some (got, err, cr) => Some (got, err, Some (cr_counter cr))
                  | None => None
                  end
              | None =>
                  match io_ReadFull fuel body k with
                  | Some (got, err, _) => Some (got, err, None)
                  | None => None
                  end
              end in
            match read with
            | None => None
            | Some (got, err, progress') =>
                let n := Z.of_nat (length got) in
                let stored :=
                  match slice_set bufs index got with
                  | None => None
                  | Some bufs' =>
                      Some (doneResult index n start ttfb (elapsedReading x),
                            Some bufs', progress')
                  end in
                match err with
                | Some e =>
                    if negb (is_ErrUnexpectedEOF e)
                    then Some (failedResult index start ttfb
                                 (ReadingBodyFailed index e),
                               outBufs, progress')
                    else stored
                | None => stored
                end
            end
      | None =>
          let drained :=
            match progress with
            | Some c =>
                match io_Copy_discard_loop fuel (mkCountingReader body c) 0 with
                | Some (n, err, cr) => Some (n, err, Some (cr_counter cr))
                | None => None
                end
            | None =>
                match io_Copy_discard_loop fuel body 0 with
                | Some (n, err, _) => Some (n, err, None)
                | None => None
                end
            end in
          match drained with
          | None => None
          | Some (n, Some e, progress') =>
              Some (failedResult index start ttfb (DrainingBodyFailed index e),
                    outBufs, progress')
          | Some (n, None, progress') =>
              Some (doneResult index n start ttfb (elapsedReading x), outBufs,
                    progress')
          end
      end
  end.

(** The bytes a fetch takes from the body: the chunk's size at most in
    capture mode, all of it in discard mode, none when the request fails. *)
Definition consumed (x : Exchange) (chunk : ChunkSpec.t) (outBufs : OutBufs) : Z :=
  match response x with
  | inl _ => 0
  | inr body =>
      match outBufs with
      | Some _ =>
          Z.of_nat (Nat.min (Z.to_nat (ChunkSpec.Size chunk)) (length (pending body)))
      | None => Z.of_nat (length (pending body))
      end
  end.

(** * Configuration (config.go) *)

(** ** Go strings and the library functions the parsers use *)

(** A Go string is a sequence of bytes. *)
Definition GoString : Type := list byte.

Delimit Scope string_scope with string.

Definition bytes (s : String.string) : GoString := String.list_byte_of_string s.
Arguments bytes s%_string.

Definition byteZ (b : byte) : Z := Z.of_N (Byte.to_N b).

(** [byte (z)]: the conversion wraps. *)
Definition byteOfZ (z : Z) : byte :=
  match Byte.of_N (Z.to_N (z mod 256)) with
  | Some b => b
  | None => x00
  end.

Fixpoint string_eqb (s t : GoString) : bool :=
  match s, t with
  | [], [] => true
  | a :: s', b :: t' => Byte.eqb a b && string_eqb s' t'
  | _, _ => false
  end.

(** [strings.HasPrefix] and [strings.HasSuffix]. *)
Fixpoint HasPrefix (s prefix : GoString) {struct prefix} : bool :=
  match prefix, s with
  | [], _ => true
  | p :: prefix', b :: s' => Byte.eqb p b && HasPrefix s' prefix'
  | _ :: _, [] => false
  end.

Definition HasSuffix (s suffix : GoString) : bool :=
  (length suffix <=? length s)%nat
  && string_eqb (skipn (length s - length suffix) s) suffix.

(** The UTF-8 encodings of the runes for which [unicode.IsSpace] holds:
    tab to carriage return, space, U+0085, U+00A0, U+1680, U+2000 to
    U+200A, U+2028, U+2029, U+202F, U+205F and U+3000. *)
Definition spaceRunes : list GoString :=
  [ [x09]; [x0a]; [x0b]; [x0c]; [x0d]; [x20];
    [xc2; x85]; [xc2; xa0]; [xe1; x9a; x80];
    [xe2; x80; x80]; [xe2; x80; x81]; [xe2; x80; x82]; [xe2; x80; x83];
    [xe2; x80; x84]; [xe2; x80; x85]; [xe2; x80; x86]; [xe2; x80; x87];
    [xe2; x80; x88]; [xe2; x80; x89]; [xe2; x80; x8a];
    [xe2; x80; xa8]; [xe2; x80; xa9]; [xe2; x80; xaf];
    [xe2; x81; x9f]; [xe3; x80; x80] ].

(** The string after its first rune, when that rune is a space. *)
Definition afterSpace (s : GoString) : option GoString :=
  match find (HasPrefix s) spaceRunes with
  | Some sp => Some (skipn (length sp) s)
  | None => None
  end.

(** The string before its last rune, when that rune is a space. *)
Definition beforeSpace (s : GoString) : option GoString :=
  match find (HasSuffix s) spaceRunes with
  | Some sp => Some (firstn (length s - length sp) s)
  | None => None
  end.

Fixpoint trimLeft (fuel : nat) (s : GoString) : GoString :=
  match fuel with
  | O => s
  | S fuel' =>
      match afterSpace s with
      | Some rest => trimLeft fuel' rest
      | None => s
      end
  end.

Fixpoint trimRight (fuel : nat) (s : GoString) : GoString :=
  match fuel with
  | O => s
  | S fuel' =>
      match beforeSpace s with
      | Some rest => trimRight fuel' rest
      | None => s
      end
  end.

(** [strings.TrimSpace]: the string without its leading and trailing white
    space, as Unicode defines it. The library decodes runes forward from the
    start and backward from the end; a byte sequence that is no valid
    encoding decodes as U+FFFD, which is no space, so that a rune is a space
    exactly when its bytes are one of [spaceRunes]. *)
Definition TrimSpace (s : GoString) : GoString :=
  let s' := trimLeft (length s) s in
  trimRight (length s') s'.

(** [strings.Split (s, sep)] for a separator of one byte. *)
Fixpoint Split (s : GoString) (sep : byte) : list GoString :=
  match s with
  | [] => [[]]
  | b :: rest =>
      if Byte.eqb b sep then [] :: Split rest sep
      else
        match Split rest sep with
        | cur :: parts => (b :: cur) :: parts
        | [] => [[b]]
        end
  end.

(** [strings.Join (parts, sep)]. *)
Fixpoint Join (parts : list GoString) (sep : GoString) : GoString :=
  match parts with
  | [] => []
  | [p] => p
  | p :: rest => p ++ sep ++ Join rest sep
  end.

(** ** [strconv.Atoi] and the verb [%d] *)

Inductive NumError : Type := ErrSyntax | ErrRange.

(** [ch -= '0'; if ch > 9 { syntax error }], on bytes. *)
Definition digitValue (ch : byte) : option Z :=
  let d := (byteZ ch - 48) mod 256 in
  if d >? 9 then None else Some d.

(** The fast path of [Atoi], for strings of 1 to 18 bytes:
    [n = n*10 + int (ch)] over the digits. *)
Fixpoint atoi_digits (s : GoString) (n : Z) : option Z :=
  match s with
  | [] => Some n
  | ch :: rest =>
      match digitValue ch with
      | None => None
      | Some d => atoi_digits rest (n * 10 + d)
      end
  end.

Definition isSign (b : byte) : bool := Byte.eqb b "+"%byte || Byte.eqb b "-"%byte.

Definition Atoi_fast (s : GoString) : Z * option NumError :=
  match s with
  | [] => (0, Some ErrSyntax)
  | s0 :: rest =>
      let digits := if isSign s0 then rest else s in
      match digits with
      | [] => (0, Some ErrSyntax)
      | _ :: _ =>
          match atoi_digits digits 0 with
          | None => (0, Some ErrSyntax)
          | Some n => (if Byte.eqb s0 "-"%byte then - n else n, None)
          end
      end
  end.

(** The loop of [strconv.ParseUint (s, 10, 64)]: the value read so far must
    stay below [cutoff = maxUint64 / 10 + 1] before each digit, and the new
    value within 64 bits. *)
Definition maxUint64 : Z := 2 ^ 64 - 1.

Fixpoint ParseUint_loop (s : GoString) (n : Z) : Z * option NumError :=
  match s with
  | [] => (n, None)
  | c :: rest =>
      match (if (48 <=? byteZ c) && (byteZ c <=? 57) then Some (byteZ c - 48) else None) with
      | None => (0, Some ErrSyntax)
      | Some d =>
          if n >=? maxUint64 / 10 + 1 then (maxUint64, Some ErrRange)
          else
            let n1 := n * 10 + d in
            if n1 >? maxUint64 then (maxUint64, Some ErrRange)
            else ParseUint_loop rest n1
      end
  end.

Definition ParseUint (s : GoString) : Z * option NumError :=
  match s with
  | [] => (0, Some ErrSyntax)
  | _ :: _ => ParseUint_loop s 0
  end.

(** [strconv.ParseInt (s, 10, 0)]. *)
Definition ParseInt (s : GoString) : Z * option NumError :=
  match s with
  | [] => (0, Some ErrSyntax)
  | s0 :: rest =>
      let neg := Byte.eqb s0 "-"%byte in
      let digits := if isSign s0 then rest else s in
      match ParseUint digits with
      | (_, Some ErrSyntax) => (0, Some ErrSyntax)
      | (un, _) =>
          if negb neg && (un >=? 2 ^ 63) then (2 ^ 63 - 1, Some ErrRange)
          else if neg && (un >? 2 ^ 63) then (- 2 ^ 63, Some ErrRange)
          else
            let n := Int64.wrap un in
            (if neg then Int64.wrap (- n) else n, None)
      end
  end.

(** [strconv.Atoi] on a 64-bit target. *)
Definition Atoi (s : GoString) : Z * option NumError :=
  if (0 <? length s)%nat && (length s <? 19)%nat then Atoi_fast s else ParseInt s.

(** The digits of [u], most significant first, in front of [acc]: the loop
    of [strconv]'s [formatBits] in base 10. *)
Fixpoint formatUint (fuel : nat) (u : Z) (acc : GoString) : GoString :=
  match fuel with
  | O => acc
  | S fuel' =>
      if u <? 10 then byteOfZ (48 + u) :: acc
      else formatUint fuel' (u / 10) (byteOfZ (48 + u mod 10) :: acc)
  end.

(** [fmt.Sprintf ("%d", v)] for an [int] [v]. *)
Definition Sprintf_d (v : Z) : GoString :=
  if v <? 0 then "-"%byte :: formatUint 20 (- v) [] else formatUint 20 v [].

(** ** The concurrency list *)

(** The errors of [parseByteSize] and of [parseConfig]. *)
Inductive ByteSizeError : Type :=
| EmptyValue
| NoNumericValue (s : GoString)
| CannotParseNumber (numStr s : GoString)
| ValueNotPositive (s : GoString).

Inductive ConfigError : Type :=
| BucketRequired
| KeyRequired
| InvalidConcurrency (part : GoString)
| NoConcurrency
| RunsTooSmall
| DiscardAndOutput
| ChunkSizeInvalid (cause : ByteSizeError)
| ChunkSizeNotPositive.

(** The loop of [parseConfig] over [strings.Split (rawConcurrency, ",")]. *)
Fixpoint parseConcurrency_loop (parts : list GoString) (acc : list Z)
  : list Z + ConfigError :=
  match parts with
  | [] => inl acc
  | part :: rest =>
      let part := TrimSpace part in
      match part with
      | [] => parseConcurrency_loop rest acc
      | _ :: _ =>
          match Atoi part with
          | (n, None) =>
              if n <? 1 then inr (InvalidConcurrency part)
              else parseConcurrency_loop rest (acc ++ [n])
          | (_, Some _) => inr (InvalidConcurrency part)
          end
      end
  end.

Definition parseConcurrency (rawConcurrency : GoString) : list Z + ConfigError :=
  match parseConcurrency_loop (Split rawConcurrency ","%byte) [] with
  | inl [] => inr NoConcurrency
  | r => r
  end.

(** [formatConcurrencyList] of main.go. *)
Definition formatConcurrencyList (list : list Z) : GoString :=
  match list with
  | [v] => Sprintf_d v ++ bytes " workers"
  | _ => Join (map Sprintf_d list) (bytes ", ") ++ bytes " workers (sweep)"
  end.
(** A decimal digit, as a byte. *)
Definition isDigit (b : byte) : Prop := 48 <= byteZ b <= 57.

(** The value of a string of digits. *)
Definition decValue (ds : GoString) : Z :=
  fold_left (fun n b => n * 10 + (byteZ b - 48)) ds 0.

(** ** Byte sizes *)

(** [strings.ToUpper]: a string of ASCII bytes is mapped byte by byte;
    any other string goes through [strings.Map (unicode.ToUpper, s)],
    which is left as the parameter [Map_ToUpper]. *)
Definition isASCII (s : GoString) : bool := forallb (fun c => byteZ c <? 128) s.

Definition upperByte (c : byte) : byte :=
  if (97 <=? byteZ c) && (byteZ c <=? 122) then byteOfZ (byteZ c - 32) else c.

Definition ToUpper (Map_ToUpper : GoString -> GoString) (s : GoString) : GoString :=
  if isASCII s then map upperByte s else Map_ToUpper s.

(** A [map[string]int64] literal, and [m[k]] in its two forms. *)
Fixpoint lookup (m : list (GoString * Z)) (k : GoString) : option Z :=
  match m with
  | [] => None
  | (k', v) :: m' => if string_eqb k' k then Some v else lookup m' k
  end.

Definition lookup0 (m : list (GoString * Z)) (k : GoString) : Z :=
  match lookup m k with
  | Some v => v
  | None => 0
  end.

Definition namedSizes : list (GoString * Z) :=
  [ (bytes "XS", Z.shiftl 1 20);
    (bytes "S", Z.shiftl 4 20);
    (bytes "M", Z.shiftl 8 20);
    (bytes "L", Z.shiftl 64 20);
    (bytes "XL", Z.shiftl 256 20);
    (bytes "XXL", Z.shiftl 1 30) ].

Definition suffixMap : list (GoString * Z) :=
  [ (bytes "B", 1);
    (bytes "KB", Z.shiftl 1 10);
    (bytes "KIB", Z.shiftl 1 10);
    (bytes "MB", Z.shiftl 1 20);
    (bytes "MIB", Z.shiftl 1 20);
    (bytes "GB", Z.shiftl 1 30);
    (bytes "GIB", Z.shiftl 1 30);
    (bytes "TB", Z.shiftl 1 40);
    (bytes "TIB", Z.shiftl 1 40) ].

Definition suffixKeys : list GoString := map fst suffixMap.

(** The loop [for k := range suffixMap] of [parseByteSize], over the keys
    in the order [keys] in which the run time happens to yield them.
    [None] is the run-time panic of [s[:len (s) - len (k)]] when [k] is
    longer than [s]. *)
Fixpoint suffixLoop (keys : list GoString) (upper s suffix numStr : GoString)
  : option (GoString * GoString) :=
  match keys with
  | [] => Some (suffix, numStr)
  | k :: rest =>
      if HasSuffix upper k && (length suffix <? length k)%nat then
        if (length s <? length k)%nat then None
        else suffixLoop rest upper s k (TrimSpace (firstn (length s - length k) s))
      else suffixLoop rest upper s suffix numStr
  end.

(** [parseByteSize], given the order [keys] of the iteration over
    [suffixMap] and the scan [Sscanf_f] of [fmt.Sscanf (numStr, "%f", &value)]
    ([None] when it reports an error). *)
Definition parseByteSize (Map_ToUpper : GoString -> GoString)
    (Sscanf_f : GoString -> option float) (keys : list GoString) (s : GoString)
  : option (Z * option ByteSizeError) :=
  let s := TrimSpace s in
  match s with
  | [] => Some (0, Some EmptyValue)
  | _ :: _ =>
      match lookup namedSizes (ToUpper Map_ToUpper s) with
      | Some v => Some (v, None)
      | None =>
          let upper := ToUpper Map_ToUpper s in
          match suffixLoop keys upper s [] [] with
          | None => None
          | Some (suffix, numStr) =>
              let '(suffix, numStr) :=
                match suffix with
                | [] => (bytes "B", s)
                | _ :: _ => (suffix, numStr)
                end in
              match numStr with
              | [] => Some (0, Some (NoNumericValue s))
              | _ :: _ =>
                  match Sscanf_f numStr with
                  | None => Some (0, Some (CannotParseNumber numStr s))
                  | Some value =>
                      if (value <=? 0)%float then Some (0, Some (ValueNotPositive s))
                      else
                        let multiplier := lookup0 suffixMap suffix in
                        Some (Float64.to_int64 (value * Float64.of_int64 multiplier)%float,
                              None)
                  end
              end
          end
      end
  end.

(** ** [parseConfig] *)

(** The values of the flag variables once [flag.Parse] has returned. *)
Module Flags.
Record t : Type := mk {
  endpoint : GoString;
  bucket : GoString;
  key : GoString;
  region : GoString;
  profile : GoString;
  accessKeyID : GoString;
  secretAccessKey : GoString;
  chunkSize : GoString;
  concurrency : GoString;
  runs : Z;
  discard : bool;
  output : GoString;
  json : bool
}.
End Flags.

(** The whole [Config] struct, as [parseConfig] fills it. *)
Module Cfg.
Record t : Type := mk {
  Endpoint : GoString;
  Bucket : GoString;
  Key : GoString;
  Region : GoString;
  Profile : GoString;
  AccessKeyID : GoString;
  SecretAccessKey : GoString;
  ChunkSize : Z;
  ConcurrencyList : list Z;
  Runs : Z;
  DiscardOutput : bool;
  OutputFile : GoString;
  JSONOutput : bool
}.
End Cfg.


(** [parseConfig], after [flag.Parse]: the checks, in the order of the
    source. [None] is a run-time panic inside [parseByteSize]. *)
Definition parseConfig (Map_ToUpper : GoString -> GoString)
    (Sscanf_f : GoString -> option float) (keys : list GoString) (flags : Flags.t)
  : option (Cfg.t + ConfigError) :=
  match Flags.bucket flags with
  | [] => Some (inr BucketRequired)
  | _ :: _ =>
  match Flags.key flags with
  | [] => Some (inr KeyRequired)
  | _ :: _ =>
  match parseConcurrency (Flags.concurrency flags) with
  | inr e => Some (inr e)
  | inl concurrencyList =>
  if Flags.runs flags <? 1 then Some (inr RunsTooSmall)
  else
  match Flags.discard flags, Flags.output flags with
  | true, _ :: _ => Some (inr DiscardAndOutput)
  | discard, output =>
  let discard := match discard, output with
                 | false, [] => true
                 | _, _ => discard
                 end in
  match parseByteSize Map_ToUpper Sscanf_f keys (Flags.chunkSize flags) with
  | None => None
  | Some (_, Some err) => Some (inr (ChunkSizeInvalid err))
  | Some (chunkSize, None) =>
  if chunkSize <? 1 then Some (inr ChunkSizeNotPositive)
  else
    Some (inl {| Cfg.Endpoint := Flags.endpoint flags;
                 Cfg.Bucket := Flags.bucket flags;
                 Cfg.Key := Flags.key flags;
                 Cfg.Region := Flags.region flags;
                 Cfg.Profile := Flags.profile flags;
                 Cfg.AccessKeyID := Flags.accessKeyID flags;
                 Cfg.SecretAccessKey := Flags.secretAccessKey flags;
                 Cfg.ChunkSize := chunkSize;
                 Cfg.ConcurrencyList := concurrencyList;
                 Cfg.Runs := Flags.runs flags;
                 Cfg.DiscardOutput := discard;
                 Cfg.OutputFile := Flags.output flags;
                 Cfg.JSONOutput := Flags.json flags |})
  end end end end end.

(** The length of the longest of [keys] that ends [upper]. *)
Definition longestMatch (keys : list GoString) (upper : GoString) : nat :=
  fold_right (fun k acc => if HasSuffix upper k then Nat.max (length k) acc else acc)
             0%nat keys.

(** Classes of ASCII bytes: printing and not a space, an upper-case letter,
    a letter. *)
Definition isGraph (c : byte) : Prop := 33 <= byteZ c <= 126.
Definition isUpper (c : byte) : Prop := 65 <= byteZ c <= 90.
Definition isLetter (c : byte) : Prop :=
  65 <= byteZ c <= 90 \/ 97 <= byteZ c <= 122.

(** ** The output file of [main] *)

(** An open file: its bytes and the offset of the next write. Writes are
    taken to succeed (a failed write ends the process in [log.Fatalf]). *)
Module File.
Record t : Type := mk {
  content : list byte;
  offset : nat
}.

(** [os.Create]: the file is created or truncated. *)
Definition Create : t := {| content := []; offset := 0 |}.

(** [f.Write (buf)]: the bytes replace what is at the offset and extend the
    file behind its end; a gap before the offset reads as zeros. *)
Definition Write (f : t) (buf : list byte) : t :=
  {| content := firstn (offset f) (content f)
                ++ repeat x00 (offset f - length (content f))
                ++ buf
                ++ skipn (offset f + length buf) (content f);
     offset := offset f + length buf |}.

(** [f.Seek (0, io.SeekStart)]. *)
Definition Seek0 (f : t) : t := {| content := content f; offset := 0 |}.
End File.

(** The buffers [main] hands to a run:
    [if !cfg.DiscardOutput { outBufs = make ([][]byte, len (chunks)) }]. *)
Definition allocOutBufs (discardOutput : bool) (n : nat) : OutBufs :=
  if discardOutput then None else Some (repeat [] n).

(** The flush at the end of a run: the slots are written in order, and the
    file is rewound when another run follows. *)
Definition flushOutput (outFile : option File.t) (outBufs : OutBufs) (run runs : Z)
  : option File.t :=
  match outFile with
  | None => None
  | Some f =>
      let f' := fold_left File.Write
                  (match outBufs with Some slots => slots | None => [] end) f in
      Some (if run <? runs then File.Seek0 f' else f')
  end.

(** The bytes [RangeStart .. RangeEnd] of an object, as far as it has them:
    what the header [Range: bytes=RangeStart-RangeEnd] asks for. *)
Definition objectRange (obj : list byte) (c : ChunkSpec.t) : list byte :=
  firstn (Z.to_nat (ChunkSpec.RangeEnd c - ChunkSpec.RangeStart c + 1))
         (skipn (Z.to_nat (ChunkSpec.RangeStart c)) obj).

(** The store holds [obj] and answers the request for [c] with the bytes of
    its range, ending cleanly. *)
Definition servesObject (world : World) (obj : list byte) (c : ChunkSpec.t) : Prop :=
  exists body,
    response (world c) = inr body /\
    pending body = objectRange obj c /\
    ending body = EOF.

(** A store that holds [obj] and nothing else: every request is answered
    with the bytes of its range, handed over one at a time. *)
Definition objectStore (obj : list byte) : World :=
  fun c => exchangeOf (mkBody (objectRange obj c) 0 EOF).

(** ** The sweep of [main] *)








(** * Properties *)

(** ** Facts about [Int64.wrap] *)

Module Int64Facts.
Import Int64.

Lemma wrap_in_range (z : Z) : in_range (wrap z).
Proof.
  unfold in_range, wrap, min_int, max_int.
  pose proof (Z.mod_pos_bound (z + 2 ^ 63) (2 ^ 64) ltac:(lia)). lia.
Qed.

Lemma wrap_small (z : Z) : in_range z -> wrap z = z.
Proof.
  unfold in_range, wrap, min_int, max_int. intros H.
  rewrite Z.mod_small by lia. lia.
Qed.

Lemma wrap_even (z : Z) : Z.even (wrap z) = Z.even z.
Proof.
  unfold wrap.
  rewrite (Z.mod_eq (z + 2 ^ 63) (2 ^ 64)) by lia.
  replace (z + 2 ^ 63 - 2 ^ 64 * ((z + 2 ^ 63) / 2 ^ 64) - 2 ^ 63)
    with (z + 2 * (- 2 ^ 63 * ((z + 2 ^ 63) / 2 ^ 64))) by ring.
  apply Z.even_add_mul_2.
Qed.

Lemma add_small (a b : Z) : in_range (a + b) -> add a b = a + b.
Proof. apply wrap_small. Qed.

Lemma sub_small (a b : Z) : in_range (a - b) -> sub a b = a - b.
Proof. apply wrap_small. Qed.

End Int64Facts.

(** ** The range planner *)

Section Planner.

Variables objectSize chunkSize : Z.
Hypothesis size_nonneg : 0 <= objectSize.
Hypothesis chunk_pos : 0 < chunkSize.

Lemma chunkCount_bounds :
  0 <= chunkCount objectSize chunkSize /\
  (chunkCount objectSize chunkSize - 1) * chunkSize < objectSize
    <= chunkCount objectSize chunkSize * chunkSize.
Proof.
  unfold chunkCount.
  pose proof (Z.div_mod (objectSize + chunkSize - 1) chunkSize ltac:(lia)) as E.
  pose proof (Z.mod_pos_bound (objectSize + chunkSize - 1) chunkSize chunk_pos) as B.
  assert (0 <= (objectSize + chunkSize - 1) / chunkSize)
    by (apply Z.div_pos; lia).
  nia.
Qed.

Lemma chunkCount_le_size : chunkCount objectSize chunkSize <= objectSize.
Proof. pose proof chunkCount_bounds. nia. Qed.

Lemma below_count (k : Z) :
  0 <= k < chunkCount objectSize chunkSize -> k * chunkSize < objectSize.
Proof. pose proof chunkCount_bounds. nia. Qed.

Lemma plan_prefix_snoc (n : nat) :
  plan_prefix objectSize chunkSize (S n)
  = plan_prefix objectSize chunkSize n ++ [chunk_at objectSize chunkSize (Z.of_nat n)].
Proof. unfold plan_prefix. rewrite seq_S, map_app. reflexivity. Qed.

Lemma plan_prefix_length (n : nat) :
  length (plan_prefix objectSize chunkSize n) = n.
Proof. unfold plan_prefix. now rewrite length_map, length_seq. Qed.

Lemma plan_prefix_nth (n i : nat) :
  nth_error (plan_prefix objectSize chunkSize n) i
  = if (i <? n)%nat then Some (chunk_at objectSize chunkSize (Z.of_nat i)) else None.
Proof.
  unfold plan_prefix. destruct (Nat.ltb_spec i n) as [Hlt | Hge].
  - rewrite nth_error_map, nth_error_seq.
    apply Nat.ltb_lt in Hlt. rewrite Hlt. reflexivity.
  - apply nth_error_None. rewrite length_map, length_seq. lia.
Qed.

Hypothesis no_overflow : objectSize + chunkSize <= 2 ^ 63.

(** One pass of the loop from the state reached after [k] iterations: with
    [n] chunks still to plan it needs exactly [n + 1] units of fuel. *)
Lemma planChunks_loop_spec (fuel n k : nat) :
  Z.of_nat (k + n) = chunkCount objectSize chunkSize ->
  planChunks_loop fuel objectSize chunkSize
    (Z.of_nat k * chunkSize) (Z.of_nat k) (plan_prefix objectSize chunkSize k)
  = if (n <? fuel)%nat then Some (plan_prefix objectSize chunkSize (k + n)) else None.
Proof.
  revert n k. induction fuel as [| fuel IH]; intros n k Hn.
  - reflexivity.
  - cbn [planChunks_loop].
    pose proof chunkCount_bounds as [Hc0 [Hlo Hhi]].
    pose proof chunkCount_le_size as Hle.
    destruct n as [| n].
    + (* the loop condition fails *)
      replace (Z.of_nat k * chunkSize <? objectSize) with false
        by (symmetry; apply Z.ltb_ge; nia).
      rewrite Nat.add_0_r. reflexivity.
    + assert (Hk : Z.of_nat k * chunkSize < objectSize) by (apply below_count; lia).
      replace (Z.of_nat k * chunkSize <? objectSize) with true
        by (symmetry; apply Z.ltb_lt; exact Hk).
      assert (Hadd : Int64.add (Z.of_nat k * chunkSize) chunkSize
                     = Z.of_nat (S k) * chunkSize).
      { rewrite Int64Facts.add_small; [lia |].
        unfold Int64.in_range, Int64.min_int, Int64.max_int. nia. }
      rewrite Hadd.
      assert (Hend0 : Int64.sub (Z.of_nat (S k) * chunkSize) 1
                      = Z.of_nat (S k) * chunkSize - 1).
      { apply Int64Facts.sub_small.
        unfold Int64.in_range, Int64.min_int, Int64.max_int. nia. }
      rewrite Hend0.
      assert (Hidx : Int64.add (Z.of_nat k) 1 = Z.of_nat (S k)).
      { rewrite Int64Facts.add_small; [lia |].
        unfold Int64.in_range, Int64.min_int, Int64.max_int. lia. }
      rewrite Hidx.
      assert (Hlast : Int64.sub objectSize 1 = objectSize - 1).
      { apply Int64Facts.sub_small.
        unfold Int64.in_range, Int64.min_int, Int64.max_int. lia. }
      rewrite Hlast.
      set (e := if Z.of_nat (S k) * chunkSize - 1 >=? objectSize
                then objectSize - 1 else Z.of_nat (S k) * chunkSize - 1).
      assert (He : e = Z.min ((Z.of_nat k + 1) * chunkSize) objectSize - 1).
      { subst e. destruct (Z.geb_spec (Z.of_nat (S k) * chunkSize - 1) objectSize); lia. }
      assert (Hsz : Int64.add (Int64.sub e (Z.of_nat k * chunkSize)) 1
                    = Z.min chunkSize (objectSize - Z.of_nat k * chunkSize)).
      { rewrite Int64Facts.sub_small, Int64Facts.add_small;
          unfold Int64.in_range, Int64.min_int, Int64.max_int; lia. }
      rewrite Hsz, He.
      change {| ChunkSpec.Index := Z.of_nat k;
                ChunkSpec.RangeStart := Z.of_nat k * chunkSize;
                ChunkSpec.RangeEnd := Z.min ((Z.of_nat k + 1) * chunkSize) objectSize - 1;
                ChunkSpec.Size := Z.min chunkSize (objectSize - Z.of_nat k * chunkSize) |}
        with (chunk_at objectSize chunkSize (Z.of_nat k)).
      rewrite <- plan_prefix_snoc.
      rewrite (IH n (S k)) by lia.
      replace (S k + n)%nat with (k + S n)%nat by lia.
      reflexivity.
Qed.

Lemma planChunks_exact_fuel (fuel : nat) :
  planChunks fuel objectSize chunkSize
  = if (Z.to_nat (chunkCount objectSize chunkSize) <? fuel)%nat
    then Some (plan_prefix objectSize chunkSize
                 (Z.to_nat (chunkCount objectSize chunkSize)))
    else None.
Proof.
  pose proof chunkCount_bounds as [Hc0 _].
  unfold planChunks.
  apply (planChunks_loop_spec fuel (Z.to_nat (chunkCount objectSize chunkSize)) 0).
  lia.
Qed.

Lemma sum_sizes_app (l1 l2 : list ChunkSpec.t) :
  sum_sizes (l1 ++ l2) = sum_sizes l1 + sum_sizes l2.
Proof.
  induction l1 as [| c l1 IH]; [reflexivity |].
  change (sum_sizes ((c :: l1) ++ l2)) with (ChunkSpec.Size c + sum_sizes (l1 ++ l2)).
  change (sum_sizes (c :: l1)) with (ChunkSpec.Size c + sum_sizes l1).
  lia.
Qed.

Lemma sum_sizes_prefix (n : nat) :
  Z.of_nat n <= chunkCount objectSize chunkSize ->
  sum_sizes (plan_prefix objectSize chunkSize n)
  = Z.min (Z.of_nat n * chunkSize) objectSize.
Proof.
  induction n as [| n IH]; intros Hn.
  - cbn. lia.
  - rewrite plan_prefix_snoc, sum_sizes_app, IH by lia.
    cbn [sum_sizes fold_right chunk_at ChunkSpec.Size].
    assert (Z.of_nat n * chunkSize < objectSize) by (apply below_count; lia).
    lia.
Qed.

(** The closed-form plan partitions the object. *)
Lemma plan_prefix_partitions :
  Partitions objectSize chunkSize
    (plan_prefix objectSize chunkSize (Z.to_nat (chunkCount objectSize chunkSize))).
Proof.
  pose proof chunkCount_bounds as [Hc0 [Hlo Hhi]].
  set (N := Z.to_nat (chunkCount objectSize chunkSize)).
  assert (HN : Z.of_nat N = chunkCount objectSize chunkSize) by (subst N; lia).
  assert (Hnth : forall i c,
             nth_error (plan_prefix objectSize chunkSize N) i = Some c ->
             (i < N)%nat /\ c = chunk_at objectSize chunkSize (Z.of_nat i)).
  { intros i c. rewrite plan_prefix_nth.
    destruct (Nat.ltb_spec i N); [intros [= <-]; auto | discriminate]. }
  assert (Hstart : forall i, (i < N)%nat -> Z.of_nat i * chunkSize < objectSize)
    by (intros i Hi; apply below_count; lia).
  constructor.
  - intros i c H. apply Hnth in H as [_ ->]. reflexivity.
  - intros c H. apply Hnth in H as [_ ->]. reflexivity.
  - intros c H. rewrite plan_prefix_length in H.
    apply Hnth in H as [Hi ->]. cbn [chunk_at ChunkSpec.RangeEnd].
    assert (Z.of_nat (N - 1) = Z.of_nat N - 1) by lia. nia.
  - intros i a b Ha Hb. apply Hnth in Ha as [Hi ->]. apply Hnth in Hb as [Hj ->].
    cbn [chunk_at ChunkSpec.RangeEnd ChunkSpec.RangeStart].
    specialize (Hstart _ Hj). lia.
  - intros c Hin. apply In_nth_error in Hin as [i Hi].
    apply Hnth in Hi as [Hi ->]. cbn [chunk_at ChunkSpec.RangeEnd ChunkSpec.RangeStart ChunkSpec.Size].
    specialize (Hstart _ Hi). lia.
  - intros i c H Hlt. rewrite plan_prefix_length in Hlt.
    apply Hnth in H as [Hi ->]. cbn [chunk_at ChunkSpec.Size].
    specialize (Hstart _ Hlt). lia.
  - rewrite sum_sizes_prefix by lia. lia.
  - intros b Hb.
    pose proof (Z.div_mod b chunkSize ltac:(lia)) as E.
    pose proof (Z.mod_pos_bound b chunkSize chunk_pos) as B.
    assert (0 <= b / chunkSize) by (apply Z.div_pos; lia).
    assert (Hq : (Z.to_nat (b / chunkSize) < N)%nat) by nia.
    exists (Z.to_nat (b / chunkSize)), (chunk_at objectSize chunkSize (b / chunkSize)).
    split.
    + rewrite plan_prefix_nth. apply Nat.ltb_lt in Hq. rewrite Hq.
      now rewrite Z2Nat.id by lia.
    + cbn [chunk_at ChunkSpec.RangeEnd ChunkSpec.RangeStart]. nia.
  - intros i j a b Hij Ha Hb. apply Hnth in Ha as [Hi ->]. apply Hnth in Hb as [Hj ->].
    cbn [chunk_at ChunkSpec.RangeEnd ChunkSpec.RangeStart]. nia.
  - intros ->. replace N with 0%nat; [reflexivity |]. nia.
Qed.

End Planner.

(** More fuel never changes what the loop returns. *)
Lemma planChunks_loop_mono (fuel fuel' : nat) objectSize chunkSize offset index chunks r :
  (fuel <= fuel')%nat ->
  planChunks_loop fuel objectSize chunkSize offset index chunks = Some r ->
  planChunks_loop fuel' objectSize chunkSize offset index chunks = Some r.
Proof.
  revert fuel' offset index chunks.
  induction fuel as [| fuel IH]; intros fuel' offset index chunks Hle H;
    [discriminate |].
  destruct fuel' as [| fuel']; [lia |].
  cbn [planChunks_loop] in *.
  destruct (offset <? objectSize); [| exact H].
  apply IH; [lia | exact H].
Qed.

(** [planChunks] is a function: it returns at most one plan. *)
Lemma planChunks_returns_unique objectSize chunkSize chunks chunks' :
  planChunks_returns objectSize chunkSize chunks ->
  planChunks_returns objectSize chunkSize chunks' ->
  chunks = chunks'.
Proof.
  intros [f Hf] [f' Hf']. unfold planChunks in *.
  apply (planChunks_loop_mono f (Nat.max f f')) in Hf; [| lia].
  apply (planChunks_loop_mono f' (Nat.max f f')) in Hf'; [| lia].
  congruence.
Qed.

(** C1 (amended with the overflow bound): for every [objectSize >= 0] and
    [chunkSize > 0] with [objectSize + chunkSize <= 2^63], [planChunks]
    returns, and the sequence it returns exactly partitions
    [[0, objectSize)]: indices are [0..N-1], the first range starts at 0,
    the last ends at [objectSize - 1], consecutive ranges are adjacent, each
    size is at most [chunkSize] and only the final range may be shorter, the
    sizes sum to [objectSize], every byte lies in some range, ranges do not
    overlap, and [objectSize = 0] yields the empty sequence; in particular
    [plan (10, 3) = [{0,0,2,3}; {1,3,5,3}; {2,6,8,3}; {3,9,9,1}]]. *)
Theorem planChunks_partitions (objectSize chunkSize : Z) :
  0 <= objectSize -> 0 < chunkSize -> objectSize + chunkSize <= 2 ^ 63 ->
  (exists chunks, planChunks_returns objectSize chunkSize chunks) /\
  (forall chunks, planChunks_returns objectSize chunkSize chunks ->
     Partitions objectSize chunkSize chunks /\
     Z.of_nat (length chunks) = chunkCount objectSize chunkSize) /\
  planChunks_returns 10 3
    [ ChunkSpec.mk 0 0 2 3; ChunkSpec.mk 1 3 5 3;
      ChunkSpec.mk 2 6 8 3; ChunkSpec.mk 3 9 9 1 ].
Proof.
  intros HS Hc Hb.
  set (N := Z.to_nat (chunkCount objectSize chunkSize)).
  assert (Hret : planChunks_returns objectSize chunkSize
                   (plan_prefix objectSize chunkSize N)).
  { exists (S N). rewrite planChunks_exact_fuel by assumption.
    fold N. replace (N <? S N)%nat with true; [reflexivity |].
    symmetry. apply Nat.ltb_lt. lia. }
  split; [eexists; exact Hret |]. split.
  - intros chunks H.
    rewrite (planChunks_returns_unique _ _ _ _ H Hret).
    split.
    + apply plan_prefix_partitions; assumption.
    + rewrite plan_prefix_length. subst N.
      pose proof (chunkCount_bounds objectSize chunkSize HS Hc). lia.
  - exists 5%nat. reflexivity.
Qed.

Lemma planChunks_partitions_witness :
  0 <= 10 /\ 0 < 3 /\ 10 + 3 <= 2 ^ 63 /\
  (exists chunks, planChunks_returns 10 3 chunks) /\
  (forall chunks, planChunks_returns 10 3 chunks ->
     Partitions 10 3 chunks /\ Z.of_nat (length chunks) = chunkCount 10 3).
Proof.
  pose proof (planChunks_partitions 10 3 ltac:(lia) ltac:(lia) ltac:(lia))
    as [H1 [H2 _]].
  split; [lia |]. split; [lia |]. split; [lia |]. split; [exact H1 | exact H2].
Defined.

(** With an even [chunkSize] and [objectSize = 2^63 - 1], every offset the
    loop reaches is even, hence different from the (odd) largest [int64]:
    the loop condition [offset < objectSize] never fails. *)
Lemma planChunks_loop_even_diverges (chunkSize : Z) :
  Z.even chunkSize = true ->
  forall fuel offset index chunks,
    Z.even offset = true -> Int64.in_range offset ->
    planChunks_loop fuel Int64.max_int chunkSize offset index chunks = None.
Proof.
  intros Hc. induction fuel as [| fuel IH]; intros offset index chunks He Hr;
    [reflexivity |].
  cbn [planChunks_loop].
  assert (Hlt : offset < Int64.max_int).
  { destruct Hr as [_ Hr].
    assert (offset <> Int64.max_int) by (intros ->; discriminate He).
    lia. }
  apply Z.ltb_lt in Hlt. rewrite Hlt.
  apply IH.
  - unfold Int64.add. rewrite Int64Facts.wrap_even, Z.even_add, He, Hc. reflexivity.
  - apply Int64Facts.wrap_in_range.
Qed.

(** C1, counterexample: [objectSize = 2^63 - 1 >= 0] and
    [chunkSize = 2^63 - 2 > 0] are [int64] values for which the second
    iteration overflows ([end] wraps to [-5]) and the loop never ends, so
    [planChunks] returns no sequence at all. *)
Lemma planChunks_overflow_counterexample :
  0 <= 2 ^ 63 - 1 /\ 0 < 2 ^ 63 - 2 /\
  Int64.in_range (2 ^ 63 - 1) /\ Int64.in_range (2 ^ 63 - 2) /\
  planChunks_diverges (2 ^ 63 - 1) (2 ^ 63 - 2) /\
  ~ (exists chunks, planChunks_returns (2 ^ 63 - 1) (2 ^ 63 - 2) chunks /\
                    Partitions (2 ^ 63 - 1) (2 ^ 63 - 2) chunks).
Proof.
  assert (D : planChunks_diverges (2 ^ 63 - 1) (2 ^ 63 - 2)).
  { intros fuel. unfold planChunks.
    apply (planChunks_loop_even_diverges (2 ^ 63 - 2)); [reflexivity .. |].
    unfold Int64.in_range, Int64.min_int, Int64.max_int. lia. }
  unfold Int64.in_range, Int64.min_int, Int64.max_int.
  repeat split; try lia; try exact D.
  intros [chunks [[fuel H] _]]. rewrite D in H. discriminate.
Qed.

(** *** Termination of the planner *)

(** With [chunkSize = 0] the offset stays 0 forever. *)
Lemma planChunks_loop_zero_chunk (objectSize : Z) :
  0 < objectSize ->
  forall fuel index chunks,
    planChunks_loop fuel objectSize 0 0 index chunks = None.
Proof.
  intros HS. induction fuel as [| fuel IH]; intros index chunks; [reflexivity |].
  cbn [planChunks_loop].
  apply Z.ltb_lt in HS. rewrite HS. apply IH.
Qed.

(** With [chunkSize < 0] the offsets [0, c, 2c, ...] are negative and so
    below [objectSize] until they leave the [int64] range: the loop cannot
    stop within the first [2^63 / (- chunkSize) + 1] iterations. *)
Lemma planChunks_loop_negative_chunk (objectSize chunkSize : Z) :
  0 < objectSize -> chunkSize < 0 ->
  forall fuel k index chunks,
    0 <= k -> k + Z.of_nat fuel <= 2 ^ 63 / (- chunkSize) + 1 ->
    planChunks_loop fuel objectSize chunkSize
      (Int64.wrap (k * chunkSize)) index chunks = None.
Proof.
  intros HS Hc. induction fuel as [| fuel IH]; intros k index chunks Hk Hf;
    [reflexivity |].
  cbn [planChunks_loop].
  assert (Hq : k * (- chunkSize) <= 2 ^ 63).
  { pose proof (Z.mul_div_le (2 ^ 63) (- chunkSize) ltac:(lia)).
    assert (k <= 2 ^ 63 / (- chunkSize)) by lia. nia. }
  rewrite (Int64Facts.wrap_small (k * chunkSize))
    by (unfold Int64.in_range, Int64.min_int, Int64.max_int; nia).
  replace (k * chunkSize <? objectSize) with true
    by (symmetry; apply Z.ltb_lt; nia).
  unfold Int64.add at 1.
  replace (k * chunkSize + chunkSize) with ((k + 1) * chunkSize) by ring.
  apply IH; lia.
Qed.

(** C9 (amended): [planChunks] terminates for every [objectSize >= 0] and
    [chunkSize > 0] with [objectSize + chunkSize <= 2^63], after exactly
    [ceil (objectSize / chunkSize)] iterations (the remaining distance
    shrinks by [chunkSize] each time); for [objectSize > 0] it never
    terminates when [chunkSize = 0], and when [chunkSize < 0] it cannot
    return before the offset leaves the [int64] range, that is within the
    first [2^63 / (- chunkSize) + 1] iterations. *)
Theorem planChunks_termination (objectSize chunkSize : Z) :
  (0 <= objectSize -> 0 < chunkSize -> objectSize + chunkSize <= 2 ^ 63 ->
   (exists chunks,
      planChunks (S (Z.to_nat (chunkCount objectSize chunkSize)))
        objectSize chunkSize = Some chunks) /\
   (forall fuel, (fuel <= Z.to_nat (chunkCount objectSize chunkSize))%nat ->
      planChunks fuel objectSize chunkSize = None)) /\
  (0 < objectSize -> chunkSize = 0 -> planChunks_diverges objectSize chunkSize) /\
  (0 < objectSize -> chunkSize < 0 ->
   forall fuel, Z.of_nat fuel <= 2 ^ 63 / (- chunkSize) + 1 ->
                planChunks fuel objectSize chunkSize = None).
Proof.
  split; [| split].
  - intros HS Hc Hb. split.
    + eexists. rewrite planChunks_exact_fuel by assumption.
      replace (_ <? _)%nat with true; [reflexivity |].
      symmetry. apply Nat.ltb_lt. lia.
    + intros fuel Hf. rewrite planChunks_exact_fuel by assumption.
      replace (_ <? _)%nat with false; [reflexivity |].
      symmetry. apply Nat.ltb_ge. exact Hf.
  - intros HS -> fuel. apply planChunks_loop_zero_chunk. exact HS.
  - intros HS Hc fuel Hf. unfold planChunks.
    change 0 with (Int64.wrap (0 * chunkSize)) at 1.
    apply planChunks_loop_negative_chunk; lia.
Qed.

Lemma planChunks_termination_witness :
  (exists chunks, planChunks (S (Z.to_nat (chunkCount 10 3))) 10 3 = Some chunks) /\
  (forall fuel, (fuel <= Z.to_nat (chunkCount 10 3))%nat ->
     planChunks fuel 10 3 = None) /\
  planChunks_diverges 10 0 /\
  (forall fuel, Z.of_nat fuel <= 2 ^ 63 / (- (- 4)) + 1 ->
                planChunks fuel 10 (- 4) = None).
Proof.
  split; [| split; [| split]].
  - apply (planChunks_termination 10 3); lia.
  - apply (planChunks_termination 10 3); lia.
  - apply (planChunks_termination 10 0); lia.
  - apply (planChunks_termination 10 (- 4)); lia.
Defined.

(** C9, counterexample. Both halves of the claim fail on [int64] values:
    with [chunkSize = 2^62 > 0] and [objectSize = 2^63 - 1] the offsets cycle
    through [0, 2^62, -2^63, -2^62] and the loop never ends; with
    [chunkSize = -2^62 <= 0] and [objectSize = 1 > 0] the offset wraps to
    [2^62] after three iterations and the loop returns three descriptors. *)
Lemma planChunks_termination_counterexample :
  (0 <= 2 ^ 63 - 1 /\ 0 < 2 ^ 62 /\ planChunks_diverges (2 ^ 63 - 1) (2 ^ 62)) /\
  (0 < 1 /\ - 2 ^ 62 <= 0 /\
   planChunks 4 1 (- 2 ^ 62)
   = Some [ ChunkSpec.mk 0 0 (- 2 ^ 62 - 1) (- 2 ^ 62);
            ChunkSpec.mk 1 (- 2 ^ 62) 0 (2 ^ 62 + 1);
            ChunkSpec.mk 2 (- 2 ^ 63) 0 (- 2 ^ 63 + 1) ] /\
   ~ planChunks_diverges 1 (- 2 ^ 62)).
Proof.
  split.
  - split; [lia |]. split; [lia |].
    intros fuel. unfold planChunks.
    apply (planChunks_loop_even_diverges (2 ^ 62)); [reflexivity .. |].
    unfold Int64.in_range, Int64.min_int, Int64.max_int. lia.
  - split; [lia |]. split; [lia |]. split; [reflexivity |].
    intros D. specialize (D 4%nat). discriminate D.
Qed.

(** ** Streams: [io.ReadFull] and [io.Copy (io.Discard, _)] *)

Lemma wrap_add_wrap (x y : Z) : Int64.wrap (Int64.wrap x + y) = Int64.wrap (x + y).
Proof.
  unfold Int64.wrap.
  replace ((x + 2 ^ 63) mod 2 ^ 64 - 2 ^ 63 + y + 2 ^ 63)
    with ((x + 2 ^ 63) mod 2 ^ 64 + y) by ring.
  rewrite Z.add_mod_idemp_l by lia.
  replace (x + 2 ^ 63 + y) with (x + y + 2 ^ 63) by ring.
  reflexivity.
Qed.

Lemma firstn_firstn_skipn {A : Type} (n m : nat) (l : list A) :
  (n <= m)%nat -> firstn n l ++ firstn (m - n) (skipn n l) = firstn m l.
Proof.
  revert m l. induction n as [| n IH]; intros m l Hle.
  - rewrite Nat.sub_0_r. reflexivity.
  - destruct m as [| m]; [lia |]. destruct l as [| a l].
    + cbn [skipn firstn app]. now rewrite firstn_nil.
    + cbn. rewrite IH by lia. reflexivity.
Qed.

(** The reading loop of [ReadFull] with enough fuel. *)
Lemma ReadFull_loop_spec (k fuel : nat) (r : Body) (got : list byte) :
  (length got <= k)%nat -> (length (pending r) + 2 <= fuel)%nat ->
  ReadAtLeast_loop fuel r k k got None
  = Some (if (k - length got <=? length (pending r))%nat
          then (got ++ firstn (k - length got) (pending r), None)
          else (got ++ pending r, Some (ending r))).
Proof.
  revert r got. induction fuel as [| fuel IH]; intros r got Hgot Hfuel; [lia |].
  cbn [ReadAtLeast_loop].
  destruct (Nat.ltb_spec (length got) k) as [Hlt | Hge].
  - unfold Read. destruct (pending r) as [| b p] eqn:Hp.
    + destruct fuel as [| fuel]; [cbn in Hfuel; lia |].
      cbn [ReadAtLeast_loop length].
      replace (k - length got <=? 0)%nat with false
        by (symmetry; apply Nat.leb_gt; lia).
      reflexivity.
    + set (n := Nat.min (k - length got) (Nat.min (S (burst r)) (length (b :: p)))).
      assert (Hn : (1 <= n <= k - length got)%nat /\ (n <= length (b :: p))%nat)
        by (subst n; cbn [length]; lia).
      rewrite IH.
      * cbn [pending ending]. rewrite length_app, length_firstn, length_skipn.
        replace (Nat.min n (length (b :: p))) with n by lia.
        replace (k - (length got + n))%nat with (k - length got - n)%nat by lia.
        destruct (Nat.leb_spec (k - length got) (length (b :: p))) as [Hle | Hgt].
        -- replace (k - length got - n <=? length (b :: p) - n)%nat with true
             by (symmetry; apply Nat.leb_le; lia).
           rewrite <- app_assoc, firstn_firstn_skipn by lia. reflexivity.
        -- replace (k - length got - n <=? length (b :: p) - n)%nat with false
             by (symmetry; apply Nat.leb_gt; lia).
           rewrite <- app_assoc, firstn_skipn. reflexivity.
      * rewrite length_app, length_firstn. lia.
      * cbn [pending]. rewrite length_skipn. cbn [length] in *. lia.
  - replace (k - length got)%nat with 0%nat by lia.
    cbn [Nat.leb firstn]. rewrite app_nil_r. reflexivity.
Qed.

(** [io.ReadFull] always returns, and what it returns does not depend on how
    the stream hands its bytes over. *)
Lemma ReadFull_eq (r : Body) (k : nat) :
  ReadFull r k = Some (ReadFull_outcome r k).
Proof.
  unfold ReadFull, ReadAtLeast, ReadFull_outcome.
  rewrite Nat.ltb_irrefl.
  rewrite ReadFull_loop_spec by (cbn [length]; lia).
  cbn [length app]. rewrite Nat.sub_0_r.
  destruct (Nat.leb_spec k (length (pending r))) as [Hle | Hgt].
  - rewrite length_firstn.
    replace (k <=? Nat.min k (length (pending r)))%nat with true
      by (symmetry; apply Nat.leb_le; lia).
    reflexivity.
  - replace (k <=? length (pending r))%nat with false
      by (symmetry; apply Nat.leb_gt; lia).
    destruct (pending r) as [| b p]; [reflexivity |].
    destruct (ending r); reflexivity.
Qed.

Lemma Copy_discard_loop_spec (fuel : nat) (r : Body) (n : Z) :
  (length (pending r) + 1 <= fuel)%nat ->
  Copy_discard_loop fuel r n
  = Some (Int64.wrap (n + Z.of_nat (length (pending r))),
          if is_EOF (ending r) then None else Some (ending r)).
Proof.
  revert r n. induction fuel as [| fuel IH]; intros r n Hfuel; [lia |].
  cbn [Copy_discard_loop]. unfold Read.
  destruct (pending r) as [| b p] eqn:Hp.
  - cbn [length]. unfold Int64.add. destruct (ending r); reflexivity.
  - set (k := Nat.min discardBufferLen (Nat.min (S (burst r)) (length (b :: p)))).
    assert (Hk : (1 <= k <= length (b :: p))%nat).
    { subst k. assert (1 <= discardBufferLen)%nat by (unfold discardBufferLen; lia).
      cbn [length]. lia. }
    rewrite IH by (cbn [pending]; rewrite length_skipn; cbn [length] in *; lia).
    cbn [pending ending]. unfold Int64.add.
    rewrite wrap_add_wrap, length_firstn, length_skipn.
    f_equal. f_equal. f_equal. lia.
Qed.

(** [io.Copy (io.Discard, r)] always returns: the number of bytes the stream
    held, and the stream's error unless it ended cleanly. *)
Lemma Copy_discard_eq (r : Body) :
  Copy_discard r = Some (Copy_discard_outcome r).
Proof.
  unfold Copy_discard, Copy_discard_outcome.
  rewrite Copy_discard_loop_spec by lia. reflexivity.
Qed.

(** ** The fetch operation *)

Lemma slice_set_in_range {A : Type} (s : list A) (i : Z) (v : A) :
  0 <= i < Z.of_nat (length s) ->
  slice_set s i v = Some (update_nth (Z.to_nat i) v s).
Proof.
  intros [H0 H1]. unfold slice_set.
  apply Z.leb_le in H0. apply Z.ltb_lt in H1. now rewrite H0, H1.
Qed.

Lemma is_ErrUnexpectedEOF_true (e : GoError) :
  is_ErrUnexpectedEOF e = true <-> e = ErrUnexpectedEOF.
Proof. destruct e; cbn; split; congruence. Qed.







(** ** Slices *)

Lemma length_update_nth {A : Type} (n : nat) (v : A) (s : list A) :
  length (update_nth n v s) = length s.
Proof.
  revert n. induction s as [| a s IH]; intros [| n]; cbn; try reflexivity.
  now rewrite IH.
Qed.

Lemma nth_error_update_nth_eq {A : Type} (n : nat) (v : A) (s : list A) :
  (n < length s)%nat -> nth_error (update_nth n v s) n = Some v.
Proof.
  revert n. induction s as [| a s IH]; intros [| n] H; cbn in *; try lia.
  - reflexivity.
  - apply IH. lia.
Qed.

Lemma nth_error_update_nth_neq {A : Type} (n m : nat) (v : A) (s : list A) :
  n <> m -> nth_error (update_nth n v s) m = nth_error s m.
Proof.
  revert n m. induction s as [| a s IH]; intros [| n] [| m] H; cbn;
    try reflexivity; try congruence.
  apply IH. congruence.
Qed.

Lemma slice_set_Some {A : Type} (s s' : list A) (i : Z) (v : A) :
  slice_set s i v = Some s' ->
  0 <= i < Z.of_nat (length s) /\ s' = update_nth (Z.to_nat i) v s.
Proof.
  unfold slice_set. destruct (0 <=? i) eqn:E0; [| discriminate].
  destruct (i <? Z.of_nat (length s)) eqn:E1; [| discriminate].
  cbn. intros [= <-]. apply Z.leb_le in E0. apply Z.ltb_lt in E1. auto.
Qed.

(** ** What [downloadChunk] guarantees to the dispatcher *)

(** Every result carries the index of its chunk. *)
Lemma downloadChunk_index x chunk bufs res bufs' :
  downloadChunk x chunk bufs = Some (res, bufs') ->
  ChunkResult.Index res = ChunkSpec.Index chunk.
Proof.
  unfold downloadChunk. destruct (response x) as [err | body].
  - intros [= <- _]. reflexivity.
  - destruct bufs as [slots |].
    + destruct (ChunkSpec.Size chunk <? 0); [discriminate |].
      rewrite ReadFull_eq. destruct (ReadFull_outcome _ _) as [got [e |]].
      * destruct (negb (is_ErrUnexpectedEOF e)).
        -- intros [= <- _]. reflexivity.
        -- destruct (slice_set _ _ _); [| discriminate].
           intros [= <- _]. reflexivity.
      * destruct (slice_set _ _ _); [| discriminate].
        intros [= <- _]. reflexivity.
    + rewrite Copy_discard_eq. destruct (Copy_discard_outcome body) as [n [e |]];
        intros [= <- _]; reflexivity.
Qed.

(** The mode and the number of output slots never change. *)
Lemma downloadChunk_bufs x chunk bufs res bufs' (n : nat) :
  downloadChunk x chunk bufs = Some (res, bufs') ->
  capture_mode bufs' = capture_mode bufs /\
  (bufs_sized bufs n -> bufs_sized bufs' n).
Proof.
  unfold downloadChunk. destruct (response x) as [err | body].
  - intros [= _ <-]. auto.
  - destruct bufs as [slots |].
    + destruct (ChunkSpec.Size chunk <? 0); [discriminate |].
      rewrite ReadFull_eq. destruct (ReadFull_outcome _ _) as [got [e |]].
      * destruct (negb (is_ErrUnexpectedEOF e)).
        -- intros [= _ <-]. auto.
        -- destruct (slice_set _ _ _) as [slots' |] eqn:E; [| discriminate].
           intros [= _ <-]. apply slice_set_Some in E as [_ ->].
           cbn. rewrite length_update_nth. auto.
      * destruct (slice_set _ _ _) as [slots' |] eqn:E; [| discriminate].
        intros [= _ <-]. apply slice_set_Some in E as [_ ->].
        cbn. rewrite length_update_nth. auto.
    + rewrite Copy_discard_eq. destruct (Copy_discard_outcome body) as [m [e |]];
        intros [= _ <-]; auto.
Qed.

(** No panic for a chunk of non-negative size whose index has a slot. *)
Lemma downloadChunk_no_panic x chunk bufs (n : nat) :
  0 <= ChunkSpec.Size chunk ->
  0 <= ChunkSpec.Index chunk < Z.of_nat n ->
  bufs_sized bufs n ->
  exists res bufs', downloadChunk x chunk bufs = Some (res, bufs').
Proof.
  intros Hsize Hidx Hb. unfold downloadChunk.
  destruct (response x) as [err | body]; [eauto |].
  destruct bufs as [slots |].
  - cbn in Hb. subst n.
    replace (ChunkSpec.Size chunk <? 0) with false by (symmetry; apply Z.ltb_ge; lia).
    rewrite ReadFull_eq. destruct (ReadFull_outcome _ _) as [got [e |]].
    + destruct (negb (is_ErrUnexpectedEOF e)); [eauto |].
      rewrite slice_set_in_range by exact Hidx. eauto.
    + rewrite slice_set_in_range by exact Hidx. eauto.
  - rewrite Copy_discard_eq. destruct (Copy_discard_outcome body) as [m [e |]]; eauto.
Qed.

(** The result depends on the output buffers only through the mode. *)
Lemma downloadChunk_result_mode x chunk bufs1 bufs2 res1 res2 bufs1' bufs2' :
  capture_mode bufs1 = capture_mode bufs2 ->
  downloadChunk x chunk bufs1 = Some (res1, bufs1') ->
  downloadChunk x chunk bufs2 = Some (res2, bufs2') ->
  res1 = res2.
Proof.
  unfold downloadChunk. destruct (response x) as [err | body].
  - intros _ [= <- _] [= <- _]. reflexivity.
  - destruct bufs1 as [s1 |], bufs2 as [s2 |]; cbn [capture_mode];
      try discriminate; intros _.
    + destruct (ChunkSpec.Size chunk <? 0); [discriminate |].
      rewrite ReadFull_eq. destruct (ReadFull_outcome _ _) as [got [e |]].
      * destruct (negb (is_ErrUnexpectedEOF e)).
        -- intros [= <- _] [= <- _]. reflexivity.
        -- destruct (slice_set s1 _ _); [| discriminate].
           destruct (slice_set s2 _ _); [| discriminate].
           intros [= <- _] [= <- _]. reflexivity.
      * destruct (slice_set s1 _ _); [| discriminate].
        destruct (slice_set s2 _ _); [| discriminate].
        intros [= <- _] [= <- _]. reflexivity.
    + rewrite Copy_discard_eq. destruct (Copy_discard_outcome body) as [m [e |]];
        intros [= <- _] [= <- _]; reflexivity.
Qed.

Lemma outcome_of_unique world capture chunk res1 res2 :
  outcome_of world capture chunk res1 -> outcome_of world capture chunk res2 ->
  res1 = res2.
Proof.
  intros (b1 & b1' & M1 & H1) (b2 & b2' & M2 & H2).
  eapply downloadChunk_result_mode; [| exact H1 | exact H2].
  destruct capture, b1, b2; cbn; congruence.
Qed.

Lemma outcome_of_index world capture chunk res :
  outcome_of world capture chunk res ->
  ChunkResult.Index res = ChunkSpec.Index chunk.
Proof. intros (b & b' & _ & H). eapply downloadChunk_index; exact H. Qed.

(** ** The dispatcher *)

Lemma nth_error_update_nth {A : Type} (i k : nat) (old v : A) (s : list A) :
  nth_error s i = Some old ->
  nth_error (update_nth i v s) k = if Nat.eqb k i then Some v else nth_error s k.
Proof.
  intros H. destruct (Nat.eqb_spec k i) as [-> | Hne].
  - apply nth_error_update_nth_eq. apply nth_error_Some. congruence.
  - apply nth_error_update_nth_neq. congruence.
Qed.

(** Case analysis on a step of worker [i]. *)
Ltac step_inv H :=
  unfold worker_step in H;
  destruct (panicked _) eqn:?Hpan in H; [discriminate H |];
  destruct (nth_error (workers _) _) as [[| ?c | ?c ?r | ?r |] |] eqn:?Hw in H;
  try discriminate H;
  [ destruct (jobs _) as [| ?c ?q] eqn:?Hj in H
  | destruct (downloadChunk _ _ _) as [[?r ?b] |] eqn:?Hd in H
  | destruct (slice_set _ _ _) as [?t |] eqn:?Hs in H
  | destruct (ChunkResult.Err _) eqn:?He in H;
    [| destruct (ttfbSet _) eqn:?Ht in H] ];
  injection H as <-.





Lemma firstError_None table :
  firstError table = None <-> forall r, In r table -> ChunkResult.Err r = None.
Proof.
  induction table as [| a table IH]; cbn [firstError].
  - split; [intros _ r [] | reflexivity].
  - destruct (ChunkResult.Err a) as [ea |] eqn:Ea.
    + split; [discriminate |]. intros H. specialize (H a (or_introl eq_refl)).
      congruence.
    + rewrite IH. split.
      * intros H r [<- | Hin]; auto.
      * intros H r Hin. apply H. now right.
Qed.

(** *** The invariant of a dispatch over well-indexed descriptors *)

Lemma set_worker_lookup st i old w k :
  nth_error (workers st) i = Some old ->
  nth_error (set_worker st i w) k
  = if Nat.eqb k i then Some w else nth_error (workers st) k.
Proof. intros H. unfold set_worker. eapply nth_error_update_nth; exact H. Qed.

(** Looks a worker up after worker [i] has moved, in a hypothesis or in the goal. *)
Ltac lookup_in Hw Hk :=
  rewrite (set_worker_lookup _ _ _ _ _ Hw) in Hk;
  match type of Hk with
  | (if Nat.eqb ?k ?i then _ else _) = _ =>
      destruct (Nat.eqb_spec k i) as [?E | ?E]; [try subst k |]
  end.

Ltac lookup_goal Hw :=
  rewrite (set_worker_lookup _ _ _ _ _ Hw);
  match goal with
  | |- (if Nat.eqb ?k ?i then _ else _) = _ =>
      destruct (Nat.eqb_spec k i) as [?E | ?E]; [try subst k |]
  end.

Section DispatchInv.

Variables (world : World) (chunks : list ChunkSpec.t) (capture : bool).
Hypothesis chunks_wf : well_indexed chunks.

Lemma chunk_position c :
  In c chunks ->
  nth_error chunks (Z.to_nat (ChunkSpec.Index c)) = Some c /\
  0 <= ChunkSpec.Index c < Z.of_nat (length chunks) /\ 0 <= ChunkSpec.Size c.
Proof.
  intros Hin. apply In_nth_error in Hin as [p Hp].
  destruct (chunks_wf _ _ Hp) as [Hi Hs].
  assert (p < length chunks)%nat by (apply nth_error_Some; congruence).
  rewrite Hi, Nat2Z.id. repeat split; auto; lia.
Qed.

(** A worker other than the one that moved keeps what it holds. *)
Lemma other_holder st i old w (held : Worker) :
  nth_error (workers st) i = Some old -> held <> old ->
  (exists k, nth_error (workers st) k = Some held) ->
  exists k, nth_error (set_worker st i w) k = Some held.
Proof.
  intros Hw Hne [k Hk]. exists k. lookup_goal Hw; [congruence | exact Hk].
Qed.

Lemma dispatch_inv_step i st st' :
  dispatch_inv world chunks capture st ->
  worker_step world i st = Some st' ->
  dispatch_inv world chunks capture st'.
Proof.
  intros [Halive Hlen Hmode Hbufs Hjobs Hfing Hfed Hchunk Hex] H.
  step_inv H.
  - (* the queue is drained: the worker exits *)
    constructor; cbn [panicked results outBufs jobs workers].
    + reflexivity.
    + exact Hlen.
    + exact Hmode.
    + exact Hbufs.
    + intros c [].
    + intros k c Hk. lookup_in Hw Hk; [discriminate | eauto].
    + intros k c r Hk. lookup_in Hw Hk; [discriminate | eauto].
    + intros p c Hp. destruct (Hchunk p c Hp) as [H1 | [H2 | [H3 | [k [r Hk]]]]].
      * auto.
      * rewrite Hj in H2. destruct H2.
      * right; right; left. eapply other_holder; eauto. discriminate.
      * right; right; right. exists k, r. lookup_goal Hw; [congruence | exact Hk].
    + reflexivity.
  - (* the worker receives the next chunk *)
    constructor; cbn [panicked results outBufs jobs workers].
    + reflexivity.
    + exact Hlen.
    + exact Hmode.
    + exact Hbufs.
    + intros c' Hin. apply Hjobs. rewrite Hj. now right.
    + intros k c' Hk. lookup_in Hw Hk; [| eauto].
      injection Hk as <-. apply Hjobs. rewrite Hj. now left.
    + intros k c' r Hk. lookup_in Hw Hk; [discriminate | eauto].
    + intros p c' Hp. destruct (Hchunk p c' Hp) as [H1 | [H2 | [H3 | [k [r Hk]]]]].
      * auto.
      * rewrite Hj in H2. destruct H2 as [<- | H2]; [| auto].
        right; right; left. exists i.
        rewrite (set_worker_lookup _ _ _ _ _ Hw), Nat.eqb_refl. reflexivity.
      * right; right; left. eapply other_holder; eauto. discriminate.
      * right; right; right. exists k, r. lookup_goal Hw; [congruence | exact Hk].
    + intros [k Hk]. lookup_in Hw Hk; [discriminate |].
      rewrite Hex in Hj by eauto. discriminate.
  - (* the fetch returns *)
    destruct (downloadChunk_bufs _ _ _ _ _ (length chunks) Hd) as [Hm Hb].
    constructor; cbn [panicked results outBufs jobs workers].
    + reflexivity.
    + exact Hlen.
    + congruence.
    + auto.
    + exact Hjobs.
    + intros k c' Hk. lookup_in Hw Hk; [discriminate | eauto].
    + intros k c' r' Hk. lookup_in Hw Hk; [| eauto].
      injection Hk as <- <-. split; [eauto |].
      exists (outBufs st), b. split; [| exact Hd].
      destruct capture, (outBufs st); cbn in Hmode; congruence.
    + intros p c' Hp. destruct (Hchunk p c' Hp) as [H1 | [H2 | [[k Hk] | [k [r' Hk]]]]].
      * auto.
      * auto.
      * destruct (Nat.eq_dec k i) as [-> | Hne].
        -- right; right; right. exists i, r.
           rewrite (set_worker_lookup _ _ _ _ _ Hw), Nat.eqb_refl. congruence.
        -- right; right; left. exists k. lookup_goal Hw; [congruence | exact Hk].
      * right; right; right. exists k, r'. lookup_goal Hw; [congruence | exact Hk].
    + intros [k Hk]. lookup_in Hw Hk; [discriminate | eauto].
  - (* the fetch cannot panic *)
    exfalso. destruct (chunk_position c (Hfing _ _ Hw)) as (_ & Hidx & Hsz).
    destruct (downloadChunk_no_panic (world c) c (outBufs st) (length chunks)
                Hsz Hidx Hbufs) as (r & b & E).
    congruence.
  - (* the result is written into its slot *)
    apply slice_set_Some in Hs as [Hrange ->].
    destruct (Hfed _ _ _ Hw) as [Hin Hout].
    destruct (chunk_position c Hin) as (Hpos & Hidx & _).
    constructor; cbn [panicked results outBufs jobs workers].
    + reflexivity.
    + rewrite length_update_nth. exact Hlen.
    + exact Hmode.
    + exact Hbufs.
    + exact Hjobs.
    + intros k c' Hk. lookup_in Hw Hk; [discriminate | eauto].
    + intros k c' r' Hk. lookup_in Hw Hk; [discriminate | eauto].
    + assert (Hnew : forall p c', nth_error chunks p = Some c' ->
                 p = Z.to_nat (ChunkSpec.Index c) ->
                 exists r', nth_error (update_nth (Z.to_nat (ChunkSpec.Index c)) r
                                         (results st)) p = Some r' /\
                            outcome_of world capture c' r').
      { intros p c' Hp ->. exists r. split.
        - apply nth_error_update_nth_eq. lia.
        - replace c' with c by congruence. exact Hout. }
      intros p c' Hp.
      destruct (Nat.eq_dec p (Z.to_nat (ChunkSpec.Index c))) as [Heq | Hne];
        [left; eauto |].
      destruct (Hchunk p c' Hp) as [[r' [H1 H1']] | [H2 | [H3 | [k [r' Hk]]]]].
      * left. exists r'. split; [| exact H1'].
        rewrite nth_error_update_nth_neq by congruence. exact H1.
      * auto.
      * right; right; left. eapply other_holder; eauto. discriminate.
      * destruct (Nat.eq_dec k i) as [-> | Hki].
        -- exfalso. apply Hne.
           assert (c' = c) by congruence. subst c'.
           destruct (chunks_wf _ _ Hp) as [Hi _]. rewrite Hi. lia.
        -- right; right; right. exists k, r'.
           lookup_goal Hw; [congruence | exact Hk].
    + intros [k Hk]. lookup_in Hw Hk; [discriminate | eauto].
  - (* the write cannot panic *)
    exfalso. destruct (Hfed _ _ _ Hw) as [Hin _].
    destruct (chunk_position c Hin) as (_ & Hidx & _).
    rewrite slice_set_in_range in Hs by (rewrite Hlen; exact Hidx).
    discriminate.
  - (* a failed result leaves the first-byte time alone *)
    constructor; cbn [panicked results outBufs jobs workers]; auto.
    + intros k c' Hk. lookup_in Hw Hk; [discriminate | eauto].
    + intros k c' r' Hk. lookup_in Hw Hk; [discriminate | eauto].
    + intros p c' Hp. destruct (Hchunk p c' Hp) as [H1 | [H2 | [H3 | [k [r' Hk]]]]].
      * auto.
      * auto.
      * right; right; left. eapply other_holder; eauto. discriminate.
      * right; right; right. exists k, r'. lookup_goal Hw; [congruence | exact Hk].
    + intros [k Hk]. lookup_in Hw Hk; [discriminate | eauto].
  - (* the first-byte time is already set *)
    constructor; cbn [panicked results outBufs jobs workers]; auto.
    + intros k c' Hk. lookup_in Hw Hk; [discriminate | eauto].
    + intros k c' r' Hk. lookup_in Hw Hk; [discriminate | eauto].
    + intros p c' Hp. destruct (Hchunk p c' Hp) as [H1 | [H2 | [H3 | [k [r' Hk]]]]].
      * auto.
      * auto.
      * right; right; left. eapply other_holder; eauto. discriminate.
      * right; right; right. exists k, r'. lookup_goal Hw; [congruence | exact Hk].
    + intros [k Hk]. lookup_in Hw Hk; [discriminate | eauto].
  - (* the first successful writer sets the first-byte time *)
    constructor; cbn [panicked results outBufs jobs workers]; auto.
    + intros k c' Hk. lookup_in Hw Hk; [discriminate | eauto].
    + intros k c' r' Hk. lookup_in Hw Hk; [discriminate | eauto].
    + intros p c' Hp. destruct (Hchunk p c' Hp) as [H1 | [H2 | [H3 | [k [r' Hk]]]]].
      * auto.
      * auto.
      * right; right; left. eapply other_holder; eauto. discriminate.
      * right; right; right. exists k, r'. lookup_goal Hw; [congruence | exact Hk].
    + intros [k Hk]. lookup_in Hw Hk; [discriminate | eauto].
Qed.

Lemma dispatch_inv_init bufs concurrency :
  bufs_sized bufs (length chunks) -> capture = capture_mode bufs ->
  dispatch_inv world chunks capture (dispatch_init chunks bufs concurrency).
Proof.
  intros Hb ->. constructor; cbn [dispatch_init panicked results outBufs jobs workers].
  - reflexivity.
  - apply repeat_length.
  - reflexivity.
  - exact Hb.
  - auto.
  - intros k c H. apply nth_error_In, repeat_spec in H. discriminate.
  - intros k c r H. apply nth_error_In, repeat_spec in H. discriminate.
  - intros p c Hp. right; left. eapply nth_error_In; exact Hp.
  - intros [k H]. apply nth_error_In, repeat_spec in H. discriminate.
Qed.

Lemma dispatch_inv_reachable st0 st :
  dispatch_inv world chunks capture st0 -> reachable world st0 st ->
  dispatch_inv world chunks capture st.
Proof.
  intros H0. induction 1 as [| st st' _ IH [i Hstep]]; [exact H0 |].
  eapply dispatch_inv_step; eassumption.
Qed.

(** Once the workers have joined, every descriptor has its outcome in its
    slot of the table. *)
Lemma joined_table st :
  dispatch_inv world chunks capture st -> joined st ->
  workers st <> [] \/ chunks = [] ->
  forall p c, nth_error chunks p = Some c ->
    exists r, nth_error (results st) p = Some r /\ outcome_of world capture c r.
Proof.
  intros Hinv [_ Hall] Hw p c Hp.
  assert (Hexited : forall k w, nth_error (workers st) k = Some w -> w = Exited).
  { intros k w Hk. rewrite Forall_forall in Hall. apply Hall.
    eapply nth_error_In; exact Hk. }
  destruct (inv_chunk _ _ _ _ Hinv p c Hp) as [H1 | [H2 | [[k Hk] | [k [r Hk]]]]].
  - exact H1.
  - exfalso. destruct Hw as [Hw | ->]; [| destruct p; discriminate].
    assert (jobs st = []) as Hj.
    { apply (inv_exited _ _ _ _ Hinv). exists 0%nat.
      destruct (nth_error (workers st) 0) as [w |] eqn:E0.
      - f_equal. eapply Hexited; exact E0.
      - apply nth_error_None in E0.
        destruct (workers st); [congruence | cbn in E0; lia]. }
    rewrite Hj in H2. destruct H2.
  - apply Hexited in Hk. discriminate.
  - apply Hexited in Hk. discriminate.
Qed.

End DispatchInv.

(** *** The dispatch always returns *)

Lemma reachable_trans world st0 st1 st2 :
  reachable world st0 st1 -> reachable world st1 st2 -> reachable world st0 st2.
Proof.
  intros H01. induction 1 as [| st st' _ IH Hstep]; [exact H01 |].
  eapply reach_step; eassumption.
Qed.

Lemma weight_update (i : nat) (old w : Worker) (ws : list Worker) :
  nth_error ws i = Some old ->
  (fold_right (fun w acc => worker_weight w + acc) 0 (update_nth i w ws)
   + worker_weight old
   = fold_right (fun w acc => worker_weight w + acc) 0 ws + worker_weight w)%nat.
Proof.
  revert i. induction ws as [| a ws IH]; intros [| i] H; cbn in *; try discriminate.
  - injection H as ->. lia.
  - specialize (IH i H). lia.
Qed.

(** Every step brings the dispatch closer to its end. *)
Lemma worker_step_measure world i st st' :
  worker_step world i st = Some st' ->
  (dispatch_measure st' < dispatch_measure st)%nat.
Proof.
  intros H. step_inv H; unfold dispatch_measure, panic, set_worker;
    cbn [panicked jobs workers]; rewrite ?Hpan, ?Hj; cbn [length];
    try (pose proof (weight_update i _ Exited _ Hw));
    try (pose proof (weight_update i _ (Fetching c) _ Hw));
    try (pose proof (weight_update i _ (Fetched c r) _ Hw));
    try (pose proof (weight_update i _ (Recorded r) _ Hw));
    try (pose proof (weight_update i _ Idle _ Hw));
    cbn [worker_weight] in *; lia.
Qed.

(** A worker that has not exited can always move. *)
Lemma worker_step_enabled world i st w :
  panicked st = false -> nth_error (workers st) i = Some w -> w <> Exited ->
  exists st', worker_step world i st = Some st'.
Proof.
  intros Hp Hw Hne. unfold worker_step. rewrite Hp, Hw.
  destruct w as [| c | c r | r |]; [| | | | congruence].
  - destruct (jobs st); eauto.
  - destruct (downloadChunk _ _ _) as [[? ?] |]; eauto.
  - destruct (slice_set _ _ _); eauto.
  - destruct (ChunkResult.Err r); [| destruct (ttfbSet st)]; eauto.
Qed.

Lemma joinedb_true st : joinedb st = true <-> joined st.
Proof.
  unfold joinedb, joined. rewrite andb_true_iff, negb_true_iff, forallb_forall,
    Forall_forall.
  split; intros [Hp H]; split; auto; intros w Hin; specialize (H w Hin).
  - destruct w; congruence.
  - subst w. reflexivity.
Qed.

Lemma not_joined_worker st :
  panicked st = false -> joinedb st = false ->
  exists i w, nth_error (workers st) i = Some w /\ w <> Exited.
Proof.
  unfold joinedb. intros -> H. cbn in H.
  induction (workers st) as [| a ws IH]; [discriminate |].
  cbn in H. destruct a; try (exists 0%nat; eexists; split;
                             [reflexivity | discriminate]).
  destruct (IH H) as (i & w & Hi & Hw). exists (S i), w. auto.
Qed.

Lemma workers_length_step world i st st' :
  worker_step world i st = Some st' -> length (workers st') = length (workers st).
Proof.
  intros H. step_inv H; cbn [workers panic]; unfold set_worker;
    rewrite ?length_update_nth; reflexivity.
Qed.

Lemma workers_length_reachable world st0 st :
  reachable world st0 st -> length (workers st) = length (workers st0).
Proof.
  induction 1 as [| st st' _ IH [i Hstep]]; [reflexivity |].
  rewrite <- IH. eapply workers_length_step; exact Hstep.
Qed.

(** From any state that satisfies the invariant the workers reach the join. *)
Lemma dispatch_joins world chunks capture :
  well_indexed chunks ->
  forall (n : nat) st,
    (dispatch_measure st <= n)%nat -> dispatch_inv world chunks capture st ->
    exists st', reachable world st st' /\ joined st'.
Proof.
  intros Hwf. induction n as [| n IH]; intros st Hn Hinv.
  - unfold dispatch_measure in Hn. rewrite (inv_alive _ _ _ _ Hinv) in Hn. lia.
  - destruct (joinedb st) eqn:Ej.
    + exists st. split; [constructor | apply joinedb_true; exact Ej].
    + destruct (not_joined_worker st (inv_alive _ _ _ _ Hinv) Ej)
        as (i & w & Hi & Hw).
      destruct (worker_step_enabled world i st w (inv_alive _ _ _ _ Hinv) Hi Hw)
        as [st1 Hstep].
      pose proof (worker_step_measure _ _ _ _ Hstep) as Hlt.
      destruct (IH st1 ltac:(lia)
                  (dispatch_inv_step world chunks capture Hwf _ _ _ Hinv Hstep))
        as (st' & Hreach & Hj).
      exists st'. split; [| exact Hj].
      eapply reachable_trans; [| exact Hreach].
      eapply reach_step; [constructor | exists i; exact Hstep].
Qed.

(** The closed-form plan is well indexed. *)
Lemma plan_prefix_well_indexed (objectSize chunkSize : Z) (n : nat) :
  0 <= objectSize -> 0 < chunkSize ->
  Z.of_nat n <= chunkCount objectSize chunkSize ->
  well_indexed (plan_prefix objectSize chunkSize n).
Proof.
  intros HS Hc Hn i c. rewrite plan_prefix_nth.
  destruct (Nat.ltb_spec i n) as [Hi |]; [| discriminate].
  intros [= <-]. cbn [chunk_at ChunkSpec.Index ChunkSpec.Size].
  pose proof (below_count objectSize chunkSize HS Hc (Z.of_nat i) ltac:(lia)).
  split; lia.
Qed.

Lemma run_reachable world schedule st : reachable world st (run world schedule st).
Proof.
  assert (G : forall st', reachable world st st' ->
                          reachable world st (run world schedule st')).
  { induction schedule as [| i rest IH]; intros st' H; cbn [run]; [exact H |].
    destruct (worker_step world i st') as [st'' |] eqn:E; [| apply IH; exact H].
    apply IH. eapply reach_step; [exact H | exists i; exact E]. }
  apply G. constructor.
Qed.

(** What [downloadObject] computes under a schedule is a return of the
    dispatch. *)
Lemma downloadObject_sound world chunks bufs concurrency totalTime schedule out bufs' :
  downloadObject world chunks bufs concurrency totalTime schedule = Some (out, bufs') ->
  downloadObject_returns world chunks bufs concurrency totalTime out bufs'.
Proof.
  unfold downloadObject.
  destruct (joinedb _) eqn:E; [| discriminate]. intros [= <- <-].
  eexists. split; [apply run_reachable |].
  split; [apply joinedb_true; exact E | auto].
Qed.

Lemma NoDup_by_position {A : Type} (f : A -> Z) (l : list A) :
  (forall i a, nth_error l i = Some a -> f a = Z.of_nat i) -> NoDup (map f l).
Proof.
  intros H. apply NoDup_nth_error. intros i j Hi E.
  rewrite length_map in Hi. rewrite !nth_error_map in E.
  destruct (nth_error l i) as [a |] eqn:Ea;
    [| apply nth_error_None in Ea; lia].
  destruct (nth_error l j) as [b |] eqn:Eb; [| discriminate].
  cbn in E. injection E as E.
  apply H in Ea. apply H in Eb. lia.
Qed.

Lemma workerCount_min (concurrency : Z) (chunks : list ChunkSpec.t) :
  workerCount concurrency chunks = Z.min concurrency (Z.of_nat (length chunks)).
Proof.
  unfold workerCount.
  destruct (Z.gtb_spec concurrency (Z.of_nat (length chunks))); lia.
Qed.

(** C5: for every dispatch of [N] well-indexed descriptors with
    [concurrency >= 1] (and one output slot per descriptor in capture mode):
    the worker count is [min (concurrency, N)] and stays so; the dispatch
    returns; when [N = 0] no worker is started, the workers have joined from
    the start, and the dispatch returns the empty success; and after
    a successful dispatch the result table has exactly [N] entries, each
    outcome's index is equal to its table position (so indices are unique),
    and the entry at position [i] is the outcome of the [i]-th descriptor. *)
Theorem dispatch_result_integrity
    (world : World) (chunks : list ChunkSpec.t) (bufs : OutBufs)
    (concurrency totalTime : Z) :
  1 <= concurrency -> well_indexed chunks -> bufs_sized bufs (length chunks) ->
  Z.of_nat (length (workers (dispatch_init chunks bufs concurrency)))
  = Z.min concurrency (Z.of_nat (length chunks)) /\
  (forall st, reachable world (dispatch_init chunks bufs concurrency) st ->
              Z.of_nat (length (workers st))
              = Z.min concurrency (Z.of_nat (length chunks))) /\
  (exists out bufs',
     downloadObject_returns world chunks bufs concurrency totalTime out bufs') /\
  (chunks = [] ->
   joined (dispatch_init chunks bufs concurrency) /\
   (forall st, reachable world (dispatch_init chunks bufs concurrency) st ->
               st = dispatch_init chunks bufs concurrency) /\
   (forall out bufs',
      downloadObject_returns world chunks bufs concurrency totalTime out bufs' ->
      out = (DownloadResult.mk [] totalTime 0, None) /\ bufs' = bufs)) /\
  (forall res bufs',
     downloadObject_returns world chunks bufs concurrency totalTime (res, None) bufs' ->
     length (DownloadResult.Chunks res) = length chunks /\
     (forall i r, nth_error (DownloadResult.Chunks res) i = Some r ->
                  ChunkResult.Index r = Z.of_nat i) /\
     NoDup (map ChunkResult.Index (DownloadResult.Chunks res)) /\
     (forall i c, nth_error chunks i = Some c ->
        exists r, nth_error (DownloadResult.Chunks res) i = Some r /\
                  outcome_of world (capture_mode bufs) c r)).
Proof.
  intros Hconc Hwf Hbufs.
  set (st0 := dispatch_init chunks bufs concurrency).
  assert (Hcount : Z.of_nat (length (workers st0))
                   = Z.min concurrency (Z.of_nat (length chunks))).
  { subst st0. cbn [dispatch_init workers]. rewrite repeat_length, workerCount_min. lia. }
  assert (Hinv0 : dispatch_inv world chunks (capture_mode bufs) st0)
    by (apply dispatch_inv_init; auto).
  assert (Hstay : forall st, reachable world st0 st ->
                    Z.of_nat (length (workers st))
                    = Z.min concurrency (Z.of_nat (length chunks))).
  { intros st H. rewrite (workers_length_reachable _ _ _ H). exact Hcount. }
  assert (Hnone : chunks = [] -> workers st0 = []).
  { intros ->. cbn [length] in Hcount.
    destruct (workers st0); [reflexivity | cbn [length] in Hcount; lia]. }
  assert (Hempty : chunks = [] -> forall st, reachable world st0 st -> st = st0).
  { intros Hnil. induction 1 as [| st st' _ IH [i Hstep]]; [reflexivity |].
    subst st. exfalso. unfold worker_step in Hstep.
    rewrite (Hnone Hnil) in Hstep.
    destruct (panicked st0); [discriminate |].
    destruct i; discriminate. }
  split; [exact Hcount |]. split; [exact Hstay |]. split; [| split].
  - destruct (dispatch_joins world chunks (capture_mode bufs) Hwf
                (dispatch_measure st0) st0 (le_n _) Hinv0) as (st & Hreach & Hj).
    exists (dispatch_finish st totalTime), (outBufs st), st. auto.
  - intros Hnil. split; [| split].
    + split; [reflexivity |]. rewrite (Hnone Hnil). constructor.
    + exact (Hempty Hnil).
    + intros out bufs' (st & Hreach & Hj & -> & ->).
      rewrite (Hempty Hnil st Hreach). subst st0 chunks. split; reflexivity.
  - intros res bufs' (st & Hreach & Hj & Hout & _).
    pose proof (dispatch_inv_reachable world chunks _ Hwf _ _ Hinv0 Hreach) as Hinv.
    unfold dispatch_finish in Hout.
    destruct (firstError (results st)) eqn:Efirst; [discriminate |].
    injection Hout as ->. cbn [DownloadResult.Chunks].
    assert (Htab : forall i c, nth_error chunks i = Some c ->
              exists r, nth_error (results st) i = Some r /\
                        outcome_of world (capture_mode bufs) c r).
    { apply joined_table; auto.
      destruct chunks as [| c0 chunks']; [now right | left].
      specialize (Hstay st Hreach). cbn [length] in Hstay.
      destruct (workers st); [cbn in Hstay; lia | discriminate]. }
    assert (Hpos : forall i r, nth_error (results st) i = Some r ->
                               ChunkResult.Index r = Z.of_nat i).
    { intros i r Hr.
      assert (Hi : (i < length chunks)%nat).
      { rewrite <- (inv_table_len _ _ _ _ Hinv). apply nth_error_Some. congruence. }
      destruct (nth_error chunks i) as [c |] eqn:Ec;
        [| apply nth_error_None in Ec; lia].
      destruct (Htab i c Ec) as (r' & Hr' & Hout).
      replace r' with r in Hout by congruence.
      rewrite (outcome_of_index _ _ _ _ Hout).
      apply (Hwf i c Ec). }
    split; [apply (inv_table_len _ _ _ _ Hinv) |].
    split; [exact Hpos |].
    split; [apply NoDup_by_position; exact Hpos | exact Htab].
Qed.

Lemma dispatch_result_integrity_witness :
  Z.of_nat (length (workers (dispatch_init sampleChunks None 2)))
  = Z.min 2 (Z.of_nat (length sampleChunks)) /\
  (exists out bufs', downloadObject_returns sampleWorld sampleChunks None 2 77 out bufs') /\
  (forall res bufs',
     downloadObject_returns sampleWorld sampleChunks None 2 77 (res, None) bufs' ->
     length (DownloadResult.Chunks res) = length sampleChunks /\
     (forall i r, nth_error (DownloadResult.Chunks res) i = Some r ->
                  ChunkResult.Index r = Z.of_nat i)).
Proof.
  assert (Hwf : well_indexed sampleChunks).
  { apply (plan_prefix_well_indexed 10 3 4); cbn; lia. }
  pose proof (dispatch_result_integrity sampleWorld sampleChunks None 2 77
                ltac:(lia) Hwf I) as (H1 & _ & H3 & _ & H5).
  split; [exact H1 |]. split; [exact H3 |].
  intros res bufs' H. destruct (H5 res bufs' H) as (L & P & _). auto.
Defined.

(** *** Fail-fast *)

(** Whatever the interleaving, the joined table of a well-formed dispatch
    holds at position [i] the outcome of the [i]-th descriptor. *)
Lemma joined_table_reachable world chunks bufs concurrency st :
  1 <= concurrency -> well_indexed chunks -> bufs_sized bufs (length chunks) ->
  reachable world (dispatch_init chunks bufs concurrency) st -> joined st ->
  length (results st) = length chunks /\
  forall i c, nth_error chunks i = Some c ->
    exists r, nth_error (results st) i = Some r /\
              outcome_of world (capture_mode bufs) c r.
Proof.
  intros Hconc Hwf Hbufs Hreach Hj.
  assert (Hinv : dispatch_inv world chunks (capture_mode bufs) st).
  { eapply dispatch_inv_reachable; [exact Hwf | | exact Hreach].
    apply dispatch_inv_init; auto. }
  split; [apply (inv_table_len _ _ _ _ Hinv) |].
  apply joined_table; auto.
  destruct chunks as [| c0 chunks']; [now right | left].
  pose proof (workers_length_reachable _ _ _ Hreach) as Hlen.
  cbn [dispatch_init workers] in Hlen.
  rewrite repeat_length, workerCount_min in Hlen. cbn [length] in Hlen.
  destruct (workers st); [cbn in Hlen; lia | discriminate].
Qed.





(** ** Binary64 arithmetic *)

(** *** Order *)

Lemma SFcompare_key (x y : spec_float) :
  SFcompare x y
  = match sf_key x, sf_key y with
    | Some a, Some b => Some (key_compare a b)
    | _, _ => None
    end.
Proof.
  destruct x as [[|] | [|] | | [|] mx ex], y as [[|] | [|] | | [|] my ey];
    try reflexivity; cbn.
  - rewrite Z.compare_opp, (Z.compare_antisym ex ey).
    destruct (ex ?= ey); reflexivity.
Qed.

Lemma key_compare_refl (a : Key) : key_compare a a = Eq.
Proof. destruct a as [[a1 a2] a3]. cbn. now rewrite !Z.compare_refl. Qed.

Lemma key_compare_spec (a b : Key) :
  CompareSpec (a = b) (key_lt a b) (key_lt b a) (key_compare a b).
Proof.
  destruct a as [[a1 a2] a3], b as [[b1 b2] b3]. unfold key_compare, key_lt.
  destruct (Z.compare_spec a1 b1); [| constructor; lia ..].
  destruct (Z.compare_spec a2 b2); [| constructor; lia ..].
  destruct (Z.compare_spec a3 b3); constructor; [congruence | lia ..].
Qed.

Lemma key_lt_irrefl (a : Key) : ~ key_lt a a.
Proof. destruct a as [[a1 a2] a3]. unfold key_lt. lia. Qed.

Lemma key_ltb_true (a b : Key) : key_ltb a b = true <-> key_lt a b.
Proof.
  unfold key_ltb. destruct (key_compare_spec a b) as [-> | H | H]; split;
    try discriminate; auto.
  - intros H. now apply key_lt_irrefl in H.
  - intros H'. destruct a as [[a1 a2] a3], b as [[b1 b2] b3].
    unfold key_lt in *. lia.
Qed.

Lemma key_ltb_false (a b : Key) : key_ltb a b = false <-> (a = b \/ key_lt b a).
Proof.
  unfold key_ltb. destruct (key_compare_spec a b) as [-> | H | H]; split;
    try discriminate; auto.
  intros [-> | H']; [now apply key_lt_irrefl in H |].
  destruct a as [[a1 a2] a3], b as [[b1 b2] b3]. unfold key_lt in *. lia.
Qed.

Lemma key_leb_true (a b : Key) : key_leb a b = true <-> (a = b \/ key_lt a b).
Proof.
  unfold key_leb. destruct (key_compare_spec a b) as [-> | H | H]; split;
    try discriminate; auto.
  intros [-> | H']; [now apply key_lt_irrefl in H |].
  destruct a as [[a1 a2] a3], b as [[b1 b2] b3]. unfold key_lt in *. lia.
Qed.

Lemma key_leb_false (a b : Key) : key_leb a b = false <-> key_lt b a.
Proof.
  unfold key_leb. destruct (key_compare_spec a b) as [-> | H | H]; split;
    try discriminate; auto.
  - intros H. now apply key_lt_irrefl in H.
  - intros H'. destruct a as [[a1 a2] a3], b as [[b1 b2] b3].
    unfold key_lt in *. lia.
Qed.

Lemma key_eqb_true (a b : Key) : key_eqb a b = true <-> a = b.
Proof.
  unfold key_eqb. destruct (key_compare_spec a b) as [-> | H | H]; split;
    try discriminate; auto; intros ->; now apply key_lt_irrefl in H.
Qed.

Lemma key_eqb_false (a b : Key) : key_eqb a b = false <-> (key_lt a b \/ key_lt b a).
Proof.
  unfold key_eqb. destruct (key_compare_spec a b) as [-> | H | H]; split;
    try discriminate; auto.
  intros [H | H]; now apply key_lt_irrefl in H.
Qed.

(** The three comparisons, read on keys. *)
Lemma ltb_fkey (x y : float) :
  (x <? y)%float
  = match fkey x, fkey y with
    | Some a, Some b => key_ltb a b
    | _, _ => false
    end.
Proof.
  rewrite ltb_spec. unfold SFltb, fkey. rewrite SFcompare_key.
  destruct (sf_key (Prim2SF x)), (sf_key (Prim2SF y)); reflexivity.
Qed.

Lemma leb_fkey (x y : float) :
  (x <=? y)%float
  = match fkey x, fkey y with
    | Some a, Some b => key_leb a b
    | _, _ => false
    end.
Proof.
  rewrite leb_spec. unfold SFleb, fkey, key_leb. rewrite SFcompare_key.
  destruct (sf_key (Prim2SF x)) as [a |], (sf_key (Prim2SF y)) as [b |];
    try reflexivity; destruct (key_compare a b); reflexivity.
Qed.

Lemma eqb_fkey (x y : float) :
  (x =? y)%float
  = match fkey x, fkey y with
    | Some a, Some b => key_eqb a b
    | _, _ => false
    end.
Proof.
  rewrite eqb_spec. unfold SFeqb, fkey. rewrite SFcompare_key.
  destruct (sf_key (Prim2SF x)), (sf_key (Prim2SF y)); reflexivity.
Qed.

Lemma is_nan_fkey (x : float) :
  is_nan x = match fkey x with Some _ => false | None => true end.
Proof.
  unfold is_nan. rewrite eqb_fkey. destruct (fkey x) as [a |]; [| reflexivity].
  replace (key_eqb a a) with true; [reflexivity |].
  symmetry. now apply key_eqb_true.
Qed.

(** Turns every comparison of floats in sight into a statement on keys, and
    these into linear arithmetic. *)
Ltac float_keys :=
  rewrite ?ltb_fkey, ?leb_fkey, ?eqb_fkey, ?is_nan_fkey in *;
  repeat match goal with
         | H : context [fkey ?x] |- _ =>
             let k := fresh "k" in
             remember (fkey x) as k eqn:E; clear E; destruct k as [[[? ?] ?] |]
         | |- context [fkey ?x] =>
             let k := fresh "k" in
             remember (fkey x) as k eqn:E; clear E; destruct k as [[[? ?] ?] |]
         end;
  try discriminate; try reflexivity;
  repeat match goal with
         | H : key_ltb _ _ = true |- _ => apply key_ltb_true in H
         | H : key_ltb _ _ = false |- _ => apply key_ltb_false in H
         | H : key_leb _ _ = true |- _ => apply key_leb_true in H
         | H : key_leb _ _ = false |- _ => apply key_leb_false in H
         | H : key_eqb _ _ = true |- _ => apply key_eqb_true in H
         | H : key_eqb _ _ = false |- _ => apply key_eqb_false in H
         | |- key_ltb _ _ = true => apply key_ltb_true
         | |- key_ltb _ _ = false => apply key_ltb_false
         | |- key_leb _ _ = true => apply key_leb_true
         | |- key_leb _ _ = false => apply key_leb_false
         | |- key_eqb _ _ = true => apply key_eqb_true
         | |- key_eqb _ _ = false => apply key_eqb_false
         end;
  unfold key_lt in *;
  repeat match goal with
         | H : (_, _, _) = (_, _, _) \/ _ |- _ => destruct H as [H | H]
         | H : (_, _, _) = (_, _, _) |- _ => injection H as ? ? ?
         end;
  try solve [lia | left; f_equal; lia | left; repeat f_equal; lia | right; lia].

Lemma ltb_trans (x y z : float) :
  (x <? y)%float = true -> (y <? z)%float = true -> (x <? z)%float = true.
Proof. intros H1 H2. float_keys. Qed.

Lemma ltb_irrefl (x : float) : (x <? x)%float = false.
Proof. float_keys. Qed.

Lemma ltb_false_leb (x y : float) :
  is_nan x = false -> is_nan y = false ->
  (x <? y)%float = false -> (y <=? x)%float = true.
Proof. intros Hx Hy H. float_keys. Qed.

Lemma leb_ltb_trans (x y z : float) :
  (x <=? y)%float = true -> (y <? z)%float = true -> (x <? z)%float = true.
Proof. intros H1 H2. float_keys. Qed.

Lemma ltb_leb_trans (x y z : float) :
  (x <? y)%float = true -> (y <=? z)%float = true -> (x <? z)%float = true.
Proof. intros H1 H2. float_keys. Qed.

Lemma leb_trans (x y z : float) :
  (x <=? y)%float = true -> (y <=? z)%float = true -> (x <=? z)%float = true.
Proof. intros H1 H2. float_keys. Qed.

Lemma leb_not_nan (x y : float) :
  (x <=? y)%float = true -> is_nan x = false /\ is_nan y = false.
Proof. intros H. split; float_keys. Qed.

Lemma ltb_leb (x y : float) : (x <? y)%float = true -> (x <=? y)%float = true.
Proof. intros H. float_keys. Qed.

Lemma ltb_asym (x y : float) : (x <? y)%float = true -> (y <? x)%float = false.
Proof. intros H. float_keys. Qed.

Lemma leb_ltb_false (x y : float) :
  (x <=? y)%float = true -> (y <? x)%float = false.
Proof. intros H. float_keys. Qed.

(** *** Exact operations *)

(** Validity of a finite binary64 value, in arithmetic terms. *)
Lemma bounded_spec (m : positive) (e : Z) :
  bounded prec emax m e = true <->
  Z.max (Z.pos (digits2_pos m) + e - 53) (- 1074) = e /\ e <= 971.
Proof.
  unfold bounded, canonical_mantissa, fexp, SpecFloat.emin, prec, emax.
  rewrite andb_true_iff, Z.eqb_eq, Z.leb_le. reflexivity.
Qed.

(** Rounding a value that is already in the format leaves it alone. *)
Lemma round_canonical (s : bool) (m : positive) (e : Z) :
  bounded prec emax m e = true ->
  binary_round_aux prec emax s (Z.pos m) e loc_Exact = S754_finite s m e.
Proof.
  intros Hb. apply bounded_spec in Hb as [Hc He].
  unfold binary_round_aux, shr_fexp.
  cbn [Zdigits2 shr_record_of_loc].
  assert (Hf : fexp prec emax (Z.pos (digits2_pos m) + e) - e = 0).
  { unfold fexp, SpecFloat.emin, prec, emax. lia. }
  rewrite Hf. cbn [shr shr_m loc_of_shr_record round_nearest_even].
  cbn [Zdigits2 shr_record_of_loc]. rewrite Hf. cbn [shr shr_m].
  replace (e <=? emax - prec) with true; [reflexivity |].
  symmetry. apply Z.leb_le. unfold emax, prec. lia.
Qed.

(** The same for twice the mantissa and one exponent less, when the
    mantissa has all its 53 digits. *)
Lemma round_canonical_double (s : bool) (m : positive) (e : Z) :
  bounded prec emax m e = true ->
  Z.pos (digits2_pos m) = 53 -> - 1074 < e ->
  binary_round_aux prec emax s (Z.pos m~0) (e - 1) loc_Exact = S754_finite s m e.
Proof.
  intros Hb Hd Hmin. pose proof Hb as Hb'. apply bounded_spec in Hb' as [Hc He].
  unfold binary_round_aux, shr_fexp.
  cbn [Zdigits2 shr_record_of_loc digits2_pos].
  rewrite Pos2Z.inj_succ, Hd.
  assert (Hf : fexp prec emax (Z.succ 53 + (e - 1)) - (e - 1) = 1).
  { unfold fexp, SpecFloat.emin, prec, emax. lia. }
  rewrite Hf. cbn [shr iter_pos shr_1 shr_m shr_r shr_s orb loc_of_shr_record
                     round_nearest_even].
  replace (e - 1 + 1) with e by ring.
  cbn [Zdigits2 shr_record_of_loc].
  assert (Hf' : fexp prec emax (Z.pos (digits2_pos m) + e) - e = 0).
  { unfold fexp, SpecFloat.emin, prec, emax. lia. }
  rewrite Hf'. cbn [shr shr_m].
  replace (e <=? emax - prec) with true; [reflexivity |].
  symmetry. apply Z.leb_le. unfold emax, prec. lia.
Qed.

Lemma div_eucl_exact (a b : Z) : 0 < b -> Z.div_eucl (a * b) b = (a, 0).
Proof.
  intros Hb. pose proof (Z.div_mul a b ltac:(lia)) as Hq.
  pose proof (Z.mod_mul a b ltac:(lia)) as Hr.
  unfold Z.div, Z.modulo in Hq, Hr.
  destruct (Z.div_eucl (a * b) b) as [q r]. cbn in Hq, Hr. congruence.
Qed.

(** Dividing a valid finite value by 1.0 is exact. *)
Lemma SFdiv_one_finite (s : bool) (m : positive) (e : Z) :
  bounded prec emax m e = true ->
  SF64div (S754_finite s m e) (S754_finite false 4503599627370496 (-52))
  = S754_finite s m e.
Proof.
  intros Hb. pose proof Hb as Hb'. apply bounded_spec in Hb' as [Hc He].
  unfold SF64div, SFdiv, SFdiv_core_binary.
  rewrite xorb_false_r.
  change (Zdigits2 4503599627370496) with 53.
  cbn [Zdigits2].
  set (d := Z.pos (digits2_pos m)) in *.
  assert (Hd : 0 < d) by (subst d; lia).
  destruct (Z_lt_le_dec (- 1074) e) as [Hnorm | Hsub].
  - (* a normal value: the quotient has one digit too many *)
    assert (d = 53) by lia.
    replace (Z.min (fexp prec emax (d + e - (53 + -52))) (e - -52)) with (e - 1)
      by (unfold fexp, SpecFloat.emin, prec, emax; lia).
    replace (e - -52 - (e - 1)) with 53 by ring.
    rewrite Z.shiftl_mul_pow2 by lia.
    replace (Z.pos m * 2 ^ 53) with (Z.pos m~0 * 4503599627370496) by lia.
    rewrite div_eucl_exact by lia.
    apply round_canonical_double; auto.
  - (* the smallest exponent: the quotient is the mantissa itself *)
    assert (e = - 1074) by lia. subst e.
    replace (Z.min (fexp prec emax (d + -1074 - (53 + -52))) (-1074 - -52))
      with (- 1074) by (unfold fexp, SpecFloat.emin, prec, emax; lia).
    change (-1074 - -52 - -1074) with 52.
    rewrite Z.shiftl_mul_pow2 by lia.
    change (2 ^ 52) with 4503599627370496.
    rewrite div_eucl_exact by lia.
    apply round_canonical. exact Hb.
Qed.

Lemma Prim2SF_one : Prim2SF 1 = S754_finite false 4503599627370496 (-52).
Proof. reflexivity. Qed.

(** [x / 1] is [x], for every binary64 value. *)
Lemma div_one (x : float) : (x / 1)%float = x.
Proof.
  apply Prim2SF_inj. rewrite div_spec, Prim2SF_one.
  pose proof (Prim2SF_valid x) as Hv.
  destruct (Prim2SF x) as [s | s | | s m e].
  - cbn. now rewrite xorb_false_r.
  - cbn. now rewrite xorb_false_r.
  - reflexivity.
  - apply SFdiv_one_finite. exact Hv.
Qed.

(** [0 + x] is [x], except that it turns [-0] into [+0]. *)
Lemma add_zero_l (x : float) :
  Prim2SF (0 + x)%float
  = match Prim2SF x with
    | S754_zero _ => S754_zero false
    | y => y
    end.
Proof.
  rewrite add_spec. change (Prim2SF 0) with (S754_zero false).
  destruct (Prim2SF x) as [[|] | s | | s m e]; reflexivity.
Qed.

(** ** The report and the aggregate *)

Lemma best_inv_step seen acc sw :
  best_inv seen acc -> best_inv (seen ++ [sw]) (bestSweep_step acc sw).
Proof.
  destruct acc as [[bm idx] i]. unfold best_inv, bestSweep_step. fold (meanOf sw).
  intros (Hi & Hpos & Hmax & Hcase).
  destruct (bm <? meanOf sw)%float eqn:E.
  - assert (H0 : (0 <? meanOf sw)%float = true)
      by (eapply leb_ltb_trans; eassumption).
    split; [rewrite length_app; cbn; lia |].
    split; [apply ltb_leb; exact H0 |].
    split.
    + intros sw' [Hin | [<- | []]]%in_app_or; [| apply ltb_irrefl].
      destruct (meanOf sw <? meanOf sw')%float eqn:E'; [| reflexivity].
      rewrite <- (Hmax sw' Hin). symmetry. eapply ltb_trans; eassumption.
    + right. exists sw. subst i.
      split; [rewrite nth_error_app2, Nat.sub_diag by lia; reflexivity |].
      split; [reflexivity |]. split; [exact H0 |].
      intros j sw' Hj Hnth. rewrite nth_error_app1 in Hnth by exact Hj.
      apply nth_error_In in Hnth.
      destruct (meanOf sw <=? meanOf sw')%float eqn:E'; [| reflexivity].
      rewrite <- (Hmax sw' Hnth). symmetry. eapply ltb_leb_trans; eassumption.
  - split; [rewrite length_app; cbn; lia |].
    split; [exact Hpos |].
    split.
    + intros sw' [Hin | [<- | []]]%in_app_or; [apply Hmax; exact Hin | exact E].
    + destruct Hcase as [(-> & -> & Hnone) | (b & Hb & Hm & Hgt & Hbefore)].
      * left. split; [reflexivity |]. split; [reflexivity |].
        intros sw' [Hin | [<- | []]]%in_app_or; [apply Hnone; exact Hin | exact E].
      * right. exists b.
        assert (Hlt : (idx < length seen)%nat)
          by (apply nth_error_Some; congruence).
        split; [rewrite nth_error_app1 by exact Hlt; exact Hb |].
        split; [exact Hm |]. split; [exact Hgt |].
        intros j sw' Hj Hnth. rewrite nth_error_app1 in Hnth by lia.
        eapply Hbefore; eassumption.
Qed.

Lemma best_inv_fold rest : forall seen acc,
  best_inv seen acc -> best_inv (seen ++ rest) (fold_left bestSweep_step rest acc).
Proof.
  induction rest as [| sw rest IH]; intros seen acc H; cbn [fold_left].
  - rewrite app_nil_r. exact H.
  - replace (seen ++ sw :: rest) with ((seen ++ [sw]) ++ rest)
      by (rewrite <- app_assoc; reflexivity).
    apply IH, best_inv_step, H.
Qed.

(** X1: the scan of [printComparisonReport] for the best sweep. No sweep has
    a mean throughput above [bestMean]. Either no sweep has a mean above
    [0.0] (all are zero, negative or NaN, or there is no sweep), and the scan
    keeps its initial [bestMean = 0.0] and [bestIdx = 0]; or [bestIdx] is the
    position of a sweep whose mean is [bestMean], that mean is positive, and
    no earlier sweep has a mean as large: ties go to the first. *)
Theorem bestSweep_first_maximum (sweeps : list ConcurrencySweep.t) :
  let bestMean := fst (bestSweep sweeps) in
  let idx := bestIdx sweeps in
  (forall sw, In sw sweeps -> (bestMean <? meanOf sw)%float = false) /\
  ((bestMean = 0%float /\ idx = 0%nat /\
    forall sw, In sw sweeps -> (0 <? meanOf sw)%float = false)
   \/
   (exists sw, nth_error sweeps idx = Some sw /\ meanOf sw = bestMean /\
      (0 <? bestMean)%float = true /\
      forall j sw', (j < idx)%nat -> nth_error sweeps j = Some sw' ->
                    (bestMean <=? meanOf sw')%float = false)).
Proof.
  intros bestMean idx. subst bestMean idx. unfold bestIdx, bestSweep.
  assert (H0 : best_inv [] (0%float, 0%nat, 0%nat)).
  { cbn. split; [reflexivity |]. split; [reflexivity |].
    split; [intros ? [] |]. left. split; [reflexivity |]. split; [reflexivity |].
    intros ? []. }
  pose proof (best_inv_fold sweeps [] _ H0) as H. cbn [app] in H.
  destruct (fold_left bestSweep_step sweeps (0%float, 0%nat, 0%nat)) as [[bm idx] i].
  cbn [fst snd]. destruct H as (_ & _ & Hmax & Hcase). split; assumption.
Qed.

Lemma float_sum_snoc (l : list float) (x : float) :
  float_sum (l ++ [x]) = (float_sum l + x)%float.
Proof. unfold float_sum. rewrite fold_left_app. reflexivity. Qed.

Lemma aggregate_inv_step x0 seen acc s :
  aggregate_inv x0 seen acc -> aggregate_inv x0 (seen ++ [s]) (aggregate_step acc s).
Proof.
  destruct acc as [[mn mx] sm]. unfold aggregate_inv, aggregate_step, throughputs.
  rewrite map_app. cbn [map]. set (t := RunSummary.ThroughputMB s).
  intros (Hmn & Hmx & Hlo & Hhi & Hsum).
  split; [| split; [| split; [| split]]].
  - destruct (t <? mn)%float; [right; apply in_or_app; right; now left |].
    destruct Hmn as [-> | H]; [now left | right; apply in_or_app; now left].
  - destruct (mx <? t)%float; [right; apply in_or_app; right; now left |].
    destruct Hmx as [-> | H]; [now left | right; apply in_or_app; now left].
  - intros u [Hu | [<- | []]]%in_app_or.
    + destruct (t <? mn)%float eqn:E; [| apply Hlo; exact Hu].
      destruct (u <? t)%float eqn:E'; [| reflexivity].
      rewrite <- (Hlo u Hu). symmetry. eapply ltb_trans; eassumption.
    + destruct (t <? mn)%float eqn:E; [apply ltb_irrefl | exact E].
  - intros u [Hu | [<- | []]]%in_app_or.
    + destruct (mx <? t)%float eqn:E; [| apply Hhi; exact Hu].
      destruct (t <? u)%float eqn:E'; [| reflexivity].
      rewrite <- (Hhi u Hu). symmetry. eapply ltb_trans; eassumption.
    + destruct (mx <? t)%float eqn:E; [apply ltb_irrefl | exact E].
  - rewrite float_sum_snoc, Hsum. reflexivity.
Qed.

Lemma aggregate_inv_fold x0 rest : forall seen acc,
  aggregate_inv x0 seen acc ->
  aggregate_inv x0 (seen ++ rest) (fold_left aggregate_step rest acc).
Proof.
  induction rest as [| s rest IH]; intros seen acc H; cbn [fold_left].
  - rewrite app_nil_r. exact H.
  - replace (seen ++ s :: rest) with ((seen ++ [s]) ++ rest)
      by (rewrite <- app_assoc; reflexivity).
    apply IH, aggregate_inv_step, H.
Qed.

(** The loop of [computeAggregate] over a non-empty sequence. *)
Lemma aggregate_loop (first : RunSummary.t) (rest : list RunSummary.t) :
  aggregate_inv (RunSummary.ThroughputMB first) (first :: rest)
    (fold_left aggregate_step (first :: rest)
       (RunSummary.ThroughputMB first, RunSummary.ThroughputMB first, 0%float)).
Proof.
  apply (aggregate_inv_fold _ (first :: rest) []).
  cbn. repeat split; auto; intros ? [].
Qed.

(** X2: [computeAggregate] on a non-empty sequence of runs. [Runs] is their
    number; the minimum and the maximum are throughputs of runs of the
    sequence, no run has a throughput below the minimum or above the maximum;
    the mean is the [float64] sum of the throughputs, added left to right
    from [0.0], divided by the number of runs; and each GB/s field is the
    MB/s field divided by 1024. *)
Theorem computeAggregate_extremes (first : RunSummary.t) (rest : list RunSummary.t) :
  let summaries := first :: rest in
  let agg := computeAggregate summaries in
  AggregateSummary.Runs agg = Z.of_nat (length summaries) /\
  In (AggregateSummary.MinThroughputMB agg) (throughputs summaries) /\
  In (AggregateSummary.MaxThroughputMB agg) (throughputs summaries) /\
  (forall t, In t (throughputs summaries) ->
             (t <? AggregateSummary.MinThroughputMB agg)%float = false) /\
  (forall t, In t (throughputs summaries) ->
             (AggregateSummary.MaxThroughputMB agg <? t)%float = false) /\
  AggregateSummary.MeanThroughputMB agg
  = (float_sum (throughputs summaries)
     / Float64.of_int64 (Z.of_nat (length summaries)))%float /\
  AggregateSummary.MinThroughputGB agg
  = (AggregateSummary.MinThroughputMB agg / 1024)%float /\
  AggregateSummary.MaxThroughputGB agg
  = (AggregateSummary.MaxThroughputMB agg / 1024)%float /\
  AggregateSummary.MeanThroughputGB agg
  = (AggregateSummary.MeanThroughputMB agg / 1024)%float.
Proof.
  intros summaries agg. subst agg summaries. unfold computeAggregate.
  pose proof (aggregate_loop first rest) as H.
  destruct (fold_left aggregate_step (first :: rest) _) as [[mn mx] sm].
  destruct H as (Hmn & Hmx & Hlo & Hhi & Hsum).
  cbn [AggregateSummary.Runs AggregateSummary.MinThroughputMB
       AggregateSummary.MaxThroughputMB AggregateSummary.MeanThroughputMB
       AggregateSummary.MinThroughputGB AggregateSummary.MaxThroughputGB
       AggregateSummary.MeanThroughputGB].
  split; [reflexivity |].
  split; [destruct Hmn as [-> | H]; [now left | exact H] |].
  split; [destruct Hmx as [-> | H]; [now left | exact H] |].
  split; [exact Hlo |]. split; [exact Hhi |].
  split; [rewrite Hsum; reflexivity |]. repeat split.
Qed.

(** X3: when no throughput is NaN, the minimum and the maximum that
    [computeAggregate] returns bound every run's throughput,
    [min <= t <= max], and [min <= max]. *)
Theorem computeAggregate_ordered (summaries : list RunSummary.t) :
  summaries <> [] ->
  (forall t, In t (throughputs summaries) -> is_nan t = false) ->
  let agg := computeAggregate summaries in
  (AggregateSummary.MinThroughputMB agg <=? AggregateSummary.MaxThroughputMB agg)%float = true /\
  forall t, In t (throughputs summaries) ->
    (AggregateSummary.MinThroughputMB agg <=? t)%float = true /\
    (t <=? AggregateSummary.MaxThroughputMB agg)%float = true.
Proof.
  intros Hne Hnan agg. subst agg.
  destruct summaries as [| first rest]; [contradiction |].
  unfold computeAggregate.
  pose proof (aggregate_loop first rest) as H.
  destruct (fold_left aggregate_step (first :: rest) _) as [[mn mx] sm].
  destruct H as (Hmn & Hmx & Hlo & Hhi & _).
  cbn [AggregateSummary.MinThroughputMB AggregateSummary.MaxThroughputMB].
  assert (Hmn' : In mn (throughputs (first :: rest)))
    by (destruct Hmn as [-> | H]; [now left | exact H]).
  assert (Hmx' : In mx (throughputs (first :: rest)))
    by (destruct Hmx as [-> | H]; [now left | exact H]).
  assert (Hall : forall t, In t (throughputs (first :: rest)) ->
            (mn <=? t)%float = true /\ (t <=? mx)%float = true).
  { intros t Ht. split; apply ltb_false_leb; auto. }
  split; [apply (Hall mx Hmx') | exact Hall].
Qed.

Lemma computeAggregate_ordered_witness :
  let s (x : float) := RunSummary.mk 1 0 0 0 0 1 0 0 x 0 (LatencyStats.mk 0 0 0 0 0 0) in
  let agg := computeAggregate [s 250%float; s 100%float; s 240%float] in
  (AggregateSummary.MinThroughputMB agg <=? AggregateSummary.MaxThroughputMB agg)%float = true /\
  forall t, In t [250%float; 100%float; 240%float] ->
    (AggregateSummary.MinThroughputMB agg <=? t)%float = true /\
    (t <=? AggregateSummary.MaxThroughputMB agg)%float = true.
Proof.
  intros s agg.
  apply (computeAggregate_ordered [s 250%float; s 100%float; s 240%float]).
  - discriminate.
  - intros t [<- | [<- | [<- | []]]]; reflexivity.
Defined.

Lemma of_int64_one : Float64.of_int64 1 = 1%float.
Proof. reflexivity. Qed.

(** X4: the aggregate of a single run. The minimum and the maximum are the
    run's throughput; the mean, computed as [(0.0 + x) / 1], is the same
    number, and the identical value unless the throughput is [-0], which the
    addition turns into [+0]. *)
Theorem computeAggregate_single (s : RunSummary.t) :
  let x := RunSummary.ThroughputMB s in
  let agg := computeAggregate [s] in
  AggregateSummary.Runs agg = 1 /\
  AggregateSummary.MinThroughputMB agg = x /\
  AggregateSummary.MaxThroughputMB agg = x /\
  Float64.same_value (AggregateSummary.MeanThroughputMB agg) x /\
  (Prim2SF x <> S754_zero true -> AggregateSummary.MeanThroughputMB agg = x).
Proof.
  intros x agg. subst agg. unfold computeAggregate.
  cbn [fold_left aggregate_step length]. fold x.
  rewrite !ltb_irrefl.
  cbn [AggregateSummary.Runs AggregateSummary.MinThroughputMB
       AggregateSummary.MaxThroughputMB AggregateSummary.MeanThroughputMB].
  change (Float64.of_int64 (Z.of_nat 1)) with 1%float. rewrite div_one.
  split; [reflexivity |]. split; [reflexivity |]. split; [reflexivity |].
  pose proof (add_zero_l x) as H.
  split.
  - destruct (Prim2SF x) as [sg | | |] eqn:E.
    + right. rewrite eqb_spec, H, E. destruct sg; reflexivity.
    + left. apply Prim2SF_inj. congruence.
    + left. apply Prim2SF_inj. congruence.
    + left. apply Prim2SF_inj. congruence.
  - intros Hnz. apply Prim2SF_inj. rewrite H.
    destruct (Prim2SF x) as [[|] | | |]; try reflexivity. contradiction.
Qed.

(** *** Exact conversions *)

Lemma digits2_pos_bounds (p : positive) :
  2 ^ (Z.pos (digits2_pos p) - 1) <= Z.pos p < 2 ^ Z.pos (digits2_pos p).
Proof.
  induction p as [p IH | p IH |]; cbn [digits2_pos].
  - rewrite Pos2Z.inj_succ, Z.pow_succ_r by lia.
    replace (Z.succ (Z.pos (digits2_pos p)) - 1)
      with (Z.succ (Z.pos (digits2_pos p) - 1)) by lia.
    rewrite Z.pow_succ_r by lia. lia.
  - rewrite Pos2Z.inj_succ, Z.pow_succ_r by lia.
    replace (Z.succ (Z.pos (digits2_pos p)) - 1)
      with (Z.succ (Z.pos (digits2_pos p) - 1)) by lia.
    rewrite Z.pow_succ_r by lia. lia.
  - cbn. lia.
Qed.

Lemma digits2_pos_unique (p : positive) (d : Z) :
  2 ^ (d - 1) <= Z.pos p < 2 ^ d -> Z.pos (digits2_pos p) = d.
Proof.
  intros [Hlo Hhi]. pose proof (digits2_pos_bounds p) as [Blo Bhi].
  set (d' := Z.pos (digits2_pos p)) in *.
  assert (0 < d).
  { destruct (Z_lt_le_dec 0 d); [assumption |].
    exfalso. destruct (Z.eq_dec d 0) as [-> | Hn]; [cbn in Hhi; lia |].
    rewrite Z.pow_neg_r in Hhi by lia. lia. }
  assert (0 < d') by (subst d'; lia).
  destruct (Z.lt_trichotomy d d') as [Hlt | [Heq | Hgt]]; [| exact (eq_sym Heq) |].
  - assert (2 ^ d <= 2 ^ (d' - 1)) by (apply Z.pow_le_mono_r; lia). lia.
  - assert (2 ^ d' <= 2 ^ (d - 1)) by (apply Z.pow_le_mono_r; lia). lia.
Qed.

Lemma iter_xO_pos (p k : positive) :
  Z.pos (Pos.iter xO p k) = Z.pos p * 2 ^ Z.pos k.
Proof.
  induction k as [| k IH] using Pos.peano_ind.
  - cbn. lia.
  - rewrite Pos.iter_succ, Pos2Z.inj_succ, Z.pow_succ_r by lia.
    rewrite Pos2Z.inj_xO, IH. ring.
Qed.

Lemma iter_xO_digits (p k : positive) :
  Z.pos (digits2_pos (Pos.iter xO p k)) = Z.pos (digits2_pos p) + Z.pos k.
Proof.
  apply digits2_pos_unique. rewrite iter_xO_pos.
  pose proof (digits2_pos_bounds p) as [Blo Bhi].
  replace (Z.pos (digits2_pos p) + Z.pos k - 1)
    with (Z.pos (digits2_pos p) - 1 + Z.pos k) by ring.
  rewrite !Z.pow_add_r by lia.
  assert (0 < 2 ^ Z.pos k) by (apply Z.pow_pos_nonneg; lia).
  split; [apply Z.mul_le_mono_nonneg_r | apply Z.mul_lt_mono_pos_r]; lia.
Qed.

(** Rounding a positive integer of at most 53 digits is exact. *)
Lemma binary_round_exact (s : bool) (p : positive) :
  Z.pos p <= 2 ^ 53 ->
  binary_round prec emax s p 0
  = let d := Z.pos (digits2_pos p) in
    S754_finite s (Z.to_pos (Z.pos p * 2 ^ 53 / 2 ^ d)) (d - 53).
Proof.
  intros Hp. pose proof (digits2_pos_bounds p) as [Blo Bhi].
  cbv zeta. set (d := Z.pos (digits2_pos p)) in *.
  assert (Hd0 : 0 < d) by (subst d; lia).
  assert (Hd : d <= 54).
  { destruct (Z_lt_le_dec 54 d); [| assumption].
    assert (2 ^ 54 <= 2 ^ (d - 1)) by (apply Z.pow_le_mono_r; lia). lia. }
  destruct (Z.eq_dec d 54) as [E54 | N54].
  - assert (Z.pos p = 2 ^ 53) by (rewrite E54 in Blo; change (54 - 1) with 53 in Blo; lia).
    assert (p = 9007199254740992%positive) by lia. subst p. reflexivity.
  - unfold binary_round, shl_align. fold d.
    replace (fexp prec emax (d + 0) - 0) with (d - 53)
      by (unfold fexp, SpecFloat.emin, prec, emax; lia).
    replace (fexp prec emax (d + 0)) with (d - 53)
      by (unfold fexp, SpecFloat.emin, prec, emax; lia).
    replace (Z.pos p * 2 ^ 53 / 2 ^ d) with (Z.pos p * 2 ^ (53 - d)).
    2:{ replace 53 with ((53 - d) + d) at 2 by ring.
        rewrite Z.pow_add_r, Z.mul_assoc by lia.
        rewrite Z.div_mul; [reflexivity |].
        apply Z.pow_nonzero; lia. }
    destruct (d - 53) as [| k | k] eqn:Ek; [| lia |].
    + replace (53 - d) with 0 by lia. rewrite Z.mul_1_r. cbn [Z.to_pos].
      apply round_canonical. apply bounded_spec. fold d. lia.
    + replace (53 - d) with (Z.pos k) by lia.
      rewrite <- iter_xO_pos. cbn [Z.to_pos].
      apply round_canonical. apply bounded_spec.
      rewrite iter_xO_digits. fold d. lia.
Qed.

Lemma of_uint63_exact (p : positive) :
  Z.pos p <= 2 ^ 53 ->
  Prim2SF (of_uint63 (Uint63.of_Z (Z.pos p))) = exact_sf (Z.pos p).
Proof.
  intros Hp. rewrite of_uint63_spec, Uint63.of_Z_spec.
  rewrite Z.mod_small by (change Uint63.wB with (2 ^ 63); lia).
  cbn [binary_normalize exact_sf]. apply binary_round_exact. exact Hp.
Qed.

(** [float64 (z)] is exact for [|z| <= 2^53]. *)
Lemma of_int64_exact (z : Z) :
  - 2 ^ 53 <= z <= 2 ^ 53 -> Prim2SF (Float64.of_int64 z) = exact_sf z.
Proof.
  intros Hz. unfold Float64.of_int64.
  destruct z as [| p | p].
  - reflexivity.
  - cbn [Z.ltb Z.compare]. apply of_uint63_exact. lia.
  - replace (Z.neg p <? 0) with true by (symmetry; apply Z.ltb_lt; lia).
    replace (Z.neg p =? Int64.min_int) with false
      by (symmetry; apply Z.eqb_neq; unfold Int64.min_int; lia).
    rewrite opp_spec. cbn [Z.opp]. rewrite of_uint63_exact by lia.
    reflexivity.
Qed.

Lemma mant_spec (p : positive) :
  Z.pos p <= 2 ^ 53 ->
  let d := Z.pos (digits2_pos p) in
  Z.pos (Z.to_pos (Z.pos p * 2 ^ 53 / 2 ^ d)) * 2 ^ d = Z.pos p * 2 ^ 53 /\
  1 <= d <= 54.
Proof.
  intros Hp d. pose proof (digits2_pos_bounds p) as [Blo Bhi]. fold d in Blo, Bhi.
  assert (Hd0 : 0 < d) by (subst d; lia).
  assert (Hd : d <= 54).
  { destruct (Z_lt_le_dec 54 d); [| assumption].
    assert (2 ^ 54 <= 2 ^ (d - 1)) by (apply Z.pow_le_mono_r; lia). lia. }
  split; [| lia].
  destruct (Z.eq_dec d 54) as [E54 | N54].
  - assert (Z.pos p = 2 ^ 53) by (rewrite E54 in Blo; change (54 - 1) with 53 in Blo; lia).
    rewrite E54, H. reflexivity.
  - replace (Z.pos p * 2 ^ 53 / 2 ^ d) with (Z.pos p * 2 ^ (53 - d)).
    2:{ replace 53 with ((53 - d) + d) at 2 by ring.
        rewrite Z.pow_add_r, Z.mul_assoc by lia.
        rewrite Z.div_mul; [reflexivity |].
        apply Z.pow_nonzero; lia. }
    assert (0 < 2 ^ (53 - d)) by (apply Z.pow_pos_nonneg; lia).
    rewrite Z2Pos.id by lia.
    rewrite <- Z.mul_assoc, <- Z.pow_add_r by lia.
    replace (53 - d + d) with 53 by ring. reflexivity.
Qed.

Lemma fkey_of_int64 (z : Z) :
  - 2 ^ 53 <= z <= 2 ^ 53 -> fkey (Float64.of_int64 z) = Some (exact_key z).
Proof.
  intros Hz. unfold fkey. rewrite of_int64_exact by exact Hz.
  destruct z; reflexivity.
Qed.

(** Among positive integers the keys are ordered as the integers. *)
Lemma exact_key_lt_pos (p q : positive) :
  Z.pos p <= 2 ^ 53 -> Z.pos q <= 2 ^ 53 ->
  let dp := Z.pos (digits2_pos p) in
  let dq := Z.pos (digits2_pos q) in
  let mp := Z.pos (Z.to_pos (Z.pos p * 2 ^ 53 / 2 ^ dp)) in
  let mq := Z.pos (Z.to_pos (Z.pos q * 2 ^ 53 / 2 ^ dq)) in
  (dp < dq \/ (dp = dq /\ mp < mq)) <-> Z.pos p < Z.pos q.
Proof.
  intros Hp Hq dp dq mp mq.
  destruct (mant_spec p Hp) as [Mp Dp]. destruct (mant_spec q Hq) as [Mq Dq].
  fold dp mp in Mp, Dp. fold dq mq in Mq, Dq.
  pose proof (digits2_pos_bounds p) as [Plo Phi]. fold dp in Plo, Phi.
  pose proof (digits2_pos_bounds q) as [Qlo Qhi]. fold dq in Qlo, Qhi.
  clearbody dp dq mp mq.
  assert (P2 : 0 < 2 ^ dp) by (apply Z.pow_pos_nonneg; lia).
  split.
  - intros [Hlt | [Heq Hm]].
    + assert (2 ^ dp <= 2 ^ (dq - 1)) by (apply Z.pow_le_mono_r; lia). lia.
    + subst dq.
      assert (mp * 2 ^ dp < mq * 2 ^ dp) by (apply Z.mul_lt_mono_pos_r; lia).
      lia.
  - intros Hlt.
    destruct (Z.lt_trichotomy dp dq) as [H | [H | H]]; [left; exact H | right |].
    + split; [exact H |]. subst dq.
      apply (Z.mul_lt_mono_pos_r (2 ^ dp)); lia.
    + assert (2 ^ dq <= 2 ^ (dp - 1)) by (apply Z.pow_le_mono_r; lia). lia.
Qed.

Lemma exact_key_lt (a b : Z) :
  - 2 ^ 53 <= a <= 2 ^ 53 -> - 2 ^ 53 <= b <= 2 ^ 53 ->
  key_lt (exact_key a) (exact_key b) <-> a < b.
Proof.
  intros Ha Hb.
  destruct a as [| p | p], b as [| q | q]; unfold exact_key, key_lt;
    try lia.
  - pose proof (exact_key_lt_pos p q ltac:(lia) ltac:(lia)) as H. cbv zeta in H.
    rewrite <- H. lia.
  - pose proof (exact_key_lt_pos q p ltac:(lia) ltac:(lia)) as H. cbv zeta in H.
    assert (E : Z.neg p < Z.neg q <-> Z.pos q < Z.pos p) by lia.
    rewrite E, <- H. lia.
Qed.

Lemma of_int64_ltb (a b : Z) :
  - 2 ^ 53 <= a <= 2 ^ 53 -> - 2 ^ 53 <= b <= 2 ^ 53 ->
  (Float64.of_int64 a <? Float64.of_int64 b)%float = (a <? b).
Proof.
  intros Ha Hb. rewrite ltb_fkey, !fkey_of_int64 by assumption.
  destruct (Z.ltb_spec a b) as [H | H].
  - apply key_ltb_true, exact_key_lt; assumption.
  - destruct (key_ltb (exact_key a) (exact_key b)) eqn:E; [| reflexivity].
    apply key_ltb_true, exact_key_lt in E; [lia | assumption ..].
Qed.

Lemma of_int64_not_nan (z : Z) :
  - 2 ^ 53 <= z <= 2 ^ 53 -> is_nan (Float64.of_int64 z) = false.
Proof. intros Hz. rewrite is_nan_fkey, fkey_of_int64 by exact Hz. reflexivity. Qed.

Lemma of_int64_less (a b : Z) :
  - 2 ^ 53 <= a <= 2 ^ 53 -> - 2 ^ 53 <= b <= 2 ^ 53 ->
  Float64.less (Float64.of_int64 a) (Float64.of_int64 b) = (a <? b).
Proof.
  intros Ha Hb. unfold Float64.less.
  rewrite of_int64_ltb, (of_int64_not_nan a) by assumption.
  cbn [andb]. apply orb_false_r.
Qed.

(** Converting back gives the integer again. *)
Lemma to_int64_of_int64 (z : Z) :
  - 2 ^ 53 <= z <= 2 ^ 53 -> Float64.to_int64 (Float64.of_int64 z) = z.
Proof.
  intros Hz. unfold Float64.to_int64. rewrite of_int64_exact by exact Hz.
  assert (Hmag : forall p, Z.pos p <= 2 ^ 53 ->
            let d := Z.pos (digits2_pos p) in
            let m := Z.to_pos (Z.pos p * 2 ^ 53 / 2 ^ d) in
            (if 0 <=? d - 53 then Z.pos m * 2 ^ (d - 53)
             else Z.pos m / 2 ^ (- (d - 53))) = Z.pos p).
  { intros p Hp d m. destruct (mant_spec p Hp) as [M D]. fold d m in M, D.
    pose proof (digits2_pos_bounds p) as [Blo _]. fold d in Blo.
    clearbody d m.
    destruct (Z.leb_spec 0 (d - 53)) as [H | H].
    - assert (Hc : d = 53 \/ d = 54) by lia.
      destruct Hc as [-> | ->].
      + change (53 - 53) with 0. rewrite Z.pow_0_r. lia.
      + change (54 - 53) with 1. change (54 - 1) with 53 in Blo.
        rewrite Z.pow_1_r.
        change (2 ^ 54) with (2 * 2 ^ 53) in M. lia.
    - assert (P2 : 0 < 2 ^ d) by (apply Z.pow_pos_nonneg; lia).
      assert (P3 : 0 < 2 ^ (53 - d)) by (apply Z.pow_pos_nonneg; lia).
      replace (- (d - 53)) with (53 - d) by ring.
      assert (E : Z.pos m = Z.pos p * 2 ^ (53 - d)).
      { apply (Z.mul_cancel_r _ _ (2 ^ d)); [lia |].
        rewrite M, <- Z.mul_assoc, <- Z.pow_add_r by lia.
        replace (53 - d + d) with 53 by ring. reflexivity. }
      rewrite E, Z.div_mul by lia. reflexivity. }
  unfold Int64.min_int, Int64.max_int.
  destruct z as [| p | p]; cbn [exact_sf Float64.truncate].
  - reflexivity.
  - rewrite Hmag by lia.
    replace ((- 2 ^ 63 <=? Z.pos p) && (Z.pos p <=? 2 ^ 63 - 1)) with true;
      [reflexivity |].
    symmetry. apply andb_true_iff. split; apply Z.leb_le; lia.
  - rewrite Hmag by lia.
    replace ((- 2 ^ 63 <=? - Z.pos p) && (- Z.pos p <=? 2 ^ 63 - 1)) with true;
      [reflexivity |].
    symmetry. apply andb_true_iff. split; apply Z.leb_le; lia.
Qed.

(** *** Sorting *)

Lemma insertZ_perm (x : Z) (l : list Z) : Permutation (x :: l) (insertZ x l).
Proof.
  induction l as [| y l IH]; cbn [insertZ]; [reflexivity |].
  destruct (y <? x); [| reflexivity].
  rewrite perm_swap. apply perm_skip, IH.
Qed.

Lemma sortZ_perm (l : list Z) : Permutation l (sortZ l).
Proof.
  induction l as [| x l IH]; cbn [sortZ fold_right]; [reflexivity |].
  rewrite <- insertZ_perm. apply perm_skip, IH.
Qed.

Lemma insertZ_sorted (x : Z) (l : list Z) :
  StronglySorted Z.le l -> StronglySorted Z.le (insertZ x l).
Proof.
  induction 1 as [| y l Hs IH Hall]; cbn [insertZ].
  - repeat constructor.
  - destruct (Z.ltb_spec y x) as [Hlt | Hge].
    + constructor; [exact IH |].
      rewrite <- insertZ_perm. constructor; [lia | exact Hall].
    + constructor; [constructor; assumption |].
      constructor; [exact Hge |].
      eapply Forall_impl; [| exact Hall]. cbn. intros; lia.
Qed.

Lemma sortZ_sorted (l : list Z) : StronglySorted Z.le (sortZ l).
Proof.
  induction l as [| x l IH]; cbn [sortZ fold_right]; [constructor |].
  apply insertZ_sorted, IH.
Qed.

Lemma sortZ_length (l : list Z) : length (sortZ l) = length l.
Proof. symmetry. apply Permutation_length, sortZ_perm. Qed.

Lemma insert_of_int64 (x : Z) (l : list Z) :
  - 2 ^ 53 <= x <= 2 ^ 53 -> Forall (fun z => - 2 ^ 53 <= z <= 2 ^ 53) l ->
  Float64.insert (Float64.of_int64 x) (map Float64.of_int64 l)
  = map Float64.of_int64 (insertZ x l).
Proof.
  intros Hx. induction 1 as [| y l Hy Hl IH]; cbn [map Float64.insert insertZ].
  - reflexivity.
  - rewrite of_int64_less by assumption.
    destruct (y <? x); cbn [map]; [rewrite IH |]; reflexivity.
Qed.

(** Sorting the converted durations is converting the sorted durations. *)
Lemma sort_of_int64 (l : list Z) :
  Forall (fun z => - 2 ^ 53 <= z <= 2 ^ 53) l ->
  Float64.sort (map Float64.of_int64 l) = map Float64.of_int64 (sortZ l).
Proof.
  induction 1 as [| x l Hx Hl IH]; [reflexivity |].
  cbn [map Float64.sort sortZ fold_right].
  change (fold_right Float64.insert [] (map Float64.of_int64 l))
    with (Float64.sort (map Float64.of_int64 l)).
  change (fold_right insertZ [] l) with (sortZ l).
  rewrite IH. apply insert_of_int64; [exact Hx |].
  rewrite <- sortZ_perm. exact Hl.
Qed.

(** The first loop of [computeStats]. *)
Lemma collect_spec (chunks : list ChunkResult.t) :
  collect chunks
  = (Int64.wrap (fold_right Z.add 0 (map ChunkResult.Size chunks)),
     map (fun c => Float64.of_int64 (ChunkResult.ElapsedTotal c)) chunks).
Proof.
  unfold collect.
  assert (G : forall l a ds,
            fold_left
              (fun acc c =>
                 (Int64.add (fst acc) (ChunkResult.Size c),
                  snd acc ++ [Float64.of_int64 (ChunkResult.ElapsedTotal c)]))
              l (Int64.wrap a, ds)
            = (Int64.wrap (a + fold_right Z.add 0 (map ChunkResult.Size l)),
               ds ++ map (fun c => Float64.of_int64 (ChunkResult.ElapsedTotal c)) l)).
  { induction l as [| c l IH]; intros a ds; cbn [fold_left map fold_right fst snd].
    - rewrite Z.add_0_r, app_nil_r. reflexivity.
    - replace (Int64.add (Int64.wrap a) (ChunkResult.Size c))
        with (Int64.wrap (a + ChunkResult.Size c))
        by (unfold Int64.add; symmetry; apply wrap_add_wrap).
      rewrite IH, <- app_assoc. cbn [app]. f_equal. f_equal. ring. }
  change (0, @nil float) with (Int64.wrap 0, @nil float). rewrite G. reflexivity.
Qed.

(** ** The statistics of a run *)

Lemma percentileIndex_bounds (p : float) (n : Z) :
  1 <= n -> 0 <= percentileIndex p n <= n - 1.
Proof.
  intros Hn. unfold percentileIndex.
  set (raw := Int64.sub _ 1). clearbody raw.
  destruct (Z.ltb_spec raw 0); destruct (Z.geb_spec 0 n);
    destruct (Z.geb_spec raw n); lia.
Qed.

Lemma sorted_nth_le (l : list Z) :
  StronglySorted Z.le l ->
  forall i j, (i <= j < length l)%nat -> nth i l 0 <= nth j l 0.
Proof.
  induction 1 as [| x l Hs IH Hall]; intros i j Hij; [cbn in Hij; lia |].
  destruct i as [| i], j as [| j]; cbn [nth]; try lia.
  - rewrite Forall_forall in Hall. apply Hall, nth_In. cbn in Hij. lia.
  - apply IH. cbn in Hij. lia.
Qed.

(** The sorted durations of [computeStats], when every elapsed time is held
    exactly. *)
Lemma durations_exact (chunks : list ChunkResult.t) :
  Forall exact_duration (map ChunkResult.ElapsedTotal chunks) ->
  Float64.sort (map (fun c => Float64.of_int64 (ChunkResult.ElapsedTotal c)) chunks)
  = map Float64.of_int64 (sortZ (map ChunkResult.ElapsedTotal chunks)).
Proof.
  intros H. rewrite <- sort_of_int64 by exact H. rewrite map_map. reflexivity.
Qed.

Lemma nth_exact (l : list Z) (i : nat) :
  Forall exact_duration l ->
  Float64.to_int64 (nth i (map Float64.of_int64 l) 0%float) = nth i l 0.
Proof.
  intros H. change 0%float with (Float64.of_int64 0). rewrite map_nth.
  apply to_int64_of_int64.
  destruct (Nat.lt_ge_cases i (length l)) as [Hi | Hi].
  - rewrite Forall_forall in H. apply H, nth_In, Hi.
  - rewrite nth_overflow by exact Hi. lia.
Qed.

(** X5: the totals of a run summary. [TotalBytes] is the sum of the chunk
    sizes in [int64] arithmetic: the sum reduced into the [int64] range, and
    the sum itself whenever that fits. [ChunkCount] is the number of chunk
    results, and the time, TTFB, chunk size, object size, run number and
    concurrency are handed through unchanged. *)
Theorem computeStats_totals (result : DownloadResult.t) (cfg : Config)
    (objectSize runNumber concurrency : Z) :
  let s := computeStats result cfg objectSize runNumber concurrency in
  let total := fold_right Z.add 0 (chunkSizes result) in
  RunSummary.TotalBytes s = Int64.wrap total /\
  (Int64.in_range total -> RunSummary.TotalBytes s = total) /\
  RunSummary.ChunkCount s = Z.of_nat (length (DownloadResult.Chunks result)) /\
  RunSummary.TotalTime s = DownloadResult.TotalTime result /\
  RunSummary.TTFB s = DownloadResult.TTFB result /\
  RunSummary.ChunkSize s = ChunkSize cfg /\
  RunSummary.ObjectSize s = objectSize /\
  RunSummary.RunNumber s = runNumber /\
  RunSummary.Concurrency s = concurrency.
Proof.
  intros s total. subst s. unfold computeStats. rewrite collect_spec.
  cbv beta iota zeta. fold (chunkSizes result). fold total.
  destruct (0 <? Z.of_nat _); destruct (0 <? Seconds _)%float;
    cbn [RunSummary.TotalBytes RunSummary.ChunkCount RunSummary.TotalTime
         RunSummary.TTFB RunSummary.ChunkSize RunSummary.ObjectSize
         RunSummary.RunNumber RunSummary.Concurrency];
    (split; [reflexivity |]);
    (split; [intros H; apply Int64Facts.wrap_small; exact H |]);
    repeat split.
Qed.

(** X6: the closure [percentile] of [computeStats] never reads outside the
    durations, whatever [p] is (out of [0, 100], infinite or NaN). With no
    duration it returns 0; otherwise the clamped index lies in
    [0 .. n - 1] and the result is the conversion of one of the
    durations. *)
Theorem percentile_in_range (durations : list float) (p : float) :
  match durations with
  | [] => percentile durations p = 0
  | _ :: _ =>
      (exists i, (i < length durations)%nat /\
                 percentileIndex p (Z.of_nat (length durations)) = Z.of_nat i) /\
      (exists d, In d durations /\ percentile durations p = Float64.to_int64 d)
  end.
Proof.
  destruct durations as [| d0 l]; [reflexivity |].
  set (ds := d0 :: l). unfold percentile.
  assert (Hn : 1 <= Z.of_nat (length ds)) by (cbn [ds length]; lia).
  pose proof (percentileIndex_bounds p _ Hn) as Hb.
  replace (Z.of_nat (length ds) =? 0) with false by (symmetry; apply Z.eqb_neq; lia).
  split.
  - exists (Z.to_nat (percentileIndex p (Z.of_nat (length ds)))). split; lia.
  - eexists. split; [| reflexivity]. apply nth_In. lia.
Qed.

(** X7: the latency statistics of a run whose chunk times are all held
    exactly by [float64] (magnitude at most [2^53] ns, about 104 days). The
    detour through [float64] then loses nothing: with the elapsed times
    sorted in ascending order, [Min] is the first, [Max] the last, and
    [P50], [P95], [P99] the entries at the clamped nearest-rank indices. So
    [Min] and [Max] bound every chunk's time, and each percentile is the
    elapsed time of some chunk. *)
Theorem computeStats_latency (result : DownloadResult.t) (cfg : Config)
    (objectSize runNumber concurrency : Z) :
  Forall exact_duration (elapsedTimes result) ->
  elapsedTimes result <> [] ->
  let lat := RunSummary.ChunkLatency
               (computeStats result cfg objectSize runNumber concurrency) in
  let sorted := sortZ (elapsedTimes result) in
  let n := Z.of_nat (length sorted) in
  let rank (p : float) := nth (Z.to_nat (percentileIndex p n)) sorted 0 in
  Permutation (elapsedTimes result) sorted /\
  StronglySorted Z.le sorted /\
  LatencyStats.Min lat = nth 0 sorted 0 /\
  LatencyStats.Max lat = nth (Z.to_nat (n - 1)) sorted 0 /\
  LatencyStats.P50 lat = rank 50%float /\
  LatencyStats.P95 lat = rank 95%float /\
  LatencyStats.P99 lat = rank 99%float /\
  (forall d, In d (elapsedTimes result) ->
             LatencyStats.Min lat <= d <= LatencyStats.Max lat) /\
  (forall q, In q [LatencyStats.P50 lat; LatencyStats.P95 lat; LatencyStats.P99 lat] ->
             In q (elapsedTimes result)).
Proof.
  intros Hex Hne lat sorted n rank.
  assert (Hperm : Permutation (elapsedTimes result) sorted) by apply sortZ_perm.
  assert (Hsorted : StronglySorted Z.le sorted) by apply sortZ_sorted.
  assert (Hex' : Forall exact_duration sorted).
  { rewrite <- Hperm. exact Hex. }
  assert (Hn : 1 <= n).
  { subst n sorted. rewrite sortZ_length.
    destruct (elapsedTimes result); [contradiction | cbn [length]; lia]. }
  assert (Hlat : lat = {| LatencyStats.Min := nth 0 sorted 0;
                          LatencyStats.Max := nth (Z.to_nat (n - 1)) sorted 0;
                          LatencyStats.Mean := LatencyStats.Mean lat;
                          LatencyStats.P50 := rank 50%float;
                          LatencyStats.P95 := rank 95%float;
                          LatencyStats.P99 := rank 99%float |}).
  { subst lat. unfold computeStats. rewrite collect_spec. cbv beta iota zeta.
    rewrite durations_exact by exact Hex.
    fold (elapsedTimes result). fold sorted.
    unfold percentile. rewrite length_map. fold n.
    replace (0 <? n) with true by (symmetry; apply Z.ltb_lt; lia).
    replace (n =? 0) with false by (symmetry; apply Z.eqb_neq; lia).
    destruct (0 <? Seconds _)%float;
      cbn [RunSummary.ChunkLatency LatencyStats.Mean];
      rewrite !nth_exact by exact Hex'; reflexivity. }
  rewrite Hlat. cbn [LatencyStats.Min LatencyStats.Max LatencyStats.P50
                     LatencyStats.P95 LatencyStats.P99].
  assert (Hrank : forall p, In (rank p) sorted).
  { intros p. unfold rank. apply nth_In.
    pose proof (percentileIndex_bounds p n Hn). lia. }
  split; [exact Hperm |]. split; [exact Hsorted |].
  do 5 (split; [reflexivity |]).
  split.
  - intros d Hd. rewrite Hperm in Hd.
    destruct (In_nth _ _ 0 Hd) as (j & Hj & <-).
    split; apply sorted_nth_le; auto; lia.
  - intros q [<- | [<- | [<- | []]]]; rewrite Hperm; apply Hrank.
Qed.

Lemma computeStats_latency_witness :
  let chunk (d : Z) := ChunkResult.mk 0 1 0 0 d None in
  let result := DownloadResult.mk
                  [chunk 300000000; chunk 100000000; chunk 400000000; chunk 200000000]
                  500000000 1000 in
  let lat := RunSummary.ChunkLatency (computeStats result (mkConfig 1 true) 4 1 2) in
  LatencyStats.Min lat = 100000000 /\ LatencyStats.Max lat = 400000000 /\
  LatencyStats.P50 lat = 200000000 /\ LatencyStats.P95 lat = 400000000 /\
  LatencyStats.P99 lat = 400000000.
Proof.
  intros chunk result lat.
  assert (Hex : Forall exact_duration (elapsedTimes result)).
  { repeat constructor; unfold exact_duration; cbn; lia. }
  assert (Hne : elapsedTimes result <> []) by discriminate.
  destruct (computeStats_latency result (mkConfig 1 true) 4 1 2 Hex Hne)
    as (_ & _ & Hmin & Hmax & H50 & H95 & H99 & _).
  fold lat in Hmin, Hmax, H50, H95, H99.
  rewrite Hmin, Hmax, H50, H95, H99. vm_compute. repeat split.
Defined.

(** [0 / y] is [+0] for a positive [y]. *)
Lemma zero_div_pos (y : float) : (0 <? y)%float = true -> (0 / y)%float = 0%float.
Proof.
  intros H. apply Prim2SF_inj. rewrite div_spec. rewrite ltb_spec in H.
  change (Prim2SF 0) with (S754_zero false) in *.
  destruct (Prim2SF y) as [[|] | [|] | | [|] m e]; try discriminate H; reflexivity.
Qed.

(** X8: a run over no chunk at all (an empty object). The summary holds
    zero bytes, zero chunks, a throughput of [+0] whatever the elapsed time,
    and latency statistics that are all zero; the other fields are handed
    through. *)
Theorem computeStats_empty (cfg : Config)
    (objectSize runNumber concurrency totalTime ttfb : Z) :
  computeStats (DownloadResult.mk [] totalTime ttfb) cfg objectSize runNumber concurrency
  = {| RunSummary.RunNumber := runNumber;
       RunSummary.ObjectSize := objectSize;
       RunSummary.TotalBytes := 0;
       RunSummary.ChunkCount := 0;
       RunSummary.ChunkSize := ChunkSize cfg;
       RunSummary.Concurrency := concurrency;
       RunSummary.TotalTime := totalTime;
       RunSummary.TTFB := ttfb;
       RunSummary.ThroughputMB := 0;
       RunSummary.ThroughputGB := 0;
       RunSummary.ChunkLatency := LatencyStats.mk 0 0 0 0 0 0 |}.
Proof.
  unfold computeStats.
  cbn [DownloadResult.Chunks DownloadResult.TotalTime DownloadResult.TTFB
       collect fold_left Float64.sort fold_right length Z.of_nat Z.ltb Z.compare].
  change (percentile [] 50) with 0. change (percentile [] 95) with 0.
  change (percentile [] 99) with 0.
  change (Float64.of_int64 0 / 1048576)%float with 0%float.
  change (Float64.of_int64 0 / 1073741824)%float with 0%float.
  destruct (0 <? Seconds totalTime)%float eqn:E; [| reflexivity].
  rewrite (zero_div_pos _ E). reflexivity.
Qed.

(** [0 + x] is [x] for the conversion of an integer that is held exactly. *)
Lemma zero_add_exact (d : Z) :
  exact_duration d -> (0 + Float64.of_int64 d)%float = Float64.of_int64 d.
Proof.
  intros Hd. apply Prim2SF_inj. rewrite add_zero_l, of_int64_exact by exact Hd.
  destruct d; reflexivity.
Qed.

(** X9: a run of a single chunk whose elapsed time [d] is held exactly by
    [float64]: the minimum, the maximum, the mean and the three percentiles
    are all [d]. *)
Theorem computeStats_single (c : ChunkResult.t) (cfg : Config)
    (objectSize runNumber concurrency totalTime ttfb : Z) :
  exact_duration (ChunkResult.ElapsedTotal c) ->
  let d := ChunkResult.ElapsedTotal c in
  RunSummary.ChunkLatency
    (computeStats (DownloadResult.mk [c] totalTime ttfb) cfg objectSize
       runNumber concurrency)
  = LatencyStats.mk d d d d d d.
Proof.
  intros Hd d.
  assert (Hidx : forall p, percentileIndex p 1 = 0).
  { intros p. pose proof (percentileIndex_bounds p 1 ltac:(lia)). lia. }
  unfold computeStats. rewrite collect_spec. cbv beta iota zeta.
  cbn [DownloadResult.Chunks map Float64.sort fold_right Float64.insert length
       Z.of_nat Pos.of_succ_nat Z.ltb Z.compare Z.sub Z.add Z.opp Z.pos_sub
       Z.to_nat nth].
  fold d.
  unfold percentile. cbn [length Z.of_nat Pos.of_succ_nat Z.eqb].
  rewrite !Hidx. cbn [Z.to_nat nth].
  unfold float_sum. cbn [fold_left].
  change (Float64.of_int64 1) with 1%float.
  rewrite div_one, zero_add_exact by exact Hd.
  rewrite to_int64_of_int64 by exact Hd.
  destruct (0 <? Seconds _)%float; reflexivity.
Qed.

Lemma computeStats_single_witness :
  RunSummary.ChunkLatency
    (computeStats (DownloadResult.mk [ChunkResult.mk 0 7 1000 5 123456789 None] 200 5)
       (mkConfig 7 true) 7 1 1)
  = LatencyStats.mk 123456789 123456789 123456789 123456789 123456789 123456789.
Proof.
  apply (computeStats_single (ChunkResult.mk 0 7 1000 5 123456789 None)).
  unfold exact_duration. cbn. lia.
Defined.

(** *** Every interleaving takes the same number of steps *)

Lemma reachable_in_reachable world st0 n st :
  reachable_in world st0 n st -> reachable world st0 st.
Proof.
  induction 1 as [| n st st' _ IH Hstep]; [constructor |].
  eapply reach_step; eassumption.
Qed.

Lemma reachable_reachable_in world st0 st :
  reachable world st0 st -> exists n, reachable_in world st0 n st.
Proof.
  induction 1 as [| st st' _ [n IH] Hstep].
  - exists 0%nat. constructor.
  - exists (S n). econstructor; eassumption.
Qed.

(** A step that does not panic uses up exactly one of the steps left. *)
Lemma worker_step_count world i st st' :
  worker_step world i st = Some st' -> panicked st' = false ->
  S (steps_left st') = steps_left st.
Proof.
  intros H. step_inv H; unfold steps_left, panic, set_worker;
    cbn [panicked jobs workers]; rewrite ?Hj; cbn [length]; intros Hp;
    try discriminate Hp;
    try (pose proof (weight_update i _ Exited _ Hw));
    try (pose proof (weight_update i _ (Fetching c) _ Hw));
    try (pose proof (weight_update i _ (Fetched c r) _ Hw));
    try (pose proof (weight_update i _ (Recorded r) _ Hw));
    try (pose proof (weight_update i _ Idle _ Hw));
    cbn [worker_weight] in *; lia.
Qed.

Lemma weight_zero_exited (ws : list Worker) :
  fold_right (fun w acc => worker_weight w + acc)%nat 0%nat ws = 0%nat <->
  Forall (fun w => w = Exited) ws.
Proof.
  induction ws as [| w ws IH]; cbn [fold_right].
  - split; [constructor | reflexivity].
  - split.
    + intros H. constructor; [destruct w; cbn in H; lia || reflexivity |].
      apply IH. lia.
    + intros H. inversion H as [| ? ? Hw Hws]; subst. cbn [worker_weight].
      apply IH in Hws. lia.
Qed.

Lemma weight_repeat_idle (n : nat) :
  fold_right (fun w acc => worker_weight w + acc)%nat 0%nat (repeat Idle n) = n.
Proof. induction n as [| n IH]; cbn [repeat fold_right worker_weight]; lia. Qed.

(** X10: every interleaving of the workers takes the same number of steps.
    For well-indexed descriptors, [concurrency >= 1] and one output slot per
    descriptor in capture mode, a dispatch of [N] chunks with
    [W = min (concurrency, N)] workers never panics, and after [n] steps
    exactly [4 * N + W - n] steps are left: four per chunk (receive, fetch,
    record, first-byte time) and one exit per worker. The workers have
    joined exactly when all [4 * N + W] steps are done, and before that some
    worker can always move: no interleaving deadlocks or runs on. *)
Theorem dispatch_step_count (world : World) (chunks : list ChunkSpec.t)
    (bufs : OutBufs) (concurrency : Z) :
  1 <= concurrency -> well_indexed chunks -> bufs_sized bufs (length chunks) ->
  let total := (4 * length chunks
                + Z.to_nat (Z.min concurrency (Z.of_nat (length chunks))))%nat in
  forall n st,
    reachable_in world (dispatch_init chunks bufs concurrency) n st ->
    panicked st = false /\
    (n + steps_left st = total)%nat /\
    (joined st <-> n = total) /\
    (n < total -> exists st', step world st st')%nat.
Proof.
  intros Hconc Hwf Hbufs total n st Hreach.
  set (st0 := dispatch_init chunks bufs concurrency) in *.
  assert (Hinv : dispatch_inv world chunks (capture_mode bufs) st).
  { eapply dispatch_inv_reachable; [exact Hwf | | eapply reachable_in_reachable; exact Hreach].
    apply dispatch_inv_init; auto. }
  pose proof (inv_alive _ _ _ _ Hinv) as Halive.
  assert (Hcount : (n + steps_left st = total)%nat).
  { clear Hinv Halive. induction Hreach as [| n st st' Hr IH [i Hstep]].
    - subst st0 total. unfold steps_left. cbn [dispatch_init jobs workers].
      rewrite weight_repeat_idle, workerCount_min. lia.
    - assert (Hp : panicked st' = false).
      { eapply inv_alive, dispatch_inv_reachable;
          [exact Hwf | apply dispatch_inv_init; eauto |].
        eapply reachable_in_reachable. econstructor; [exact Hr | exists i; exact Hstep]. }
      pose proof (worker_step_count _ _ _ _ Hstep Hp). lia. }
  assert (Hlen : length (workers st)
                 = Z.to_nat (Z.min concurrency (Z.of_nat (length chunks)))).
  { rewrite (workers_length_reachable _ _ _ (reachable_in_reachable _ _ _ _ Hreach)).
    subst st0. cbn [dispatch_init workers]. rewrite repeat_length, workerCount_min.
    reflexivity. }
  split; [exact Halive |]. split; [exact Hcount |]. split.
  - split.
    + intros [_ Hall].
      assert (Hj : jobs st = []).
      { destruct chunks as [| c0 chunks'] eqn:Ec.
        - destruct (jobs st) as [| c q] eqn:Ej; [reflexivity |].
          exfalso. apply (inv_jobs _ _ _ _ Hinv c). rewrite Ej. now left.
        - apply (inv_exited _ _ _ _ Hinv). exists 0%nat.
          destruct (workers st) as [| w ws]; [cbn [length] in Hlen; lia |].
          inversion Hall; subst. reflexivity. }
      apply weight_zero_exited in Hall. unfold steps_left in Hcount.
      rewrite Hj, Hall in Hcount. cbn [length] in Hcount. lia.
    + intros ->. assert (Hz : steps_left st = 0%nat) by lia.
      unfold steps_left in Hz. split; [exact Halive |].
      apply weight_zero_exited. lia.
  - intros Hlt.
    destruct (joinedb st) eqn:Ej.
    + exfalso. apply joinedb_true in Ej as [_ Hall].
      apply weight_zero_exited in Hall.
      assert (Hj : jobs st = []).
      { destruct chunks as [| c0 chunks'] eqn:Ec.
        - destruct (jobs st) as [| c q] eqn:Ejobs; [reflexivity |].
          exfalso. apply (inv_jobs _ _ _ _ Hinv c). rewrite Ejobs. now left.
        - apply (inv_exited _ _ _ _ Hinv). exists 0%nat.
          destruct (workers st) as [| w ws]; [cbn [length] in Hlen; lia |].
          cbn [fold_right] in Hall. destruct w; cbn in Hall; try lia. reflexivity. }
      unfold steps_left in Hcount. rewrite Hj, Hall in Hcount.
      cbn [length] in Hcount. lia.
    + destruct (not_joined_worker st Halive Ej) as (i & w & Hi & Hw).
      destruct (worker_step_enabled world i st w Halive Hi Hw) as [st' Hstep].
      exists st', i. exact Hstep.
Qed.

Lemma dispatch_step_count_witness :
  well_indexed sampleChunks /\
  forall n st,
    reachable_in sampleWorld (dispatch_init sampleChunks None 2) n st ->
    panicked st = false /\ (n + steps_left st = 18)%nat /\
    (joined st <-> n = 18%nat) /\
    (n < 18 -> exists st', step sampleWorld st st')%nat.
Proof.
  assert (Hwf : well_indexed sampleChunks).
  { apply (plan_prefix_well_indexed 10 3 4); cbn; lia. }
  split; [exact Hwf |].
  exact (dispatch_step_count sampleWorld sampleChunks None 2 ltac:(lia) Hwf I).
Defined.

(** X11: a dispatch with [concurrency <= 0] starts no worker. The wait
    returns at once, no chunk is fetched, and [downloadObject] reports
    success with a table of [N] zero-valued results, the measured total
    time and a first-byte time of 0; the output buffers are untouched. *)
Theorem dispatch_without_workers (world : World) (chunks : list ChunkSpec.t)
    (bufs : OutBufs) (concurrency totalTime : Z) :
  concurrency <= 0 ->
  joined (dispatch_init chunks bufs concurrency) /\
  (forall st, reachable world (dispatch_init chunks bufs concurrency) st ->
              st = dispatch_init chunks bufs concurrency) /\
  forall out bufs',
    downloadObject_returns world chunks bufs concurrency totalTime out bufs' ->
    out = ({| DownloadResult.Chunks := repeat ChunkResult.zero (length chunks);
              DownloadResult.TotalTime := totalTime;
              DownloadResult.TTFB := 0 |}, None) /\
    bufs' = bufs.
Proof.
  intros Hc. set (st0 := dispatch_init chunks bufs concurrency).
  assert (Hw : workers st0 = []).
  { subst st0. cbn [dispatch_init workers]. rewrite workerCount_min.
    replace (Z.to_nat (Z.min concurrency (Z.of_nat (length chunks)))) with 0%nat by lia.
    reflexivity. }
  assert (Hstay : forall st, reachable world st0 st -> st = st0).
  { induction 1 as [| st st' _ IH [i Hstep]]; [reflexivity |].
    subst st. exfalso. unfold worker_step in Hstep. rewrite Hw in Hstep.
    destruct (panicked st0); [discriminate |]. destruct i; discriminate. }
  split; [| split].
  - split; [reflexivity |]. rewrite Hw. constructor.
  - exact Hstay.
  - intros out bufs' (st & Hreach & _ & -> & ->).
    rewrite (Hstay st Hreach). split; [| reflexivity].
    unfold dispatch_finish. subst st0. cbn [dispatch_init results firstTTFB].
    replace (firstError (repeat ChunkResult.zero (length chunks))) with (@None GoError);
      [reflexivity |].
    symmetry. apply firstError_None. intros r Hr. apply repeat_spec in Hr.
    subst r. reflexivity.
Qed.

Lemma dispatch_without_workers_witness :
  joined (dispatch_init sampleChunks None 0) /\
  forall out bufs',
    downloadObject_returns failingWorld sampleChunks None 0 77 out bufs' ->
    out = (DownloadResult.mk (repeat ChunkResult.zero 4) 77 0, None) /\ bufs' = None.
Proof.
  pose proof (dispatch_without_workers failingWorld sampleChunks None 0 77 ltac:(lia))
    as (Hj & _ & H).
  split; [exact Hj | exact H].
Defined.

(** *** The first-byte time *)

Section FirstByte.

Variables (world : World) (chunks : list ChunkSpec.t) (capture : bool).
Hypothesis chunks_wf : well_indexed chunks.




End FirstByte.



(** *** The output buffers *)

(** What a fetch in capture mode does to the output buffers: nothing when
    it fails, and otherwise it stores the bytes received in the chunk's
    slot. *)
Lemma downloadChunk_capture_effect (world : World) (c : ChunkSpec.t)
    (slots : list (list byte)) (r : ChunkResult.t) (b : OutBufs) :
  downloadChunk (world c) c (Some slots) = Some (r, b) ->
  (ChunkResult.Err r <> None /\ b = Some slots) \/
  (ChunkResult.Err r = None /\
   0 <= ChunkSpec.Index c < Z.of_nat (length slots) /\
   (exists body, response (world c) = inr body) /\
   ChunkResult.Size r = Z.of_nat (length (received world c)) /\
   b = Some (update_nth (Z.to_nat (ChunkSpec.Index c)) (received world c) slots)).
Proof.
  unfold downloadChunk, received. destruct (response (world c)) as [err | body].
  - intros [= <- <-]. left. split; [discriminate | reflexivity].
  - destruct (ChunkSpec.Size c <? 0); [discriminate |].
    rewrite ReadFull_eq. unfold ReadFull_outcome.
    set (k := Z.to_nat (ChunkSpec.Size c)).
    assert (Hstore : forall got,
              got = firstn k (pending body) ->
              match slice_set slots (ChunkSpec.Index c) got with
              | Some bufs' =>
                  Some (doneResult (ChunkSpec.Index c) (Z.of_nat (length got))
                          (startTime (world c)) (ttfbReading (world c))
                          (elapsedReading (world c)), Some bufs')
              | None => None
              end = Some (r, b) ->
              ChunkResult.Err r = None /\
              0 <= ChunkSpec.Index c < Z.of_nat (length slots) /\
              (exists body0, @inr GoError Body body = inr body0) /\
              ChunkResult.Size r = Z.of_nat (length (firstn k (pending body))) /\
              b = Some (update_nth (Z.to_nat (ChunkSpec.Index c))
                          (firstn k (pending body)) slots)).
    { intros got -> H.
      destruct (slice_set _ _ _) as [bufs' |] eqn:E; [| discriminate].
      apply slice_set_Some in E as [Hr ->]. injection H as <- <-.
      split; [reflexivity |]. split; [exact Hr |]. split; [eauto |].
      split; reflexivity. }
    destruct (Nat.leb_spec k (length (pending body))) as [Hle | Hgt].
    + intros H. right. apply (Hstore _ eq_refl H).
    + assert (Hall : pending body = firstn k (pending body))
        by (symmetry; apply firstn_all2; lia).
      set (e := match pending body, ending body with
                | _ :: _, EOF => ErrUnexpectedEOF
                | _, e => e
                end).
      destruct (negb (is_ErrUnexpectedEOF e)).
      * intros [= <- <-]. left. split; [discriminate | reflexivity].
      * intros H. right. apply (Hstore _ Hall H).
Qed.

Section OutputBuffers.

Variables (world : World) (chunks : list ChunkSpec.t).
Hypothesis chunks_wf : well_indexed chunks.

Lemma slots_inv_step i st st' :
  dispatch_inv world chunks true st ->
  slots_inv world chunks st ->
  worker_step world i st = Some st' ->
  slots_inv world chunks st'.
Proof.
  intros Hinv (slots & Hbufs & Hall) H.
  pose proof (dispatch_inv_step world chunks true chunks_wf i st st' Hinv H) as Hinv'.
  pose proof (inv_alive _ _ _ _ Hinv') as Halive'.
  step_inv H; cbn [panic panicked] in Halive'; try discriminate Halive'.
  - (* the worker exits *)
    exists slots. split; [exact Hbufs |]. cbn [jobs workers]. intros p c Hp Hok.
    destruct (Hall p c Hp Hok) as [H1 | [H2 | H3]]; [| | auto].
    + rewrite Hj in H1. destruct H1.
    + right; left. eapply other_holder; eauto. discriminate.
  - (* the worker receives the next chunk *)
    exists slots. split; [exact Hbufs |]. cbn [jobs workers]. intros p c' Hp Hok.
    destruct (Hall p c' Hp Hok) as [H1 | [H2 | H3]]; [| | auto].
    + rewrite Hj in H1. destruct H1 as [<- | H1]; [| auto].
      right; left. exists i.
      rewrite (set_worker_lookup _ _ _ _ _ Hw), Nat.eqb_refl. reflexivity.
    + right; left. eapply other_holder; eauto. discriminate.
  - (* the fetch returns *)
    unfold slots_inv. cbn [outBufs jobs workers]. rewrite Hbufs in Hd.
    destruct (chunk_position chunks chunks_wf c (inv_fetching _ _ _ _ Hinv _ _ Hw))
      as (Hpos & Hidx & _).
    assert (Hout : outcome_of world true c r).
    { exists (Some slots), b. split; [discriminate | exact Hd]. }
    destruct (downloadChunk_capture_effect _ _ _ _ _ Hd)
      as [[Herr ->] | (Herr & Hrange & _ & _ & ->)].
    + exists slots. split; [reflexivity |]. intros p c' Hp Hok.
      destruct (Hall p c' Hp Hok) as [H1 | [[k Hk] | H3]]; [auto | | auto].
      destruct (Nat.eq_dec k i) as [-> | Hne].
      * exfalso. assert (c' = c) by congruence. subst c'.
        destruct Hok as (r' & Ho' & He').
        rewrite (outcome_of_unique _ _ _ _ _ Ho' Hout) in He'. contradiction.
      * right; left. exists k. lookup_goal Hw; [congruence | exact Hk].
    + eexists. split; [reflexivity |]. intros p c' Hp Hok.
      destruct (Nat.eq_dec p (Z.to_nat (ChunkSpec.Index c))) as [-> | Hpne].
      * right; right. assert (c' = c) by congruence. subst c'.
        apply nth_error_update_nth_eq. lia.
      * rewrite nth_error_update_nth_neq by congruence.
        destruct (Hall p c' Hp Hok) as [H1 | [[k Hk] | H3]]; [auto | | auto].
        destruct (Nat.eq_dec k i) as [-> | Hne].
        -- exfalso. assert (c' = c) by congruence. subst c'.
           apply Hpne. destruct (chunks_wf _ _ Hp) as [Hi _]. rewrite Hi. lia.
        -- right; left. exists k. lookup_goal Hw; [congruence | exact Hk].
  - (* the result is written into its slot *)
    exists slots. split; [exact Hbufs |]. cbn [jobs workers]. intros p c' Hp Hok.
    destruct (Hall p c' Hp Hok) as [H1 | [H2 | H3]]; [auto | | auto].
    right; left. eapply other_holder; eauto. discriminate.
  - exists slots. split; [exact Hbufs |]. cbn [jobs workers]. intros p c' Hp Hok.
    destruct (Hall p c' Hp Hok) as [H1 | [H2 | H3]]; [auto | | auto].
    right; left. eapply other_holder; eauto. discriminate.
  - exists slots. split; [exact Hbufs |]. cbn [jobs workers]. intros p c' Hp Hok.
    destruct (Hall p c' Hp Hok) as [H1 | [H2 | H3]]; [auto | | auto].
    right; left. eapply other_holder; eauto. discriminate.
  - exists slots. split; [exact Hbufs |]. cbn [jobs workers]. intros p c' Hp Hok.
    destruct (Hall p c' Hp Hok) as [H1 | [H2 | H3]]; [auto | | auto].
    right; left. eapply other_holder; eauto. discriminate.
Qed.

Lemma slots_inv_reachable slots0 concurrency st :
  length slots0 = length chunks ->
  reachable world (dispatch_init chunks (Some slots0) concurrency) st ->
  dispatch_inv world chunks true st /\ slots_inv world chunks st.
Proof.
  intros Hlen. induction 1 as [| st st' _ [IH1 IH2] [i Hstep]].
  - split; [apply dispatch_inv_init; auto |].
    exists slots0. split; [reflexivity |]. intros p c Hp _. left.
    eapply nth_error_In; exact Hp.
  - split; [eapply dispatch_inv_step; eassumption | eapply slots_inv_step; eassumption].
Qed.

End OutputBuffers.

(** X13: the output buffers after a successful dispatch in capture mode.
    For well-indexed descriptors, [concurrency >= 1] and one slot per
    descriptor: when [downloadObject] returns without error, every request
    was answered with a body, slot [i] of the buffers holds the first
    [chunks[i].Size] bytes of the body received for the [i]-th descriptor
    (the whole body when it is shorter), whatever the slots held before and
    whatever the interleaving, and the size of the [i]-th result is the
    length of that buffer. So the bytes [main] then writes to the output
    file, slot after slot, are the bodies in range order. *)
Theorem dispatch_output_buffers (world : World) (chunks : list ChunkSpec.t)
    (slots0 : list (list byte)) (concurrency totalTime : Z) :
  1 <= concurrency -> well_indexed chunks -> length slots0 = length chunks ->
  forall res bufs',
    downloadObject_returns world chunks (Some slots0) concurrency totalTime
      (res, None) bufs' ->
    bufs' = Some (map (received world) chunks) /\
    (forall c, In c chunks -> exists body, response (world c) = inr body) /\
    map ChunkResult.Size (DownloadResult.Chunks res)
    = map (fun c => Z.of_nat (length (received world c))) chunks.
Proof.
  intros Hconc Hwf Hlen res bufs' (st & Hreach & Hj & Hout & ->).
  destruct (slots_inv_reachable world chunks Hwf slots0 concurrency st Hlen Hreach)
    as [Hinv (slots & Hbufs & Hall)].
  unfold dispatch_finish in Hout.
  destruct (firstError (results st)) eqn:Efirst; [discriminate |].
  injection Hout as ->. cbn [DownloadResult.Chunks].
  rewrite firstError_None in Efirst.
  destruct (joined_table_reachable world chunks (Some slots0) concurrency st
              Hconc Hwf Hlen Hreach Hj) as [Htlen Htab].
  cbn [capture_mode] in Htab.
  assert (Hexited : forall k w, nth_error (workers st) k = Some w -> w = Exited).
  { intros k w Hk. destruct Hj as [_ Hx]. rewrite Forall_forall in Hx.
    apply Hx. eapply nth_error_In; exact Hk. }
  assert (Hjobs : chunks <> [] -> jobs st = []).
  { intros Hne. apply (inv_exited _ _ _ _ Hinv). exists 0%nat.
    pose proof (workers_length_reachable _ _ _ Hreach) as Hl.
    cbn [dispatch_init workers] in Hl. rewrite repeat_length, workerCount_min in Hl.
    destruct (nth_error (workers st) 0) as [w |] eqn:E0.
    - f_equal. eapply Hexited; exact E0.
    - apply nth_error_None in E0. destruct chunks; [contradiction | cbn [length] in Hl; lia]. }
  assert (Hslot : forall p c, nth_error chunks p = Some c ->
            nth_error slots p = Some (received world c) /\
            (exists body, response (world c) = inr body) /\
            exists r, nth_error (results st) p = Some r /\
                      ChunkResult.Size r = Z.of_nat (length (received world c))).
  { intros p c Hp. destruct (Htab p c Hp) as (r & Hr & Ho).
    assert (He : ChunkResult.Err r = None)
      by (apply Efirst; eapply nth_error_In; exact Hr).
    assert (Hne : chunks <> []) by (intros ->; destruct p; discriminate).
    split; [| split].
    - destruct (Hall p c Hp (ex_intro _ r (conj Ho He))) as [H1 | [[k Hk] | H3]].
      + rewrite (Hjobs Hne) in H1. destruct H1.
      + apply Hexited in Hk. discriminate.
      + exact H3.
    - destruct Ho as (b0 & b1 & Hb0 & Hd). destruct b0 as [s0 |]; [| contradiction].
      destruct (downloadChunk_capture_effect _ _ _ _ _ Hd)
        as [[Herr _] | (_ & _ & Hbody & _)]; [contradiction | exact Hbody].
    - exists r. split; [exact Hr |].
      destruct Ho as (b0 & b1 & Hb0 & Hd). destruct b0 as [s0 |]; [| contradiction].
      destruct (downloadChunk_capture_effect _ _ _ _ _ Hd)
        as [[Herr _] | (_ & _ & _ & Hsz & _)]; [contradiction | exact Hsz]. }
  pose proof (inv_bufs _ _ _ _ Hinv) as Hsized. rewrite Hbufs in Hsized.
  cbn [bufs_sized] in Hsized.
  split; [| split].
  - rewrite Hbufs. f_equal. apply nth_error_ext. intros p.
    rewrite nth_error_map.
    destruct (nth_error chunks p) as [c |] eqn:Ep; cbn [option_map].
    + apply (Hslot p c Ep).
    + apply nth_error_None. apply nth_error_None in Ep. lia.
  - intros c Hc. apply In_nth_error in Hc as [p Hp]. apply (Hslot p c Hp).
  - apply nth_error_ext. intros p. rewrite !nth_error_map.
    destruct (nth_error chunks p) as [c |] eqn:Ep; cbn [option_map].
    + destruct (Hslot p c Ep) as (_ & _ & r & Hr & Hsz). rewrite Hr. cbn. congruence.
    + replace (nth_error (results st) p) with (@None ChunkResult.t); [reflexivity |].
      symmetry. apply nth_error_None. apply nth_error_None in Ep. lia.
Qed.

Lemma dispatch_output_buffers_witness :
  well_indexed sampleChunks /\
  forall res bufs',
    downloadObject_returns sampleWorld sampleChunks (Some [[]; []; []; []]) 2 77
      (res, None) bufs' ->
    bufs' = Some [[x01; x02; x03]; [x01; x02; x03]; [x01; x02; x03]; [x01]].
Proof.
  assert (Hwf : well_indexed sampleChunks).
  { apply (plan_prefix_well_indexed 10 3 4); cbn; lia. }
  split; [exact Hwf |]. intros res bufs' H.
  destruct (dispatch_output_buffers sampleWorld sampleChunks [[]; []; []; []] 2 77
              ltac:(lia) Hwf eq_refl res bufs' H) as [E _].
  exact E.
Defined.

(** X14: when [downloadChunk] panics. It does so exactly when the request
    was answered with a body, the output buffers are not nil, and either
    the chunk's size is negative ([make] panics) or the read is accepted (the
    buffer is filled, or the read ends with [ErrUnexpectedEOF]) and the
    chunk's index has no slot in the output buffers. It never panics in
    discard mode, nor when the request is refused or the read fails. *)
Theorem downloadChunk_panics (x : Exchange) (chunk : ChunkSpec.t) (bufs : OutBufs) :
  downloadChunk x chunk bufs = None <->
  exists body slots,
    response x = inr body /\ bufs = Some slots /\
    (ChunkSpec.Size chunk < 0 \/
     (~ 0 <= ChunkSpec.Index chunk < Z.of_nat (length slots)) /\
     let err := snd (ReadFull_outcome body (Z.to_nat (ChunkSpec.Size chunk))) in
     (err = None \/ err = Some ErrUnexpectedEOF)).
Proof.
  unfold downloadChunk. destruct (response x) as [e | body].
  - split; [discriminate | intros (b & s & H & _); discriminate].
  - destruct bufs as [slots |].
    2:{ rewrite Copy_discard_eq.
        destruct (Copy_discard_outcome body) as [n [e |]];
          (split; [discriminate | intros (b & s & _ & H & _); discriminate]). }
    destruct (Z.ltb_spec (ChunkSpec.Size chunk) 0) as [Hneg | Hpos].
    { split; [intros _ | reflexivity]. exists body, slots. auto. }
    rewrite ReadFull_eq.
    destruct (ReadFull_outcome body (Z.to_nat (ChunkSpec.Size chunk))) as [got err] eqn:Eo.
    assert (Hset : slice_set slots (ChunkSpec.Index chunk) got = None <->
                   ~ 0 <= ChunkSpec.Index chunk < Z.of_nat (length slots)).
    { unfold slice_set.
      destruct (Z.leb_spec 0 (ChunkSpec.Index chunk));
        destruct (Z.ltb_spec (ChunkSpec.Index chunk) (Z.of_nat (length slots)));
        cbn [andb]; split; try discriminate; try lia; reflexivity. }
    assert (Hstored :
              match slice_set slots (ChunkSpec.Index chunk) got with
              | Some bufs' =>
                  Some (doneResult (ChunkSpec.Index chunk) (Z.of_nat (length got))
                          (startTime x) (ttfbReading x) (elapsedReading x), Some bufs')
              | None => None
              end = None <->
              ~ 0 <= ChunkSpec.Index chunk < Z.of_nat (length slots)).
    { rewrite <- Hset. destruct (slice_set _ _ _); split; congruence. }
    split.
    + intros H. exists body, slots. split; [reflexivity |]. split; [reflexivity |].
      right. cbv zeta. rewrite Eo. cbn [snd].
      destruct err as [e |].
      * destruct (is_ErrUnexpectedEOF e) eqn:Ee; cbn [negb] in H; [| discriminate].
        apply is_ErrUnexpectedEOF_true in Ee. subst e.
        split; [apply Hstored; exact H | right; reflexivity].
      * split; [apply Hstored; exact H | left; reflexivity].
    + intros (b & s & [= <-] & [= <-] & [Hlt | [Hidx Herr]]); [lia |].
      cbv zeta in Herr. rewrite Eo in Herr. cbn [snd] in Herr.
      destruct Herr as [-> | ->]; cbn [is_ErrUnexpectedEOF negb];
        apply Hstored; exact Hidx.
Qed.

(** ** A complete download *)

(** The fetch of a chunk that the store serves succeeds, in either mode,
    with the planned size. *)
Lemma serves_outcome (world : World) (capture : bool) (c : ChunkSpec.t)
    (r : ChunkResult.t) :
  serves world c -> ChunkSpec.Size c <= Int64.max_int ->
  outcome_of world capture c r ->
  ChunkResult.Err r = None /\ ChunkResult.Size r = ChunkSpec.Size c.
Proof.
  intros (body & Hresp & Hlen & Hend) Hmax (b & b' & Hmode & Hd).
  unfold downloadChunk in Hd. rewrite Hresp in Hd.
  destruct b as [slots |].
  - replace (ChunkSpec.Size c <? 0) with false in Hd
      by (symmetry; apply Z.ltb_ge; lia).
    rewrite ReadFull_eq in Hd. unfold ReadFull_outcome in Hd.
    replace (Z.to_nat (ChunkSpec.Size c) <=? length (pending body))%nat with true in Hd
      by (symmetry; apply Nat.leb_le; lia).
    destruct (slice_set _ _ _); [| discriminate].
    injection Hd as <- _. cbn [doneResult ChunkResult.Err ChunkResult.Size].
    split; [reflexivity |]. rewrite length_firstn. lia.
  - rewrite Copy_discard_eq in Hd. unfold Copy_discard_outcome in Hd.
    rewrite Hend in Hd. cbn [is_EOF] in Hd. injection Hd as <- _.
    cbn [doneResult ChunkResult.Err ChunkResult.Size].
    split; [reflexivity |]. rewrite Hlen. apply Int64Facts.wrap_small.
    unfold Int64.in_range, Int64.min_int, Int64.max_int in *. lia.
Qed.

Lemma sum_sizes_map (chunks : list ChunkSpec.t) :
  fold_right Z.add 0 (map ChunkSpec.Size chunks) = sum_sizes chunks.
Proof.
  induction chunks as [| c l IH]; [reflexivity |].
  cbn [map fold_right sum_sizes]. fold (sum_sizes l). rewrite <- IH. reflexivity.
Qed.

Lemma computeStats_bytes (result : DownloadResult.t) (cfg : Config)
    (objectSize runNumber concurrency : Z) :
  RunSummary.TotalBytes (computeStats result cfg objectSize runNumber concurrency)
  = Int64.wrap (fold_right Z.add 0 (chunkSizes result)) /\
  RunSummary.ChunkCount (computeStats result cfg objectSize runNumber concurrency)
  = Z.of_nat (length (DownloadResult.Chunks result)).
Proof.
  unfold computeStats. rewrite collect_spec. cbv beta iota zeta.
  destruct (0 <? Z.of_nat _); destruct (0 <? Seconds _)%float; split; reflexivity.
Qed.

(** X15: a complete download, from plan to summary. Let [objectSize >= 0],
    [chunkSize > 0] without [int64] overflow, [concurrency >= 1], the
    descriptors be the plan of [planChunks], the output buffers have one
    slot per descriptor (or be nil), and the store answer every ranged
    request with exactly the bytes of the range. Then the dispatch returns,
    and however the workers interleave it returns without error, every
    chunk result has its planned size, and the summary [main] computes
    reports [TotalBytes = objectSize] and
    [ChunkCount = ceil (objectSize / chunkSize)]. *)
Theorem complete_download (world : World) (objectSize chunkSize : Z)
    (chunks : list ChunkSpec.t) (bufs : OutBufs) (concurrency totalTime : Z)
    (cfg : Config) (run : Z) :
  0 <= objectSize -> 0 < chunkSize -> objectSize + chunkSize <= 2 ^ 63 ->
  1 <= concurrency ->
  planChunks_returns objectSize chunkSize chunks ->
  bufs_sized bufs (length chunks) ->
  (forall c, In c chunks -> serves world c) ->
  (exists out bufs',
     downloadObject_returns world chunks bufs concurrency totalTime out bufs') /\
  forall out bufs',
    downloadObject_returns world chunks bufs concurrency totalTime out bufs' ->
    exists res s,
      out = (res, None) /\
      benchmarkRun cfg objectSize run concurrency out = RunDone s /\
      map ChunkResult.Size (DownloadResult.Chunks res) = map ChunkSpec.Size chunks /\
      RunSummary.TotalBytes s = objectSize /\
      RunSummary.ChunkCount s = chunkCount objectSize chunkSize.
Proof.
  intros HS Hc Hb Hconc Hplan Hbufs Hserve.
  set (N := Z.to_nat (chunkCount objectSize chunkSize)).
  pose proof (chunkCount_bounds objectSize chunkSize HS Hc) as [HN0 _].
  assert (Hret : planChunks_returns objectSize chunkSize
                   (plan_prefix objectSize chunkSize N)).
  { exists (S N). rewrite planChunks_exact_fuel by assumption.
    fold N. replace (N <? S N)%nat with true; [reflexivity |].
    symmetry. apply Nat.ltb_lt. lia. }
  assert (Hchunks : chunks = plan_prefix objectSize chunkSize N)
    by (eapply planChunks_returns_unique; eassumption).
  assert (Hwf : well_indexed chunks).
  { rewrite Hchunks. apply plan_prefix_well_indexed; try assumption. subst N. lia. }
  assert (Hpart : Partitions objectSize chunkSize chunks).
  { rewrite Hchunks. apply plan_prefix_partitions; assumption. }
  assert (Hlen : Z.of_nat (length chunks) = chunkCount objectSize chunkSize).
  { rewrite Hchunks, plan_prefix_length. subst N. lia. }
  assert (Hinv0 : dispatch_inv world chunks (capture_mode bufs)
                    (dispatch_init chunks bufs concurrency))
    by (apply dispatch_inv_init; auto).
  split.
  - destruct (dispatch_joins world chunks (capture_mode bufs) Hwf
                (dispatch_measure (dispatch_init chunks bufs concurrency))
                _ (le_n _) Hinv0) as (st & Hreach & Hj).
    exists (dispatch_finish st totalTime), (outBufs st), st. auto.
  - intros out bufs' (st & Hreach & Hj & -> & _).
    destruct (joined_table_reachable world chunks bufs concurrency st
                Hconc Hwf Hbufs Hreach Hj) as [Htlen Htab].
    assert (Hres : forall p c, nth_error chunks p = Some c ->
              exists r, nth_error (results st) p = Some r /\
                        ChunkResult.Err r = None /\
                        ChunkResult.Size r = ChunkSpec.Size c).
    { intros p c Hp. destruct (Htab p c Hp) as (r & Hr & Ho). exists r.
      split; [exact Hr |].
      assert (Hin : In c chunks) by (eapply nth_error_In; exact Hp).
      apply (serves_outcome world (capture_mode bufs) c r (Hserve c Hin)); [| exact Ho].
      destruct (part_size _ _ _ Hpart c Hin) as [_ Hsz].
      destruct (Z.eq_dec objectSize 0) as [H0 | H0].
      - rewrite (part_empty _ _ _ Hpart H0) in Hin. destruct Hin.
      - unfold Int64.max_int. lia. }
    assert (Hnone : firstError (results st) = None).
    { apply firstError_None. intros r Hr. apply In_nth_error in Hr as [p Hp].
      destruct (nth_error chunks p) as [c |] eqn:Ec.
      - destruct (Hres p c Ec) as (r' & Hr' & He & _). congruence.
      - apply nth_error_None in Ec.
        assert (p < length (results st))%nat by (apply nth_error_Some; congruence).
        lia. }
    assert (Hsizes : map ChunkResult.Size (results st) = map ChunkSpec.Size chunks).
    { apply nth_error_ext. intros p. rewrite !nth_error_map.
      destruct (nth_error chunks p) as [c |] eqn:Ec; cbn [option_map].
      - destruct (Hres p c Ec) as (r & Hr & _ & Hsz). rewrite Hr. cbn. congruence.
      - replace (nth_error (results st) p) with (@None ChunkResult.t); [reflexivity |].
        symmetry. apply nth_error_None. apply nth_error_None in Ec. lia. }
    unfold dispatch_finish. rewrite Hnone. eexists. eexists.
    split; [reflexivity |]. split; [reflexivity |].
    cbn [DownloadResult.Chunks]. split; [exact Hsizes |].
    match goal with
    | |- RunSummary.TotalBytes (computeStats ?res ?cfg ?o ?r ?c) = _ /\ _ =>
        destruct (computeStats_bytes res cfg o r c) as [Eb Ec]
    end.
    rewrite Eb, Ec. unfold chunkSizes. cbn [DownloadResult.Chunks].
    rewrite Hsizes, sum_sizes_map, (part_sum _ _ _ Hpart), Htlen.
    split; [| exact Hlen].
    apply Int64Facts.wrap_small.
    unfold Int64.in_range, Int64.min_int, Int64.max_int. lia.
Qed.

Lemma complete_download_witness :
  planChunks_returns 10 3 sampleChunks /\
  (forall c, In c sampleChunks ->
             serves (fun c => exchangeOf (mkBody (firstn (Z.to_nat (ChunkSpec.Size c))
                                                    [x01; x02; x03]) 0 EOF)) c) /\
  forall out bufs',
    downloadObject_returns
      (fun c => exchangeOf (mkBody (firstn (Z.to_nat (ChunkSpec.Size c)) [x01; x02; x03]) 0 EOF))
      sampleChunks None 2 77 out bufs' ->
    exists res s,
      out = (res, None) /\
      benchmarkRun (mkConfig 3 true) 10 1 2 out = RunDone s /\
      map ChunkResult.Size (DownloadResult.Chunks res) = [3; 3; 3; 1] /\
      RunSummary.TotalBytes s = 10 /\ RunSummary.ChunkCount s = 4.
Proof.
  assert (Hplan : planChunks_returns 10 3 sampleChunks) by (exists 5%nat; reflexivity).
  assert (Hserve : forall c, In c sampleChunks ->
            serves (fun c => exchangeOf (mkBody (firstn (Z.to_nat (ChunkSpec.Size c))
                                                   [x01; x02; x03]) 0 EOF)) c).
  { intros c [<- | [<- | [<- | [<- | []]]]]; eexists;
      (split; [reflexivity |]); split; reflexivity. }
  split; [exact Hplan |]. split; [exact Hserve |].
  exact (proj2 (complete_download _ 10 3 sampleChunks None 2 77 (mkConfig 3 true) 1
                  ltac:(lia) ltac:(lia) ltac:(lia) ltac:(lia) Hplan I Hserve)).
Defined.

(** *** Signs *)

Lemma ltb_zero_positive (x : float) :
  sf_positive (Prim2SF x) -> (0 <? x)%float = true.
Proof.
  rewrite ltb_spec. change (Prim2SF 0) with (S754_zero false).
  destruct (Prim2SF x) as [[|] | [|] | | [|] m e]; cbn; intros H;
    try contradiction; reflexivity.
Qed.

Lemma ltb_zero_nonpositive (x : float) :
  sf_nonpositive (Prim2SF x) -> (0 <? x)%float = false.
Proof.
  rewrite ltb_spec. change (Prim2SF 0) with (S754_zero false).
  destruct (Prim2SF x) as [[|] | [|] | | [|] m e]; cbn; intros H;
    try contradiction; reflexivity.
Qed.

(** Rounding keeps the sign it is given. *)
Lemma round_aux_signed (s : bool) (m e : Z) (l : location) :
  sf_signed s (binary_round_aux prec emax s m e l).
Proof.
  unfold binary_round_aux.
  destruct (shr_fexp prec emax m e l) as [mrs' e'].
  destruct (shr_fexp prec emax _ e' loc_Exact) as [mrs'' e''].
  destruct (shr_m mrs''); [reflexivity | | exact I].
  destruct (e'' <=? emax - prec); reflexivity.
Qed.

Lemma shr_1_m (r : shr_record) : 0 <= shr_m r -> shr_m (shr_1 r) = shr_m r / 2.
Proof.
  destruct r as [m rb sb]. cbn [shr_m]. intros Hm. unfold shr_1.
  destruct m as [| [p | p |] | p]; cbn [shr_m].
  - reflexivity.
  - apply (Z.div_unique (Z.pos p~1) 2 (Z.pos p) 1); lia.
  - apply (Z.div_unique (Z.pos p~0) 2 (Z.pos p) 0); lia.
  - reflexivity.
  - lia.
Qed.

Lemma shr_iter_m (k : positive) :
  forall r, 0 <= shr_m r -> shr_m (iter_pos shr_1 k r) = shr_m r / 2 ^ Z.pos k.
Proof.
  induction k as [k IH | k IH |]; intros r Hr; cbn [iter_pos].
  - assert (H1 : 0 <= shr_m (shr_1 r)) by (rewrite shr_1_m by exact Hr; apply Z.div_pos; lia).
    assert (H2 : 0 <= shr_m (iter_pos shr_1 k (shr_1 r)))
      by (rewrite IH by exact H1; apply Z.div_pos; [exact H1 | apply Z.pow_pos_nonneg; lia]).
    rewrite IH by exact H2. rewrite IH by exact H1. rewrite shr_1_m by exact Hr.
    assert (P : 0 < 2 ^ Z.pos k) by (apply Z.pow_pos_nonneg; lia).
    replace (2 ^ Z.pos k~1) with (2 * (2 ^ Z.pos k * 2 ^ Z.pos k)).
    2:{ rewrite <- Z.pow_add_r, <- Z.pow_succ_r by lia. f_equal. lia. }
    rewrite !Z.div_div by lia. reflexivity.
  - assert (H2 : 0 <= shr_m (iter_pos shr_1 k r))
      by (rewrite IH by exact Hr; apply Z.div_pos; [exact Hr | apply Z.pow_pos_nonneg; lia]).
    rewrite IH by exact H2. rewrite IH by exact Hr.
    assert (P : 0 < 2 ^ Z.pos k) by (apply Z.pow_pos_nonneg; lia).
    replace (2 ^ Z.pos k~0) with (2 ^ Z.pos k * 2 ^ Z.pos k).
    2:{ rewrite <- Z.pow_add_r by lia. f_equal. lia. }
    rewrite !Z.div_div by lia. reflexivity.
  - rewrite shr_1_m by exact Hr. reflexivity.
Qed.

(** Shifting a positive mantissa into the format leaves a positive
    mantissa, as long as the value is not below the smallest exponent. *)
Lemma shr_fexp_positive (p : positive) (e : Z) (l : location) :
  - 1074 < Z.pos (digits2_pos p) + e ->
  exists q, shr_m (fst (shr_fexp prec emax (Z.pos p) e l)) = Z.pos q /\
            - 1074 <= snd (shr_fexp prec emax (Z.pos p) e l).
Proof.
  intros He. unfold shr_fexp, shr. cbn [Zdigits2].
  pose proof (digits2_pos_bounds p) as [Blo Bhi].
  set (d := Z.pos (digits2_pos p)) in *.
  assert (Hm : shr_m (shr_record_of_loc (Z.pos p) l) = Z.pos p)
    by (destruct l as [| []]; reflexivity).
  destruct (fexp prec emax (d + e) - e) as [| k | k] eqn:En; cbn [fst snd].
  - exists p. split; [exact Hm |].
    unfold fexp, SpecFloat.emin, prec, emax in En. lia.
  - rewrite shr_iter_m by (rewrite Hm; lia). rewrite Hm.
    assert (Hk : Z.pos k <= d - 1)
      by (unfold fexp, SpecFloat.emin, prec, emax in En; lia).
    assert (P : 0 < 2 ^ Z.pos k) by (apply Z.pow_pos_nonneg; lia).
    assert (Hq : 1 <= Z.pos p / 2 ^ Z.pos k).
    { apply Z.div_le_lower_bound; [exact P |].
      assert (2 ^ Z.pos k <= 2 ^ (d - 1)) by (apply Z.pow_le_mono_r; lia). lia. }
    destruct (Z.pos p / 2 ^ Z.pos k) as [| q | q] eqn:Eq; try lia.
    exists q. split; [reflexivity |].
    unfold fexp, SpecFloat.emin, prec, emax in En. lia.
  - exists p. split; [exact Hm |].
    unfold fexp, SpecFloat.emin, prec, emax in En. lia.
Qed.

(** Rounding a positive mantissa of a value that is not below the smallest
    exponent gives a value that is not zero: finite or infinite, with the
    sign given. *)
Lemma round_aux_nonzero (s : bool) (p : positive) (e : Z) (l : location) :
  - 1074 < Z.pos (digits2_pos p) + e ->
  match binary_round_aux prec emax s (Z.pos p) e l with
  | S754_finite s' _ _ | S754_infinity s' => s' = s
  | _ => False
  end.
Proof.
  intros He. unfold binary_round_aux.
  destruct (shr_fexp_positive p e l He) as (q & Hq & He').
  destruct (shr_fexp prec emax (Z.pos p) e l) as [mrs' e']. cbn [fst snd] in Hq, He'.
  rewrite Hq.
  assert (Hr : exists q', round_nearest_even (Z.pos q) (loc_of_shr_record mrs') = Z.pos q').
  { unfold round_nearest_even.
    destruct (loc_of_shr_record mrs') as [| []]; try (eexists; reflexivity).
    - destruct (Z.even (Z.pos q)); eexists; reflexivity. }
  destruct Hr as [q' ->].
  destruct (shr_fexp_positive q' e' loc_Exact) as (q'' & Hq'' & _).
  { pose proof (digits2_pos_bounds q'). lia. }
  destruct (shr_fexp prec emax (Z.pos q') e' loc_Exact) as [mrs'' e''].
  cbn [fst] in Hq''. rewrite Hq''.
  destruct (e'' <=? emax - prec); reflexivity.
Qed.

Lemma binary_round_nonzero (s : bool) (p : positive) (e : Z) :
  - 1074 <= e ->
  match binary_round prec emax s p e with
  | S754_finite s' _ _ | S754_infinity s' => s' = s
  | _ => False
  end.
Proof.
  intros He. unfold binary_round, shl_align.
  pose proof (digits2_pos_bounds p) as _.
  assert (Hd : 0 < Z.pos (digits2_pos p)) by lia.
  destruct (fexp prec emax (Z.pos (digits2_pos p) + e) - e) as [| k | k] eqn:En.
  - apply round_aux_nonzero. lia.
  - apply round_aux_nonzero. lia.
  - apply round_aux_nonzero. rewrite iter_xO_digits.
    unfold fexp, SpecFloat.emin, prec, emax in *. lia.
Qed.

Lemma binary_round_signed (s : bool) (p : positive) (e : Z) :
  sf_signed s (binary_round prec emax s p e).
Proof.
  unfold binary_round. destruct (shl_align _ _ _) as [mz ez].
  apply round_aux_signed.
Qed.

Lemma signed_nonpositive (x : spec_float) : sf_signed true x -> sf_nonpositive x.
Proof. destruct x as [[|] | [|] | | [|] m e]; cbn; intros H; auto; discriminate. Qed.

Lemma finite_exponent (s : bool) (m : positive) (e : Z) :
  valid_binary (S754_finite s m e) = true -> - 1074 <= e.
Proof. cbn [valid_binary]. intros H. apply bounded_spec in H. lia. Qed.

(** The sum of two values that are not above zero is not above zero. *)
Lemma SFadd_nonpositive (x y : spec_float) :
  sf_nonpositive x -> sf_nonpositive y -> sf_nonpositive (SF64add x y).
Proof.
  unfold SF64add.
  destruct x as [[|] | [|] | | [|] mx ex], y as [[|] | [|] | | [|] my ey];
    cbn [sf_nonpositive]; intros Hx Hy; try contradiction; try exact I.
  unfold SFadd. cbn [cond_Zopp Z.opp Z.add].
  apply signed_nonpositive. cbn [binary_normalize]. apply binary_round_signed.
Qed.

(** The sum of a positive value and a value that is positive or [+0] is
    positive. *)
Lemma SFadd_positive (x y : spec_float) :
  valid_binary x = true -> valid_binary y = true ->
  (sf_positive x /\ (sf_positive y \/ y = S754_zero false)) \/
  (x = S754_zero false /\ sf_positive y) ->
  sf_positive (SF64add x y).
Proof.
  unfold SF64add. intros Vx Vy H.
  destruct x as [[|] | [|] | | [|] mx ex], y as [[|] | [|] | | [|] my ey];
    cbn [sf_positive] in H;
    try (exfalso; destruct H as [[H1 [H2 | H2]] | [H1 H2]];
         solve [contradiction | discriminate]);
    try exact I.
  unfold SFadd. cbn [cond_Zopp Z.add binary_normalize].
  pose proof (finite_exponent _ _ _ Vx). pose proof (finite_exponent _ _ _ Vy).
  pose proof (binary_round_nonzero false
                (fst (shl_align mx ex (Z.min ex ey)) + fst (shl_align my ey (Z.min ex ey)))
                (Z.min ex ey) ltac:(lia)) as Hr.
  destruct (binary_round _ _ _ _ _) as [? | [|] | | [|] ? ?];
    try contradiction; try discriminate; exact I.
Qed.

(** The quotient of two finite values with full mantissas is not zero,
    unless it lies below the smallest exponent. *)
Lemma SFdiv_nonzero (s1 s2 : bool) (m1 m2 : positive) (e1 e2 : Z) :
  Z.pos (digits2_pos m1) = 53 -> Z.pos (digits2_pos m2) = 53 ->
  - 1074 <= e1 - e2 - 53 ->
  match SF64div (S754_finite s1 m1 e1) (S754_finite s2 m2 e2) with
  | S754_finite s' _ _ | S754_infinity s' => s' = xorb s1 s2
  | _ => False
  end.
Proof.
  intros D1 D2 He. unfold SF64div, SFdiv, SFdiv_core_binary. cbn [Zdigits2].
  rewrite D1, D2.
  replace (Z.min (fexp prec emax (53 + e1 - (53 + e2))) (e1 - e2)) with (e1 - e2 - 53)
    by (unfold fexp, SpecFloat.emin, prec, emax; lia).
  replace (e1 - e2 - (e1 - e2 - 53)) with 53 by ring.
  rewrite Z.shiftl_mul_pow2 by lia.
  pose proof (digits2_pos_bounds m1) as [L1 _]. rewrite D1 in L1.
  pose proof (digits2_pos_bounds m2) as [_ H2]. rewrite D2 in H2.
  change (53 - 1) with 52 in L1.
  assert (Hq : 1 <= Z.pos m1 * 2 ^ 53 / Z.pos m2).
  { apply Z.div_le_lower_bound; lia. }
  pose proof (Z.div_mod (Z.pos m1 * 2 ^ 53) (Z.pos m2) ltac:(lia)) as Edm.
  unfold Z.div, Z.modulo in Hq, Edm.
  destruct (Z.div_eucl (Z.pos m1 * 2 ^ 53) (Z.pos m2)) as [q r].
  destruct q as [| q | q]; try lia.
  apply round_aux_nonzero. pose proof (digits2_pos_bounds q). lia.
Qed.

Lemma mant_digits (p : positive) :
  Z.pos p <= 2 ^ 53 ->
  Z.pos (digits2_pos
           (Z.to_pos (Z.pos p * 2 ^ 53 / 2 ^ Z.pos (digits2_pos p)))) = 53.
Proof.
  intros Hp. destruct (mant_spec p Hp) as [M D].
  pose proof (digits2_pos_bounds p) as [Blo Bhi].
  set (d := Z.pos (digits2_pos p)) in *.
  set (m := Z.pos (Z.to_pos (Z.pos p * 2 ^ 53 / 2 ^ d))) in *.
  assert (P : 0 < 2 ^ (d - 1)) by (apply Z.pow_pos_nonneg; lia).
  assert (E : 2 ^ d = 2 * 2 ^ (d - 1)).
  { rewrite <- Z.pow_succ_r by lia. f_equal. lia. }
  rewrite E in M, Bhi.
  apply digits2_pos_unique. change (53 - 1) with 52. fold m.
  split.
  - apply (Z.mul_le_mono_pos_r _ _ (2 * 2 ^ (d - 1))); [lia |].
    rewrite M. change (2 ^ 53) with (2 ^ 52 * 2). nia.
  - apply (Z.mul_lt_mono_pos_r (2 * 2 ^ (d - 1))); [lia |].
    rewrite M. nia.
Qed.

(** The fraction [float64 (nsec) / 1e9] of [Seconds] has the sign of [nsec]. *)
Lemma nanos_sign (nsec : Z) :
  - 1000000000 < nsec < 1000000000 ->
  let y := Prim2SF (Float64.of_int64 nsec / 1e9)%float in
  (0 < nsec -> sf_positive y) /\
  (nsec = 0 -> y = S754_zero false) /\
  (nsec < 0 -> sf_nonpositive y).
Proof.
  intros Hn y. subst y. rewrite div_spec.
  change (Prim2SF 1e9) with (S754_finite false 8388608000000000 (-23)).
  rewrite of_int64_exact by lia.
  destruct nsec as [| p | p]; (split; [| split]); try lia; intros _.
  - reflexivity.
  - pose proof (SFdiv_nonzero false false
                  (Z.to_pos (Z.pos p * 2 ^ 53 / 2 ^ Z.pos (digits2_pos p)))
                  8388608000000000 (Z.pos (digits2_pos p) - 53) (-23)
                  (mant_digits p ltac:(lia)) eq_refl ltac:(lia)) as H.
    cbn [exact_sf].
    destruct (SF64div _ _) as [? | [|] | | [|] ? ?];
      try contradiction; try discriminate; exact I.
  - pose proof (SFdiv_nonzero true false
                  (Z.to_pos (Z.pos p * 2 ^ 53 / 2 ^ Z.pos (digits2_pos p)))
                  8388608000000000 (Z.pos (digits2_pos p) - 53) (-23)
                  (mant_digits p ltac:(lia)) eq_refl ltac:(lia)) as H.
    cbn [exact_sf].
    destruct (SF64div _ _) as [? | [|] | | [|] ? ?];
      try contradiction; try discriminate; exact I.
Qed.

(** [d.Seconds ()] is above zero exactly when [d] is. *)
Lemma Seconds_sign (d : Z) :
  Int64.in_range d -> (0 <? Seconds d)%float = (0 <? d).
Proof.
  unfold Int64.in_range, Int64.min_int, Int64.max_int. intros Hd.
  unfold Seconds.
  set (sec := Z.quot d 1000000000). set (nsec := Z.rem d 1000000000).
  pose proof (Z.quot_rem' d 1000000000) as E. fold sec nsec in E.
  set (x := Float64.of_int64 sec). set (y := (Float64.of_int64 nsec / 1e9)%float).
  destruct (Z.ltb_spec 0 d) as [Hpos | Hneg].
  - pose proof (Z.rem_bound_pos d 1000000000 ltac:(lia) ltac:(lia)) as Hr.
    fold nsec in Hr.
    assert (Hs : 0 <= sec < 2 ^ 53) by lia.
    destruct (nanos_sign nsec ltac:(lia)) as (Hy1 & Hy2 & _). fold y in Hy1, Hy2.
    apply ltb_zero_positive. rewrite add_spec.
    apply SFadd_positive; try apply Prim2SF_valid.
    subst x. rewrite of_int64_exact by lia.
    destruct sec as [| p | p]; [| | lia].
    + right. split; [reflexivity |]. apply Hy1. lia.
    + left. split; [exact I |].
      destruct (Z.eq_dec nsec 0) as [H0 | H0]; [right; auto | left; apply Hy1; lia].
  - pose proof (Z.rem_bound_pos_neg d 1000000000 ltac:(lia) Hneg) as Hr.
    fold nsec in Hr.
    assert (Hs : - 2 ^ 53 < sec <= 0) by lia.
    destruct (nanos_sign nsec ltac:(lia)) as (_ & Hy2 & Hy3). fold y in Hy2, Hy3.
    apply ltb_zero_nonpositive. rewrite add_spec.
    apply SFadd_nonpositive.
    + subst x. rewrite of_int64_exact by lia. destruct sec; try lia; exact I.
    + destruct (Z.eq_dec nsec 0) as [H0 | H0]; [rewrite (Hy2 H0); exact I | apply Hy3; lia].
Qed.

(** X16: the throughput of a run and the sign of its elapsed time. For a
    total time in the [int64] range, the guard [elapsed > 0] on the
    [float64] seconds holds exactly when the total time is above zero. So a
    total time of zero or less gives a throughput of [0.0] in both units,
    and a positive total time gives
    [float64 (totalBytes) / 2^20 / elapsed] MB/s and
    [float64 (totalBytes) / 2^30 / elapsed] GB/s. *)
Theorem computeStats_throughput (result : DownloadResult.t) (cfg : Config)
    (objectSize runNumber concurrency : Z) :
  Int64.in_range (DownloadResult.TotalTime result) ->
  let s := computeStats result cfg objectSize runNumber concurrency in
  let elapsed := Seconds (DownloadResult.TotalTime result) in
  let bytes := Float64.of_int64 (RunSummary.TotalBytes s) in
  (DownloadResult.TotalTime result <= 0 ->
   RunSummary.ThroughputMB s = 0%float /\ RunSummary.ThroughputGB s = 0%float) /\
  (0 < DownloadResult.TotalTime result ->
   (0 <? elapsed)%float = true /\
   RunSummary.ThroughputMB s = (bytes / 1048576 / elapsed)%float /\
   RunSummary.ThroughputGB s = (bytes / 1073741824 / elapsed)%float).
Proof.
  intros Hrange s elapsed bytes. subst s bytes elapsed.
  pose proof (Seconds_sign _ Hrange) as Hsign.
  unfold computeStats. rewrite collect_spec. cbv beta iota zeta.
  rewrite Hsign.
  destruct (Z.ltb_spec 0 (DownloadResult.TotalTime result)) as [Hpos | Hneg];
    destruct (0 <? Z.of_nat _);
    cbn [RunSummary.ThroughputMB RunSummary.ThroughputGB RunSummary.TotalBytes];
    (split; [intros H | intros H]); try lia; repeat split.
Qed.

Lemma computeStats_throughput_witness :
  let result := DownloadResult.mk [ChunkResult.mk 0 1048576 0 5 1000 None] 2000000000 5 in
  let s := computeStats result (mkConfig 1048576 true) 1048576 1 1 in
  Int64.in_range 2000000000 /\
  RunSummary.ThroughputMB s = (1 / 2)%float /\
  RunSummary.ThroughputGB s = (1 / 2048)%float.
Proof.
  intros result s.
  assert (Hr : Int64.in_range (DownloadResult.TotalTime result))
    by (unfold Int64.in_range, Int64.min_int, Int64.max_int; cbn; lia).
  split; [exact Hr |].
  destruct (computeStats_throughput result (mkConfig 1048576 true) 1048576 1 1 Hr)
    as [_ H]. destruct (H ltac:(cbn; lia)) as (_ & Hmb & Hgb).
  fold s in Hmb, Hgb. rewrite Hmb, Hgb. split; reflexivity.
Defined.

(** *** The percentile indices *)

Lemma ranks_agree_upto_spec (k : nat) :
  forall n0 n, ranks_agree_upto k n0 = true -> n0 <= n < n0 + Z.of_nat k ->
               ranks_agree n = true.
Proof.
  induction k as [| k IH]; intros n0 n H Hn; [lia |].
  cbn [ranks_agree_upto] in H. apply andb_true_iff in H as [H0 H1].
  destruct (Z.eq_dec n n0) as [-> | Hne]; [exact H0 |].
  apply (IH (n0 + 1)); [exact H1 | lia].
Qed.

(** X17: for up to a thousand chunks the index that [percentile] computes
    in [float64], [int (math.Ceil (p / 100 * n)) - 1], is the exact
    nearest-rank index [ceil (p * n / 100) - 1] for each of the three
    percentiles reported: the rounding of [p / 100] and of the product never
    moves the rank. *)
Theorem percentileIndex_nearest_rank (n : Z) :
  1 <= n <= 1000 ->
  percentileIndex 50 n = nearestRank 50 n /\
  percentileIndex 95 n = nearestRank 95 n /\
  percentileIndex 99 n = nearestRank 99 n.
Proof.
  intros Hn.
  assert (H : ranks_agree_upto 1000 1 = true) by (vm_compute; reflexivity).
  pose proof (ranks_agree_upto_spec 1000 1 n H ltac:(lia)) as Hr.
  unfold ranks_agree in Hr.
  apply andb_true_iff in Hr as [Hr H99]. apply andb_true_iff in Hr as [H50 H95].
  apply Z.eqb_eq in H50, H95, H99. auto.
Qed.

Lemma percentileIndex_nearest_rank_witness :
  1 <= 160 <= 1000 /\
  percentileIndex 50 160 = 79 /\ percentileIndex 95 160 = 151 /\
  percentileIndex 99 160 = 158.
Proof.
  split; [lia |].
  exact (percentileIndex_nearest_rank 160 ltac:(lia)).
Defined.

(** ** The bar chart *)

(** A finite value other than zero, divided by itself, is exactly 1. *)
Lemma div_self (x : float) (s : bool) (m : positive) (e : Z) :
  Prim2SF x = S754_finite s m e -> (x / x)%float = 1%float.
Proof.
  intros E. apply Prim2SF_inj. rewrite div_spec, E.
  unfold SF64div, SFdiv, SFdiv_core_binary. cbn [Zdigits2].
  replace (Z.pos (digits2_pos m) + e - (Z.pos (digits2_pos m) + e)) with 0 by ring.
  replace (e - e) with 0 by ring.
  change (Z.min (fexp prec emax 0) 0) with (-53). change (0 - -53) with 53.
  rewrite Z.shiftl_mul_pow2 by lia.
  rewrite (Z.mul_comm (Z.pos m)), div_eucl_exact by lia.
  rewrite xorb_nilpotent.
  unfold new_location, new_location_even, new_location_odd.
  cbn [Z.eqb]. destruct (Z.even (Z.pos m)); reflexivity.
Qed.

(** Dividing a value that is not above zero by [0.0], and scaling, gives
    nothing that converts to an integer above the smallest. *)
Lemma bar_of_nothing (mean : float) :
  (0 <? mean)%float = false ->
  Float64.to_int64 (mean / 0 * 40)%float = Int64.min_int.
Proof.
  intros H. unfold Float64.to_int64. rewrite mul_spec, div_spec.
  rewrite ltb_spec in H.
  change (Prim2SF 0) with (S754_zero false) in *.
  change (Prim2SF 40) with (S754_finite false 5629499534213120 (-47)).
  destruct (Prim2SF mean) as [[|] | [|] | | [|] m e];
    try discriminate H; reflexivity.
Qed.

Lemma repeatChar_length (ch n : Z) : Z.of_nat (length (repeatChar ch n)) = Z.max 0 n.
Proof.
  unfold repeatChar. destruct (Z.leb_spec n 0); [cbn; lia |].
  rewrite repeat_length. lia.
Qed.

(** X18: the bars of the comparison report. A line of the chart has
    [barWidth = 40] cells, unless its bar is longer than that. When no sweep
    has a mean throughput above zero, [bestMean] stays [0.0], every quotient
    [mean / bestMean] is NaN or [-Inf], and every line is one full block
    followed by 39 shaded cells. When some sweep has a positive mean and
    [bestMean] is finite, the line of the best sweep is 40 full blocks:
    [bestMean / bestMean] is exactly 1. *)
Theorem report_bars (sweeps : list ConcurrencySweep.t) :
  let bestMean := fst (bestSweep sweeps) in
  (forall sw, In sw sweeps ->
     Z.of_nat (length (chartBar (meanOf sw) bestMean))
     = Z.max barWidth (barLength (meanOf sw) bestMean)) /\
  ((forall sw, In sw sweeps -> (0 <? meanOf sw)%float = false) ->
   forall sw, In sw sweeps ->
     chartBar (meanOf sw) bestMean = fullBlock :: repeat lightShade 39) /\
  ((exists sw, In sw sweeps /\ (0 <? meanOf sw)%float = true) ->
   forall s m e, Prim2SF bestMean = S754_finite s m e ->
   exists sw, nth_error sweeps (bestIdx sweeps) = Some sw /\
              chartBar (meanOf sw) bestMean = repeat fullBlock 40).
Proof.
  intros bestMean.
  assert (Hcases := best_inv_fold sweeps [] (0%float, 0%nat, 0%nat)).
  cbn [app] in Hcases.
  assert (H0 : best_inv [] (0%float, 0%nat, 0%nat)).
  { cbn. split; [reflexivity |]. split; [reflexivity |].
    split; [intros ? [] |]. left. split; [reflexivity |]. split; [reflexivity |].
    intros ? []. }
  specialize (Hcases H0). subst bestMean. unfold bestIdx, bestSweep.
  destruct (fold_left bestSweep_step sweeps (0%float, 0%nat, 0%nat)) as [[bm idx] i].
  cbn [fst snd]. destruct Hcases as (_ & _ & Hmax & Hcase).
  split; [| split].
  - intros sw _. unfold chartBar. rewrite length_app, Nat2Z.inj_add, !repeatChar_length.
    unfold barLength, barWidth.
    destruct (Float64.to_int64 _ <? 1) eqn:E; [lia |]. apply Z.ltb_ge in E. lia.
  - intros Hnone sw Hin.
    destruct Hcase as [(-> & _ & _) | (b & Hb & Hm & Hgt & _)].
    + unfold chartBar, barLength. rewrite bar_of_nothing by (apply Hnone; exact Hin).
      reflexivity.
    + exfalso. apply nth_error_In in Hb. rewrite <- Hm, (Hnone b Hb) in Hgt.
      discriminate.
  - intros (sw0 & Hin0 & Hpos0) s m e Efin.
    destruct Hcase as [(_ & _ & Hnone) | (b & Hb & Hm & Hgt & _)].
    + rewrite (Hnone sw0 Hin0) in Hpos0. discriminate.
    + exists b. split; [exact Hb |]. rewrite Hm.
      unfold chartBar, barLength. rewrite (div_self bm s m e Efin). reflexivity.
Qed.

(** ** The progress counter *)

(** Reading through a [countingReader] reads the same bytes, and the
    counter advances by their number. *)
Lemma counted_ReadAtLeast_loop (fuel : nat) :
  forall (r : Body) (c : Z) (bufLen min : nat) (got : list byte) (err : option GoError),
    Int64.in_range c ->
    match io_ReadAtLeast_loop fuel (mkCountingReader r c) bufLen min got err,
          io_ReadAtLeast_loop fuel r bufLen min got err with
    | Some (g1, e1, cr), Some (g2, e2, _) =>
        g1 = g2 /\ e1 = e2 /\
        cr_counter cr = Int64.wrap (c + (Z.of_nat (length g1) - Z.of_nat (length got)))
    | None, None => True
    | _, _ => False
    end.
Proof.
  induction fuel as [| fuel IH]; intros r c bufLen min got err Hc; [exact I |].
  cbn [io_ReadAtLeast_loop].
  destruct err as [e |].
  - cbn [cr_counter]. rewrite Z.sub_diag, Z.add_0_r, Int64Facts.wrap_small by exact Hc. auto.
  - destruct (length got <? min)%nat.
    + unfold Reader_Read at 1 2, countingReader_Reader, countingReader_Read, Body_Reader.
      cbn [cr_r cr_counter]. unfold Reader_Read, Body_Reader.
      destruct (Read r (bufLen - length got)) as [[bs e] r'].
      set (c' := if 0 <? Z.of_nat (length bs) then Int64.add c (Z.of_nat (length bs)) else c).
      assert (Hc' : Int64.in_range c' /\ c' = Int64.wrap (c + Z.of_nat (length bs))).
      { subst c'. destruct (Z.ltb_spec 0 (Z.of_nat (length bs))).
        - split; [apply Int64Facts.wrap_in_range | reflexivity].
        - replace (Z.of_nat (length bs)) with 0 by lia.
          rewrite Z.add_0_r, Int64Facts.wrap_small by exact Hc. auto. }
      destruct Hc' as [Hr Hv].
      specialize (IH r' c' bufLen min (got ++ bs) e Hr).
      destruct (io_ReadAtLeast_loop fuel (mkCountingReader r' c') _ _ _ _) as [[[g1 e1] cr] |];
        destruct (io_ReadAtLeast_loop fuel r' _ _ _ _) as [[[g2 e2] r2] |]; auto.
      destruct IH as (Hg & He & Hcnt). split; [exact Hg |]. split; [exact He |].
      rewrite Hcnt, Hv, wrap_add_wrap, length_app. f_equal. lia.
    + cbn [cr_counter]. rewrite Z.sub_diag, Z.add_0_r, Int64Facts.wrap_small by exact Hc. auto.
Qed.

(** The generic loop over a body is the loop of [ReadAtLeast]. *)
Lemma io_ReadAtLeast_loop_Body (fuel : nat) :
  forall (r : Body) (bufLen min : nat) (got : list byte) (err : option GoError),
    option_map fst (io_ReadAtLeast_loop fuel r bufLen min got err)
    = ReadAtLeast_loop fuel r bufLen min got err.
Proof.
  induction fuel as [| fuel IH]; intros r bufLen min got err; [reflexivity |].
  cbn [io_ReadAtLeast_loop ReadAtLeast_loop].
  destruct err; [reflexivity |]. destruct (length got <? min)%nat; [| reflexivity].
  unfold Reader_Read, Body_Reader.
  destruct (Read r (bufLen - length got)) as [[bs e] r']. apply IH.
Qed.

Lemma counter_step (c n : Z) :
  Int64.in_range c -> 0 <= n ->
  let c' := if 0 <? n then Int64.add c n else c in
  Int64.in_range c' /\ c' = Int64.wrap (c + n).
Proof.
  intros Hc Hn c'. subst c'. destruct (Z.ltb_spec 0 n).
  - split; [apply Int64Facts.wrap_in_range | reflexivity].
  - replace n with 0 by lia.
    rewrite Z.add_0_r, Int64Facts.wrap_small by exact Hc. auto.
Qed.

Lemma countingReader_Read_Body (r : Body) (c : Z) (k : nat) :
  Reader_Read (mkCountingReader r c) k
  = let '(bs, err, r') := Read r k in
    (bs, err,
     mkCountingReader r'
       (if 0 <? Z.of_nat (length bs)
        then Int64.add c (Z.of_nat (length bs)) else c)).
Proof. reflexivity. Qed.

Lemma counted_Copy_discard_loop (fuel : nat) :
  forall (r : Body) (c n : Z),
    Int64.in_range c -> (length (pending r) + 1 <= fuel)%nat ->
    exists cr,
      io_Copy_discard_loop fuel (mkCountingReader r c) n
      = Some (Int64.wrap (n + Z.of_nat (length (pending r))),
              (if is_EOF (ending r) then None else Some (ending r)), cr) /\
      cr_counter cr = Int64.wrap (c + Z.of_nat (length (pending r))).
Proof.
  induction fuel as [| fuel IH]; intros r c n Hc Hfuel; [lia |].
  cbn [io_Copy_discard_loop]. rewrite countingReader_Read_Body. unfold Read.
  destruct (pending r) as [| b p] eqn:Hp.
  - cbv beta iota zeta. cbn [length Z.of_nat Z.ltb Z.compare]. unfold Int64.add.
    eexists. split; [destruct (ending r); reflexivity |].
    cbn [cr_counter]. rewrite Z.add_0_r, Int64Facts.wrap_small by exact Hc. reflexivity.
  - set (k := Nat.min discardBufferLen (Nat.min (S (burst r)) (length (b :: p)))).
    assert (Hk : (1 <= k <= length (b :: p))%nat).
    { subst k. assert (1 <= discardBufferLen)%nat by (unfold discardBufferLen; lia).
      cbn [length]. lia. }
    cbv beta iota zeta.
    destruct (counter_step c (Z.of_nat (length (firstn k (b :: p)))) Hc ltac:(lia))
      as [Hr Hv].
    set (c' := if 0 <? Z.of_nat (length (firstn k (b :: p)))
               then Int64.add c (Z.of_nat (length (firstn k (b :: p)))) else c) in *.
    clearbody c'.
    destruct (IH {| pending := skipn k (b :: p); burst := burst r; ending := ending r |}
                c' (Int64.add n (Z.of_nat (length (firstn k (b :: p))))) Hr)
      as (cr & Hloop & Hcnt).
    { cbn [pending]. rewrite length_skipn. cbn [length] in *. lia. }
    exists cr. rewrite Hloop. cbn [pending ending] in *.
    rewrite length_skipn, length_firstn in *. unfold Int64.add.
    rewrite wrap_add_wrap. split.
    + f_equal. f_equal. f_equal. f_equal. lia.
    + rewrite Hcnt, Hv, wrap_add_wrap. f_equal. lia.
Qed.

(** [io.ReadFull] over a body, through the generic loop. *)
Lemma io_ReadFull_Body (r : Body) (k : nat) :
  exists r',
    io_ReadFull (S (S (length (pending r)))) r k
    = Some (fst (ReadFull_outcome r k), snd (ReadFull_outcome r k), r').
Proof.
  pose proof (ReadFull_eq r k) as E. unfold ReadFull, ReadAtLeast in E.
  rewrite Nat.ltb_irrefl in E.
  rewrite <- io_ReadAtLeast_loop_Body in E. unfold io_ReadFull.
  destruct (io_ReadAtLeast_loop _ r k k [] None) as [[[got err] r'] |];
    cbn [option_map fst] in E; [| discriminate].
  exists r'.
  destruct (k <=? length got)%nat.
  - injection E as <-. reflexivity.
  - destruct got as [| b g]; [injection E as <-; reflexivity |].
    destruct err as [[] |]; injection E as <-; reflexivity.
Qed.

(** The same through a [countingReader]: the same outcome, and the counter
    advanced by the number of bytes read. *)
Lemma io_ReadFull_counted (r : Body) (c : Z) (k : nat) :
  Int64.in_range c ->
  exists cr,
    io_ReadFull (S (S (length (pending r)))) (mkCountingReader r c) k
    = Some (fst (ReadFull_outcome r k), snd (ReadFull_outcome r k), cr) /\
    cr_counter cr
    = Int64.wrap (c + Z.of_nat (Nat.min k (length (pending r)))).
Proof.
  intros Hc.
  pose proof (counted_ReadAtLeast_loop (S (S (length (pending r)))) r c k k [] None Hc) as S.
  destruct (io_ReadFull_Body r k) as [r' E]. unfold io_ReadFull in *.
  destruct (io_ReadAtLeast_loop _ r k k [] None) as [[[g2 e2] r2] |]; [| discriminate].
  destruct (io_ReadAtLeast_loop _ (mkCountingReader r c) k k [] None)
    as [[[g1 e1] cr] |]; [| contradiction].
  destruct S as (-> & -> & Hcnt). exists cr.
  assert (Hlen : length g2 = Nat.min k (length (pending r))).
  { assert (L : length (fst (ReadFull_outcome r k)) = Nat.min k (length (pending r))).
    { unfold ReadFull_outcome.
      destruct (Nat.leb_spec k (length (pending r))); cbn [fst].
      - rewrite length_firstn. lia.
      - lia. }
    rewrite <- L.
    destruct (k <=? length g2)%nat; [injection E as <- _ _; reflexivity |].
    destruct g2 as [| b g]; [injection E as <- _ _; reflexivity |].
    destruct e2 as [[] |]; injection E as <- _ _; reflexivity. }
  split.
  - destruct (k <=? length g2)%nat; [injection E as <- <- _; reflexivity |].
    destruct g2 as [| b g]; [injection E as <- <- _; reflexivity |].
    destruct e2 as [[] |]; injection E as <- <- _; reflexivity.
  - rewrite Hcnt, Hlen. cbn [length]. f_equal. lia.
Qed.

Lemma io_Copy_discard_loop_Body (fuel : nat) :
  forall (r : Body) (n : Z),
    option_map fst (io_Copy_discard_loop fuel r n) = Copy_discard_loop fuel r n.
Proof.
  induction fuel as [| fuel IH]; intros r n; [reflexivity |].
  cbn [io_Copy_discard_loop Copy_discard_loop]. unfold Reader_Read, Body_Reader.
  destruct (Read r discardBufferLen) as [[bs e] r'].
  destruct e as [[] |]; try reflexivity. apply IH.
Qed.

(** X19: the progress counter changes no result. With the body wrapped
    in a [countingReader], [downloadChunk] returns the same result and
    leaves the same output buffers as without it (and panics in the same
    cases), and the counter has advanced, in [int64] arithmetic, by exactly
    the number of bytes taken from the body: at most [chunk.Size] in capture
    mode, the whole body in discard mode, also when the read then fails,
    and none when the request itself fails. *)
Theorem downloadChunk_progress (x : Exchange) (chunk : ChunkSpec.t)
    (bufs : OutBufs) (progress : option Z) :
  (forall c, progress = Some c -> Int64.in_range c) ->
  downloadChunk_counted x chunk bufs progress
  = match downloadChunk x chunk bufs with
    | Some (res, bufs') =>
        Some (res, bufs',
              option_map (fun c => Int64.wrap (c + consumed x chunk bufs)) progress)
    | None => None
    end.
Proof.
  intros Hrange. unfold downloadChunk_counted, downloadChunk, consumed.
  destruct (response x) as [err | body].
  - destruct progress as [c |]; cbn [option_map]; [| reflexivity].
    rewrite Z.add_0_r, Int64Facts.wrap_small by (apply Hrange; reflexivity).
    reflexivity.
  - destruct bufs as [slots |].
    + destruct (ChunkSpec.Size chunk <? 0); [reflexivity |].
      rewrite ReadFull_eq. cbv zeta.
      destruct progress as [c |]; cbn [option_map].
      * destruct (io_ReadFull_counted body c (Z.to_nat (ChunkSpec.Size chunk))
                    (Hrange c eq_refl)) as (cr & -> & ->).
        destruct (ReadFull_outcome body _) as [got [e |]]; cbn [fst snd].
        -- destruct (negb (is_ErrUnexpectedEOF e)); [reflexivity |].
           destruct (slice_set _ _ _); reflexivity.
        -- destruct (slice_set _ _ _); reflexivity.
      * destruct (io_ReadFull_Body body (Z.to_nat (ChunkSpec.Size chunk))) as (r' & ->).
        destruct (ReadFull_outcome body _) as [got [e |]]; cbn [fst snd].
        -- destruct (negb (is_ErrUnexpectedEOF e)); [reflexivity |].
           destruct (slice_set _ _ _); reflexivity.
        -- destruct (slice_set _ _ _); reflexivity.
    + rewrite Copy_discard_eq. unfold Copy_discard_outcome. cbv zeta.
      destruct progress as [c |]; cbn [option_map].
      * destruct (counted_Copy_discard_loop (S (S (length (pending body)))) body c 0
                    (Hrange c eq_refl) ltac:(lia)) as (cr & -> & ->).
        cbn [Z.add]. destruct (is_EOF (ending body)); reflexivity.
      * pose proof (io_Copy_discard_loop_Body (S (S (length (pending body)))) body 0) as E.
        rewrite Copy_discard_loop_spec in E by lia. cbn [Z.add] in E.
        destruct (io_Copy_discard_loop _ body 0) as [[[n e] r'] |];
          cbn [option_map fst] in E; [| discriminate].
        injection E as -> ->. destruct (is_EOF (ending body)); reflexivity.
Qed.

Lemma downloadChunk_progress_witness :
  Int64.in_range 100 /\
  downloadChunk_counted (exchangeOf longBody) chunk5 (Some [[]]) (Some 100)
  = Some (doneResult 0 5 1000 5 9, Some [[x01; x02; x03; x04; x05]], Some 105) /\
  downloadChunk_counted (exchangeOf brokenBody) chunk5 None (Some 100)
  = Some (failedResult 0 1000 5 (DrainingBodyFailed 0 (TransportError 104)),
          None, Some 102).
Proof.
  assert (Hr : forall c, Some 100 = Some c -> Int64.in_range c).
  { intros c [= <-]. unfold Int64.in_range, Int64.min_int, Int64.max_int. lia. }
  split; [apply Hr; reflexivity |]. split.
  - rewrite (downloadChunk_progress (exchangeOf longBody) chunk5 (Some [[]]) (Some 100) Hr).
    reflexivity.
  - rewrite (downloadChunk_progress (exchangeOf brokenBody) chunk5 None (Some 100) Hr).
    reflexivity.
Defined.

(** * Configuration *)

(** ** Decimal numbers *)

Lemma byteZ_byteOfZ (z : Z) : byteZ (byteOfZ z) = z mod 256.
Proof.
  unfold byteZ, byteOfZ.
  pose proof (Z.mod_pos_bound z 256 ltac:(lia)) as Hb.
  destruct (Byte.of_N (Z.to_N (z mod 256))) as [b |] eqn:E.
  - apply Byte.to_of_N in E. rewrite E. lia.
  - exfalso. apply Byte.of_N_None_iff in E. lia.
Qed.

Lemma formatUint_spec (fuel : nat) :
  forall u acc, 0 <= u < 10 ^ Z.of_nat fuel -> (1 <= fuel)%nat ->
    exists ds, formatUint fuel u acc = ds ++ acc /\ Forall isDigit ds /\
               ds <> [] /\ decValue ds = u /\ (length ds <= fuel)%nat.
Proof.
  induction fuel as [| fuel IH]; intros u acc Hu Hfuel.
  - lia.
  - cbn [formatUint]. destruct (Z.ltb_spec u 10) as [Hlt | Hge].
    + exists [byteOfZ (48 + u)].
      assert (E : byteZ (byteOfZ (48 + u)) = 48 + u)
        by (rewrite byteZ_byteOfZ; apply Z.mod_small; lia).
      split; [reflexivity |]. split; [repeat constructor; unfold isDigit; lia |].
      split; [discriminate |]. split; [| cbn; lia].
      unfold decValue. cbn [fold_left]. lia.
    + rewrite Nat2Z.inj_succ, Z.pow_succ_r in Hu by lia.
      pose proof (Z.div_mod u 10 ltac:(lia)) as Edm.
      pose proof (Z.mod_pos_bound u 10 ltac:(lia)) as Hm.
      destruct (IH (u / 10) (byteOfZ (48 + u mod 10) :: acc)) as (ds & E & Hd & Hne & Hv & Hl).
      { split; [apply Z.div_pos; lia | apply Z.div_lt_upper_bound; lia]. }
      { destruct fuel; [cbn in Hu; lia | lia]. }
      exists (ds ++ [byteOfZ (48 + u mod 10)]).
      assert (Eb : byteZ (byteOfZ (48 + u mod 10)) = 48 + u mod 10)
        by (rewrite byteZ_byteOfZ; apply Z.mod_small; lia).
      split; [rewrite E, <- app_assoc; reflexivity |].
      split; [apply Forall_app; split; [exact Hd | repeat constructor; unfold isDigit; lia] |].
      split; [destruct ds; discriminate |].
      split; [| rewrite length_app; cbn [length]; lia].
      unfold decValue in *. rewrite fold_left_app. cbn [fold_left]. rewrite Hv. lia.
Qed.

Lemma digitValue_digit (b : byte) : isDigit b -> digitValue b = Some (byteZ b - 48).
Proof.
  unfold isDigit, digitValue. intros H.
  rewrite Z.mod_small by lia.
  destruct (Z.gtb_spec (byteZ b - 48) 9); [lia | reflexivity].
Qed.

Lemma atoi_digits_spec (ds : GoString) :
  Forall isDigit ds ->
  forall n, atoi_digits ds n = Some (fold_left (fun n b => n * 10 + (byteZ b - 48)) ds n).
Proof.
  induction 1 as [| b ds Hb _ IH]; intros n; [reflexivity |].
  cbn [atoi_digits fold_left]. rewrite digitValue_digit by exact Hb. apply IH.
Qed.

Lemma fold_digits_lower (ds : GoString) :
  Forall isDigit ds ->
  forall n, 0 <= n -> n <= fold_left (fun n b => n * 10 + (byteZ b - 48)) ds n.
Proof.
  induction 1 as [| b ds Hb _ IH]; intros n Hn; [cbn; lia |].
  cbn [fold_left]. unfold isDigit in Hb.
  specialize (IH (n * 10 + (byteZ b - 48)) ltac:(lia)). lia.
Qed.

Lemma ParseUint_loop_spec (ds : GoString) :
  Forall isDigit ds ->
  forall n, 0 <= n ->
    fold_left (fun n b => n * 10 + (byteZ b - 48)) ds n <= 2 ^ 63 ->
    ParseUint_loop ds n
    = (fold_left (fun n b => n * 10 + (byteZ b - 48)) ds n, None).
Proof.
  induction 1 as [| b ds Hb Hds IH]; intros n Hn Hmax; [reflexivity |].
  cbn [ParseUint_loop fold_left] in *. unfold isDigit in Hb.
  replace ((48 <=? byteZ b) && (byteZ b <=? 57)) with true
    by (symmetry; apply andb_true_iff; split; apply Z.leb_le; lia).
  pose proof (fold_digits_lower ds Hds (n * 10 + (byteZ b - 48)) ltac:(lia)) as Hlow.
  unfold maxUint64.
  destruct (Z.geb_spec n ((2 ^ 64 - 1) / 10 + 1)) as [Hc | Hc].
  { change ((2 ^ 64 - 1) / 10 + 1) with 1844674407370955162 in Hc. lia. }
  destruct (Z.gtb_spec (n * 10 + (byteZ b - 48)) (2 ^ 64 - 1)); [lia |].
  apply IH; lia.
Qed.

Lemma digit_not_sign (b : byte) : isDigit b -> isSign b = false /\ Byte.eqb b "-"%byte = false.
Proof.
  unfold isDigit, isSign, byteZ.
  destruct b; cbn; intros H; try lia; split; reflexivity.
Qed.

(** [Atoi] reads back what [%d] prints. *)
Lemma Atoi_Sprintf_d (v : Z) :
  0 <= v <= Int64.max_int -> Atoi (Sprintf_d v) = (v, None).
Proof.
  unfold Int64.max_int. intros Hv. unfold Sprintf_d.
  replace (v <? 0) with false by (symmetry; apply Z.ltb_ge; lia).
  destruct (formatUint_spec 20 v []) as (ds & E & Hd & Hne & Hval & Hlen).
  { change (10 ^ Z.of_nat 20) with 100000000000000000000. lia. }
  { lia. }
  rewrite E, app_nil_r.
  destruct ds as [| d0 ds']; [contradiction |].
  assert (H0 : isDigit d0) by (inversion Hd; assumption).
  destruct (digit_not_sign d0 H0) as [Hs Hm].
  unfold Atoi.
  destruct ((0 <? length (d0 :: ds'))%nat && (length (d0 :: ds') <? 19)%nat).
  - unfold Atoi_fast. rewrite Hs, Hm.
    rewrite atoi_digits_spec by exact Hd. fold (decValue (d0 :: ds')).
    rewrite Hval. reflexivity.
  - unfold ParseInt. rewrite Hs, Hm. unfold ParseUint.
    rewrite ParseUint_loop_spec; [| exact Hd | lia |].
    + fold (decValue (d0 :: ds')). rewrite Hval. cbn [negb andb].
      destruct (Z.geb_spec v (2 ^ 63)); [lia |].
      rewrite Int64Facts.wrap_small; [reflexivity |].
      unfold Int64.in_range, Int64.min_int, Int64.max_int. lia.
    + fold (decValue (d0 :: ds')). rewrite Hval. lia.
Qed.

(** What [%d] prints for a number that is not negative: digits, at least
    one. *)
Lemma Sprintf_d_digits (v : Z) :
  0 <= v <= Int64.max_int ->
  Forall isDigit (Sprintf_d v) /\ Sprintf_d v <> [].
Proof.
  unfold Int64.max_int. intros Hv. unfold Sprintf_d.
  replace (v <? 0) with false by (symmetry; apply Z.ltb_ge; lia).
  destruct (formatUint_spec 20 v []) as (ds & E & Hd & Hne & _).
  { change (10 ^ Z.of_nat 20) with 100000000000000000000. lia. }
  { lia. }
  rewrite E, app_nil_r. auto.
Qed.

(** ** White space and separators *)

Lemma string_eqb_eq (s t : GoString) : string_eqb s t = true <-> s = t.
Proof.
  revert t. induction s as [| a s IH]; intros [| b t]; cbn [string_eqb];
    try (split; [discriminate | discriminate]); [split; reflexivity |].
  rewrite andb_true_iff, IH. split.
  - intros [H1 ->]. apply Byte.byte_dec_bl in H1. subst. reflexivity.
  - intros [= -> ->]. split; [apply Byte.byte_dec_lb; reflexivity | reflexivity].
Qed.

Lemma HasPrefix_head (d : byte) (rest sp : GoString) :
  HasPrefix (d :: rest) sp = true -> sp = [] \/ exists sp', sp = d :: sp'.
Proof.
  destruct sp as [| c sp']; [auto |]. cbn [HasPrefix].
  intros H. apply andb_true_iff in H as [H _]. apply Byte.byte_dec_bl in H.
  right. exists sp'. congruence.
Qed.

Lemma HasSuffix_last (ds : GoString) (d : byte) (sp : GoString) :
  HasSuffix (ds ++ [d]) sp = true -> sp = [] \/ exists sp', sp = sp' ++ [d].
Proof.
  unfold HasSuffix. intros H. apply andb_true_iff in H as [_ H].
  apply string_eqb_eq in H.
  destruct sp as [| c sp0 _] using rev_ind; [auto |]. right. exists sp0.
  pose proof (firstn_skipn (length (ds ++ [d]) - length (sp0 ++ [c])) (ds ++ [d])) as E.
  rewrite H, app_assoc in E. apply app_inj_tail in E as [_ ->]. reflexivity.
Qed.

(** No space rune starts or ends with a decimal digit. *)
Lemma spaceRunes_no_digit (sp : GoString) (d : byte) :
  In sp spaceRunes -> isDigit d ->
  (forall sp', sp <> d :: sp') /\ (forall sp', sp <> sp' ++ [d]).
Proof.
  intros Hin Hd. unfold isDigit, byteZ in Hd.
  assert (Hhd : forall b sp', sp = b :: sp' -> ~ 48 <= Z.of_N (Byte.to_N b) <= 57).
  { intros b sp' ->. unfold spaceRunes in Hin. cbn [In] in Hin.
    repeat (destruct Hin as [Hin | Hin];
            [injection Hin as <- _; cbn; lia |]).
    destruct Hin. }
  assert (Hlast : forall b sp', sp = sp' ++ [b] -> ~ 48 <= Z.of_N (Byte.to_N b) <= 57).
  { intros b sp' ->. unfold spaceRunes in Hin. cbn [In] in Hin.
    repeat (destruct Hin as [Hin | Hin];
            [apply (f_equal (@rev byte)) in Hin; rewrite rev_app_distr in Hin;
             cbn [rev app] in Hin; injection Hin as <- _; cbn; lia |]).
    destruct Hin. }
  split; intros sp' ->; [eapply Hhd | eapply Hlast]; eauto.
Qed.

Lemma afterSpace_digit (d : byte) (rest : GoString) :
  isDigit d -> afterSpace (d :: rest) = None.
Proof.
  intros Hd. unfold afterSpace.
  destruct (find (HasPrefix (d :: rest)) spaceRunes) as [sp |] eqn:E; [| reflexivity].
  apply find_some in E as [Hin Hp]. exfalso.
  destruct (spaceRunes_no_digit sp d Hin Hd) as [H1 _].
  destruct (HasPrefix_head _ _ _ Hp) as [-> | [sp' ->]].
  - unfold spaceRunes in Hin. cbn [In] in Hin.
    repeat (destruct Hin as [Hin | Hin]; [discriminate Hin |]). destruct Hin.
  - eapply H1; reflexivity.
Qed.

Lemma beforeSpace_digit (ds : GoString) (d : byte) :
  isDigit d -> beforeSpace (ds ++ [d]) = None.
Proof.
  intros Hd. unfold beforeSpace.
  destruct (find (HasSuffix (ds ++ [d])) spaceRunes) as [sp |] eqn:E; [| reflexivity].
  apply find_some in E as [Hin Hp]. exfalso.
  destruct (spaceRunes_no_digit sp d Hin Hd) as [_ H2].
  destruct (HasSuffix_last _ _ _ Hp) as [-> | [sp' ->]].
  - unfold spaceRunes in Hin. cbn [In] in Hin.
    repeat (destruct Hin as [Hin | Hin]; [discriminate Hin |]). destruct Hin.
  - eapply H2; reflexivity.
Qed.

(** A string of digits has no white space to trim, and a space before it
    is trimmed. *)
Lemma TrimSpace_digits (s : GoString) :
  Forall isDigit s -> s <> [] ->
  TrimSpace s = s /\ TrimSpace (x20 :: s) = s.
Proof.
  intros Hd Hne.
  assert (Hl : forall fuel, trimLeft fuel s = s).
  { intros [| fuel]; [reflexivity |]. cbn [trimLeft].
    destruct s as [| d rest]; [contradiction |].
    rewrite afterSpace_digit by (inversion Hd; assumption). reflexivity. }
  assert (Hr : forall fuel, trimRight fuel s = s).
  { intros [| fuel]; [reflexivity |]. cbn [trimRight].
    destruct s as [| d ds _] using rev_ind; [contradiction |].
    rewrite beforeSpace_digit; [reflexivity |].
    apply Forall_app in Hd as [_ Hd]. inversion Hd; assumption. }
  unfold TrimSpace. split.
  - rewrite Hl. apply Hr.
  - cbn [length trimLeft].
    replace (afterSpace (x20 :: s)) with (Some s) by reflexivity.
    rewrite Hl. apply Hr.
Qed.

Lemma Split_no_sep (p : GoString) (sep : byte) :
  Forall (fun b => Byte.eqb b sep = false) p -> Split p sep = [p].
Proof.
  induction 1 as [| b p Hb _ IH]; [reflexivity |].
  cbn [Split]. rewrite Hb, IH. reflexivity.
Qed.

Lemma Split_app (p s : GoString) (sep : byte) :
  Forall (fun b => Byte.eqb b sep = false) p ->
  Split (p ++ sep :: s) sep = p :: Split s sep.
Proof.
  induction 1 as [| b p Hb _ IH]; cbn [app Split].
  - replace (Byte.eqb sep sep) with true
      by (symmetry; apply Byte.byte_dec_lb; reflexivity).
    reflexivity.
  - rewrite Hb, IH. reflexivity.
Qed.

Lemma digit_not_comma (b : byte) : isDigit b -> Byte.eqb b ","%byte = false.
Proof.
  unfold isDigit, byteZ. intros H.
  destruct (Byte.eqb b ","%byte) eqn:E; [| reflexivity].
  apply Byte.byte_dec_bl in E. subst b. cbn in H. lia.
Qed.

(** ** The concurrency list *)

Lemma parseConcurrency_loop_printed (l : list Z) :
  Forall (fun v => 1 <= v <= Int64.max_int) l ->
  forall acc,
    parseConcurrency_loop (map (fun v => x20 :: Sprintf_d v) l) acc = inl (acc ++ l).
Proof.
  induction 1 as [| v l Hv _ IH]; intros acc; cbn [map parseConcurrency_loop].
  - rewrite app_nil_r. reflexivity.
  - destruct (Sprintf_d_digits v ltac:(lia)) as [Hd Hne].
    destruct (TrimSpace_digits _ Hd Hne) as [_ ->].
    destruct (Sprintf_d v) as [| d ds] eqn:E; [contradiction |].
    rewrite <- E, Atoi_Sprintf_d by lia.
    replace (v <? 1) with false by (symmetry; apply Z.ltb_ge; lia).
    rewrite IH, <- app_assoc. reflexivity.
Qed.

Lemma Split_Join_printed (v : Z) (l : list Z) :
  Forall (fun v => 1 <= v <= Int64.max_int) (v :: l) ->
  Split (Join (map Sprintf_d (v :: l)) (bytes ", ")) ","%byte
  = Sprintf_d v :: map (fun v => x20 :: Sprintf_d v) l.
Proof.
  revert v. induction l as [| w l IH]; intros v Hall.
  - cbn [map Join]. apply Split_no_sep.
    inversion Hall as [| ? ? Hv _]; subst.
    destruct (Sprintf_d_digits v ltac:(lia)) as [Hd _].
    eapply Forall_impl; [| exact Hd]. apply digit_not_comma.
  - inversion Hall as [| ? ? Hv Hrest]; subst.
    destruct (Sprintf_d_digits v ltac:(lia)) as [Hd _].
    change (Join (map Sprintf_d (v :: w :: l)) (bytes ", "))
      with (Sprintf_d v ++ ","%byte :: x20 :: Join (map Sprintf_d (w :: l)) (bytes ", ")).
    rewrite Split_app by (eapply Forall_impl; [| exact Hd]; apply digit_not_comma).
    f_equal. cbn [Split]. change (Byte.eqb x20 ","%byte) with false.
    rewrite (IH w Hrest). reflexivity.
Qed.

(** X20: a concurrency list that the banner prints is read back unchanged.
    For a non-empty list of worker counts between 1 and the largest [int],
    the decimal numbers joined by a comma and a space parse, through the
    loop of [parseConfig], to the same list; and [formatConcurrencyList]
    prints exactly that text, followed by " workers" for one value and by
    " workers (sweep)" for several. *)
Theorem concurrency_roundtrip (l : list Z) :
  l <> [] -> Forall (fun v => 1 <= v <= Int64.max_int) l ->
  let printed := Join (map Sprintf_d l) (bytes ", ") in
  parseConcurrency printed = inl l /\
  formatConcurrencyList l
  = printed ++ match l with
               | [_] => bytes " workers"
               | _ => bytes " workers (sweep)"
               end.
Proof.
  intros Hne Hall printed. subst printed. split.
  - destruct l as [| v l]; [contradiction |].
    unfold parseConcurrency. rewrite Split_Join_printed by exact Hall.
    inversion Hall as [| ? ? Hv Hrest]; subst.
    cbn [parseConcurrency_loop].
    destruct (Sprintf_d_digits v ltac:(lia)) as [Hd Hne'].
    destruct (TrimSpace_digits _ Hd Hne') as [-> _].
    destruct (Sprintf_d v) as [| d ds] eqn:E; [contradiction |].
    rewrite <- E, Atoi_Sprintf_d by lia.
    replace (v <? 1) with false by (symmetry; apply Z.ltb_ge; lia).
    rewrite parseConcurrency_loop_printed by exact Hrest. reflexivity.
  - unfold formatConcurrencyList. destruct l as [| v [| w l]]; reflexivity.
Qed.

Lemma concurrency_roundtrip_witness :
  Forall (fun v => 1 <= v <= Int64.max_int) [8; 16; 32] /\
  parseConcurrency (bytes "8, 16, 32") = inl [8; 16; 32] /\
  formatConcurrencyList [8; 16; 32] = bytes "8, 16, 32 workers (sweep)".
Proof.
  assert (H : Forall (fun v => 1 <= v <= Int64.max_int) [8; 16; 32]).
  { repeat constructor; unfold Int64.max_int; lia. }
  split; [exact H |].
  exact (concurrency_roundtrip [8; 16; 32] ltac:(discriminate) H).
Defined.

(** ** Byte sizes *)

Lemma HasSuffix_skipn (upper k : GoString) :
  HasSuffix upper k = true ->
  k = skipn (length upper - length k) upper /\ (length k <= length upper)%nat.
Proof.
  unfold HasSuffix. intros H. apply andb_true_iff in H as [Hl H].
  apply string_eqb_eq in H. apply Nat.leb_le in Hl. split; [symmetry; exact H | exact Hl].
Qed.

Lemma suffixLoop_spec (upper s : GoString) (keys : list GoString) :
  forall suffix numStr,
    suffixLoop keys upper s suffix numStr =
      let m := longestMatch keys upper in
      if (m <=? length suffix)%nat then Some (suffix, numStr)
      else if (length s <? m)%nat then None
      else Some (skipn (length upper - m) upper,
                 TrimSpace (firstn (length s - m) s)).
Proof.
  induction keys as [| k rest IH]; intros suffix numStr; cbv zeta.
  - reflexivity.
  - cbn [suffixLoop longestMatch fold_right]. fold (longestMatch rest upper).
    set (m := longestMatch rest upper) in *.
    destruct (HasSuffix upper k) eqn:Hk; cbn [andb].
    + apply HasSuffix_skipn in Hk as [Ek Hlen].
      destruct (length suffix <? length k)%nat eqn:Hlt.
      * apply Nat.ltb_lt in Hlt.
        replace (Nat.max (length k) m <=? length suffix)%nat with false
          by (symmetry; apply Nat.leb_gt; lia).
        destruct (length s <? length k)%nat eqn:Hs.
        -- apply Nat.ltb_lt in Hs.
           replace (length s <? Nat.max (length k) m)%nat with true
             by (symmetry; apply Nat.ltb_lt; lia).
           reflexivity.
        -- apply Nat.ltb_ge in Hs. rewrite IH. cbv zeta.
           destruct (m <=? length k)%nat eqn:Hm.
           ++ apply Nat.leb_le in Hm.
              replace (Nat.max (length k) m) with (length k) by lia.
              replace (length s <? length k)%nat with false
                by (symmetry; apply Nat.ltb_ge; lia).
              rewrite <- Ek. reflexivity.
           ++ apply Nat.leb_gt in Hm.
              replace (Nat.max (length k) m) with m by lia. reflexivity.
      * apply Nat.ltb_ge in Hlt. rewrite IH. cbv zeta.
        destruct (m <=? length suffix)%nat eqn:Hm.
        -- apply Nat.leb_le in Hm.
           replace (Nat.max (length k) m <=? length suffix)%nat with true
             by (symmetry; apply Nat.leb_le; lia).
           reflexivity.
        -- apply Nat.leb_gt in Hm.
           replace (Nat.max (length k) m) with m by lia.
           replace (m <=? length suffix)%nat with false
             by (symmetry; apply Nat.leb_gt; lia).
           reflexivity.
    + apply IH.
Qed.

Lemma longestMatch_perm (upper : GoString) (keys keys' : list GoString) :
  Permutation keys keys' -> longestMatch keys upper = longestMatch keys' upper.
Proof.
  induction 1 as [| k l l' _ IH | k k' l | l l' l'' _ IH1 _ IH2].
  - reflexivity.
  - cbn [longestMatch fold_right]. fold (longestMatch l upper) (longestMatch l' upper).
    rewrite IH. reflexivity.
  - cbn [longestMatch fold_right]. fold (longestMatch l upper).
    destruct (HasSuffix upper k), (HasSuffix upper k'); lia.
  - congruence.
Qed.

(** X21: the size that [parseByteSize] returns does not depend on the order
    in which the run time iterates over [suffixMap]. Whatever
    [strings.ToUpper] does outside ASCII and whatever [fmt.Sscanf] reads,
    two orders of the same keys give the same result, the same error or the
    same panic: among the keys that end the upper-cased text the loop
    settles on the longest, and two of them of equal length are equal. *)
Theorem parseByteSize_any_order (Map_ToUpper : GoString -> GoString)
    (Sscanf_f : GoString -> option float) (keys keys' : list GoString)
    (s : GoString) :
  Permutation keys keys' ->
  parseByteSize Map_ToUpper Sscanf_f keys s
  = parseByteSize Map_ToUpper Sscanf_f keys' s.
Proof.
  intros Hp. unfold parseByteSize.
  rewrite !suffixLoop_spec, (longestMatch_perm _ _ _ Hp). reflexivity.
Qed.

Lemma parseByteSize_any_order_witness :
  Permutation (rev suffixKeys) suffixKeys /\
  parseByteSize (fun s => s)
    (fun numStr => if string_eqb numStr (bytes "64") then Some 64%float else None)
    (rev suffixKeys) (bytes "64 mib")
  = Some (67108864, None).
Proof.
  assert (Hp : Permutation (rev suffixKeys) suffixKeys)
    by (symmetry; apply Permutation_rev).
  split; [exact Hp |].
  rewrite (parseByteSize_any_order _ _ _ _ _ Hp). vm_compute. reflexivity.
Defined.

(** ** [parseConfig] *)

Lemma atoi_digits_bound (s : GoString) :
  forall n0 n, 0 <= n0 -> atoi_digits s n0 = Some n ->
    0 <= n < (n0 + 1) * 10 ^ Z.of_nat (length s).
Proof.
  induction s as [| ch rest IH]; intros n0 n Hn0; cbn [atoi_digits].
  - intros [= <-]. cbn. lia.
  - unfold digitValue.
    pose proof (Z.mod_pos_bound (byteZ ch - 48) 256 ltac:(lia)) as Hd.
    destruct (Z.gtb_spec ((byteZ ch - 48) mod 256) 9) as [| Hle]; [discriminate |].
    intros H. apply IH in H; [| lia].
    cbn [length]. rewrite Nat2Z.inj_succ, Z.pow_succ_r by lia. nia.
Qed.

Lemma Atoi_range (s : GoString) (n : Z) :
  Atoi s = (n, None) -> Int64.in_range n.
Proof.
  unfold Atoi.
  destruct ((0 <? length s)%nat && (length s <? 19)%nat) eqn:Hlen.
  - apply andb_true_iff in Hlen as [_ Hlen]. apply Nat.ltb_lt in Hlen.
    unfold Atoi_fast. destruct s as [| s0 rest]; [discriminate |].
    set (digits := if isSign s0 then rest else s0 :: rest).
    assert (Hd : (length digits <= 18)%nat).
    { subst digits. destruct (isSign s0); cbn [length] in *; lia. }
    destruct digits as [| d ds] eqn:E; [discriminate |]. rewrite <- E in *.
    destruct (atoi_digits digits 0) as [m |] eqn:Em; [| discriminate].
    apply atoi_digits_bound in Em; [| lia].
    assert (Hp : 10 ^ Z.of_nat (length digits) <= 10 ^ 18)
      by (apply Z.pow_le_mono_r; lia).
    intros [= <-]. unfold Int64.in_range, Int64.min_int, Int64.max_int.
    destruct (Byte.eqb s0 "-"%byte); lia.
  - unfold ParseInt. destruct s as [| s0 rest]; [discriminate |]. cbv zeta.
    destruct (ParseUint _) as [un [[|] |]];
      [discriminate | |];
      destruct (negb (Byte.eqb s0 "-"%byte) && (un >=? 2 ^ 63)); try discriminate;
      destruct (Byte.eqb s0 "-"%byte && (un >? 2 ^ 63)); try discriminate;
      intros [= <-]; destruct (Byte.eqb s0 "-"%byte); apply Int64Facts.wrap_in_range.
Qed.

Lemma parseConcurrency_loop_bounds (parts : list GoString) :
  forall acc l,
    Forall (fun n => 1 <= n <= Int64.max_int) acc ->
    parseConcurrency_loop parts acc = inl l ->
    Forall (fun n => 1 <= n <= Int64.max_int) l.
Proof.
  induction parts as [| part rest IH]; intros acc l Hacc; cbn [parseConcurrency_loop].
  - intros [= <-]. exact Hacc.
  - destruct (TrimSpace part) as [| p0 p] eqn:Ep; [apply IH; exact Hacc |].
    destruct (Atoi (p0 :: p)) as [n [e |]] eqn:Ea; [discriminate |].
    destruct (Z.ltb_spec n 1) as [| Hn]; [discriminate |].
    apply IH. apply Forall_app. split; [exact Hacc |].
    constructor; [| constructor].
    apply Atoi_range in Ea. unfold Int64.in_range in Ea. lia.
Qed.

Lemma parseConcurrency_bounds (raw : GoString) (l : list Z) :
  parseConcurrency raw = inl l ->
  l <> [] /\ Forall (fun n => 1 <= n <= Int64.max_int) l.
Proof.
  unfold parseConcurrency.
  destruct (parseConcurrency_loop (Split raw ","%byte) []) as [l0 | e] eqn:E;
    [| discriminate].
  apply parseConcurrency_loop_bounds in E; [| constructor].
  destruct l0 as [| n l0]; [discriminate |].
  intros [= <-]. split; [discriminate | exact E].
Qed.

Lemma to_int64_in_range (f : float) : Int64.in_range (Float64.to_int64 f).
Proof.
  unfold Float64.to_int64, Int64.in_range.
  destruct (Float64.truncate (Prim2SF f)) as [v |];
    [destruct ((Int64.min_int <=? v) && (v <=? Int64.max_int)) eqn:E |];
    try (unfold Int64.min_int, Int64.max_int; lia).
  apply andb_true_iff in E as [E1 E2]. apply Z.leb_le in E1, E2. lia.
Qed.

Lemma lookup_Forall (P : Z -> Prop) (m : list (GoString * Z)) (k : GoString) (v : Z) :
  Forall (fun kv => P (snd kv)) m -> lookup m k = Some v -> P v.
Proof.
  induction 1 as [| [k' v'] m Hkv _ IH]; cbn [lookup]; [discriminate |].
  destruct (string_eqb k' k); [intros [= <-]; exact Hkv | exact IH].
Qed.

Lemma parseByteSize_in_range (Map_ToUpper : GoString -> GoString)
    (Sscanf_f : GoString -> option float) (keys : list GoString)
    (s : GoString) (v : Z) :
  parseByteSize Map_ToUpper Sscanf_f keys s = Some (v, None) -> Int64.in_range v.
Proof.
  unfold parseByteSize.
  destruct (TrimSpace s) as [| c s']; [discriminate |].
  destruct (lookup namedSizes _) as [v0 |] eqn:El.
  - intros [= <-]. revert El. apply lookup_Forall.
    repeat constructor; cbn; unfold Int64.min_int, Int64.max_int; lia.
  - destruct (suffixLoop _ _ _ _ _) as [[suffix numStr] |]; [| discriminate].
    destruct suffix; cbv beta iota zeta;
      [| destruct numStr as [| n0 numStr]; [discriminate |]];
      (destruct (Sscanf_f _) as [value |]; [| discriminate]);
      (destruct (value <=? 0)%float; [discriminate |]);
      intros [= <-]; apply to_int64_in_range.
Qed.

(** X22: what an accepted configuration guarantees. When [parseConfig]
    returns a configuration, the bucket and the key are not empty, the
    concurrency list is not empty and each of its entries is at least 1,
    [Runs] is at least 1, [ChunkSize] is at least 1, each within [int]
    and [int64], and [DiscardOutput] is set exactly when no output file is
    named: the two output modes exclude each other and one of them is on. *)
Theorem parseConfig_accepted (Map_ToUpper : GoString -> GoString)
    (Sscanf_f : GoString -> option float) (keys : list GoString)
    (flags : Flags.t) (cfg : Cfg.t) :
  parseConfig Map_ToUpper Sscanf_f keys flags = Some (inl cfg) ->
  Cfg.Bucket cfg <> [] /\
  Cfg.Key cfg <> [] /\
  Cfg.ConcurrencyList cfg <> [] /\
  Forall (fun n => 1 <= n <= Int64.max_int) (Cfg.ConcurrencyList cfg) /\
  1 <= Cfg.Runs cfg /\
  1 <= Cfg.ChunkSize cfg <= Int64.max_int /\
  (Cfg.DiscardOutput cfg = true <-> Cfg.OutputFile cfg = []).
Proof.
  unfold parseConfig.
  destruct (Flags.bucket flags) as [| b0 b] eqn:Eb; [discriminate |].
  destruct (Flags.key flags) as [| k0 k] eqn:Ek; [discriminate |].
  destruct (parseConcurrency (Flags.concurrency flags)) as [l | e] eqn:Ec;
    [| discriminate].
  apply parseConcurrency_bounds in Ec as [Hne Hall].
  destruct (Z.ltb_spec (Flags.runs flags) 1) as [| Hruns]; [discriminate |].
  assert (Hsize : forall discard,
    match parseByteSize Map_ToUpper Sscanf_f keys (Flags.chunkSize flags) with
    | Some (chunkSize, None) =>
        if chunkSize <? 1 then Some (inr ChunkSizeNotPositive)
        else Some (inl {| Cfg.Endpoint := Flags.endpoint flags;
                          Cfg.Bucket := b0 :: b;
                          Cfg.Key := k0 :: k;
                          Cfg.Region := Flags.region flags;
                          Cfg.Profile := Flags.profile flags;
                          Cfg.AccessKeyID := Flags.accessKeyID flags;
                          Cfg.SecretAccessKey := Flags.secretAccessKey flags;
                          Cfg.ChunkSize := chunkSize;
                          Cfg.ConcurrencyList := l;
                          Cfg.Runs := Flags.runs flags;
                          Cfg.DiscardOutput := discard;
                          Cfg.OutputFile := Flags.output flags;
                          Cfg.JSONOutput := Flags.json flags |})
    | Some (_, Some err) => Some (inr (ChunkSizeInvalid err))
    | None => None
    end = Some (inl cfg) ->
    Cfg.DiscardOutput cfg = discard /\ Cfg.OutputFile cfg = Flags.output flags /\
    Cfg.Bucket cfg <> [] /\ Cfg.Key cfg <> [] /\ Cfg.ConcurrencyList cfg = l /\
    1 <= Cfg.Runs cfg /\ 1 <= Cfg.ChunkSize cfg <= Int64.max_int).
  { intros discard.
    destruct (parseByteSize _ _ _ _) as [[v [err |]] |] eqn:Ep; try discriminate.
    apply parseByteSize_in_range in Ep. unfold Int64.in_range in Ep.
    destruct (Z.ltb_spec v 1); [discriminate |].
    intros [= <-]. cbn. unfold Int64.min_int, Int64.max_int in *. repeat split; try discriminate; try reflexivity; lia. }
  destruct (Flags.discard flags), (Flags.output flags) as [| o0 o] eqn:Eo;
    try discriminate; intros H; apply Hsize in H;
    destruct H as (Hd & Ho & HB & HK & HL & HR & HC1 & HC2); rewrite Hd, Ho, HL;
    cbv beta iota; repeat split; try assumption; intros; congruence.
Qed.

Lemma parseConfig_accepted_witness :
  let flags :=
    {| Flags.endpoint := []; Flags.bucket := bytes "bench"; Flags.key := bytes "blob";
       Flags.region := bytes "us-east-1"; Flags.profile := bytes "impossible";
       Flags.accessKeyID := []; Flags.secretAccessKey := [];
       Flags.chunkSize := bytes "64MB"; Flags.concurrency := bytes "8";
       Flags.runs := 1; Flags.discard := false; Flags.output := [];
       Flags.json := false |} in
  let cfg :=
    {| Cfg.Endpoint := []; Cfg.Bucket := bytes "bench"; Cfg.Key := bytes "blob";
       Cfg.Region := bytes "us-east-1"; Cfg.Profile := bytes "impossible";
       Cfg.AccessKeyID := []; Cfg.SecretAccessKey := [];
       Cfg.ChunkSize := 67108864; Cfg.ConcurrencyList := [8];
       Cfg.Runs := 1; Cfg.DiscardOutput := true; Cfg.OutputFile := [];
       Cfg.JSONOutput := false |} in
  let scan := fun numStr : GoString =>
    if string_eqb numStr (bytes "64") then Some 64%float else None in
  parseConfig (fun s => s) scan suffixKeys flags = Some (inl cfg) /\
  Forall (fun n => 1 <= n <= Int64.max_int) (Cfg.ConcurrencyList cfg) /\
  (Cfg.DiscardOutput cfg = true <-> Cfg.OutputFile cfg = []).
Proof.
  intros flags cfg scan.
  assert (H : parseConfig (fun s => s) scan suffixKeys flags = Some (inl cfg))
    by (vm_compute; reflexivity).
  split; [exact H |].
  destruct (parseConfig_accepted _ _ _ _ _ H) as (_ & _ & _ & Hall & _ & _ & Hout).
  split; [exact Hall | exact Hout].
Defined.

(** ** Sizes with a unit *)

(** Shifting right by [k] a mantissa that ends in [k] zeros loses nothing. *)
Lemma shr_iter_exact (k : positive) :
  forall z, 0 <= z ->
    iter_pos shr_1 k {| shr_m := z * 2 ^ Z.pos k; shr_r := false; shr_s := false |}
    = {| shr_m := z; shr_r := false; shr_s := false |}.
Proof.
  assert (H1 : forall z, 0 <= z ->
            shr_1 {| shr_m := z * 2; shr_r := false; shr_s := false |}
            = {| shr_m := z; shr_r := false; shr_s := false |}).
  { intros [| p | p] Hz; [reflexivity | | lia].
    replace (Z.pos p * 2) with (Z.pos p~0) by lia. reflexivity. }
  induction k as [k IH | k IH |]; intros z Hz; cbn [iter_pos].
  - replace (z * 2 ^ Z.pos k~1) with (z * 2 ^ Z.pos k * 2 ^ Z.pos k * 2).
    + assert (P : 0 < 2 ^ Z.pos k) by (apply Z.pow_pos_nonneg; lia).
      rewrite H1 by nia. rewrite IH by nia. apply IH. exact Hz.
    + assert (E : Z.pos k~1 = Z.pos k + Z.pos k + 1) by lia.
      rewrite E, !Z.pow_add_r, Z.pow_1_r by lia. ring.
  - replace (z * 2 ^ Z.pos k~0) with (z * 2 ^ Z.pos k * 2 ^ Z.pos k).
    + assert (P : 0 < 2 ^ Z.pos k) by (apply Z.pow_pos_nonneg; lia).
      rewrite IH by nia. apply IH. exact Hz.
    + assert (E : Z.pos k~0 = Z.pos k + Z.pos k) by lia.
      rewrite E, Z.pow_add_r by lia. ring.
  - rewrite Z.pow_1_r. apply H1. exact Hz.
Qed.

(** The product of a binary64 value with a full mantissa and a power of two
    is exact, as long as the exponent stays in range. *)
Lemma SFmul_pow2 (s : bool) (m : positive) (e k : Z) :
  Z.pos (digits2_pos m) = 53 ->
  - 1074 <= e + k <= 971 ->
  SFmul prec emax (S754_finite s m e) (S754_finite false 4503599627370496 (k - 52))
  = S754_finite s m (e + k).
Proof.
  intros Hd He. cbn [SFmul]. rewrite xorb_false_r.
  pose proof (digits2_pos_bounds m) as [Blo Bhi]. rewrite Hd in Blo, Bhi.
  assert (Em : Z.pos (m * 4503599627370496) = Z.pos m * 2 ^ 52) by (rewrite Pos2Z.inj_mul; reflexivity).
  assert (Hdm : Z.pos (digits2_pos (m * 4503599627370496)) = 105).
  { apply digits2_pos_unique. rewrite Em.
    change (2 ^ (105 - 1)) with (2 ^ 52 * 2 ^ 52). change (2 ^ 105) with (2 ^ 53 * 2 ^ 52).
    change (2 ^ (53 - 1)) with (2 ^ 52) in Blo. lia. }
  unfold binary_round_aux, shr_fexp. cbn [Zdigits2 shr_record_of_loc].
  rewrite Hdm. unfold fexp, emin.
  change (3 - emax - prec) with (- 1074). change (Z.of_nat 0) with 0.
  replace (Z.max (105 + (e + (k - 52)) - prec) (- 1074) - (e + (k - 52))) with 52
    by (change prec with 53; lia).
  cbn [shr]. rewrite Em.
  change (Z.pos 52) with 52 at 1.
  rewrite (shr_iter_exact 52 (Z.pos m)) by lia.
  cbn [shr_m loc_of_shr_record round_nearest_even Zdigits2 shr_record_of_loc].
  rewrite Hd.
  replace (Z.max (53 + (e + (k - 52) + 52) - prec) (- 1074) - (e + (k - 52) + 52)) with 0
    by (change prec with 53; lia).
  cbn [shr shr_m].
  replace (e + (k - 52) + 52) with (e + k) by ring.
  replace (e + k <=? emax - prec) with true
    by (symmetry; apply Z.leb_le; change (emax - prec) with 971; lia).
  reflexivity.
Qed.

(** [int64 (float64 (n) * float64 (2^k))] is [n * 2^k], for an [n] that
    binary64 holds exactly and a product within [int64]. *)
Lemma to_int64_mul_pow2 (n k : Z) :
  1 <= n <= 2 ^ 53 -> 0 <= k <= 62 ->
  Prim2SF (Float64.of_int64 (2 ^ k)) = S754_finite false 4503599627370496 (k - 52) ->
  n * 2 ^ k <= Int64.max_int ->
  Float64.to_int64 (Float64.of_int64 n * Float64.of_int64 (2 ^ k))%float = n * 2 ^ k.
Proof.
  intros Hn Hk Ek Hmax. unfold Float64.to_int64.
  rewrite mul_spec, Ek, of_int64_exact by lia.
  destruct n as [| p | p]; try lia. cbn [exact_sf]. cbv zeta.
  destruct (mant_spec p ltac:(lia)) as [M D]. cbv zeta in M, D.
  pose proof (mant_digits p ltac:(lia)) as Hd.
  set (d := Z.pos (digits2_pos p)) in *.
  set (m := Z.to_pos (Z.pos p * 2 ^ 53 / 2 ^ d)) in *.
  clearbody m. clearbody d.
  unfold SF64mul. rewrite SFmul_pow2; [| exact Hd | destruct D, Hk; split; lia].
  cbn [Float64.truncate].
  assert (P : 0 < 2 ^ k) by (apply Z.pow_pos_nonneg; lia).
  assert (V : (if 0 <=? d - 53 + k then Z.pos m * 2 ^ (d - 53 + k)
               else Z.pos m / 2 ^ (- (d - 53 + k))) = Z.pos p * 2 ^ k).
  { destruct (Z.leb_spec 0 (d - 53 + k)) as [Hge | Hlt].
    - destruct (Z_le_gt_dec d 53) as [Hd53 | Hd53].
      + replace (2 ^ 53) with (2 ^ (53 - d) * 2 ^ d) in M
          by (rewrite <- Z.pow_add_r by lia; f_equal; lia).
        assert (Pd : 0 < 2 ^ d) by (apply Z.pow_pos_nonneg; lia).
        assert (Em : Z.pos m = Z.pos p * 2 ^ (53 - d)) by nia.
        rewrite Em, <- Z.mul_assoc, <- Z.pow_add_r by lia.
        do 2 f_equal. lia.
      + assert (d = 54) by lia. subst d.
        replace (2 ^ 54) with (2 * 2 ^ 53) in M by reflexivity.
        assert (Em : Z.pos p = Z.pos m * 2) by lia.
        rewrite Em. replace (54 - 53 + k) with (Z.succ k) by lia.
        rewrite Z.pow_succ_r by lia. ring.
    - replace (2 ^ 53) with (2 ^ k * 2 ^ (- (d - 53 + k)) * 2 ^ d) in M
        by (rewrite <- !Z.pow_add_r by lia; f_equal; lia).
      assert (Pd : 0 < 2 ^ d) by (apply Z.pow_pos_nonneg; lia).
      assert (Pq : 0 < 2 ^ (- (d - 53 + k))) by (apply Z.pow_pos_nonneg; lia).
      assert (Em : Z.pos m = Z.pos p * 2 ^ k * 2 ^ (- (d - 53 + k))) by nia.
      rewrite Em, Z.div_mul by lia. reflexivity. }
  rewrite V.
  replace ((Int64.min_int <=? Z.pos p * 2 ^ k) && (Z.pos p * 2 ^ k <=? Int64.max_int))
    with true; [reflexivity |].
  symmetry. apply andb_true_iff. split; apply Z.leb_le; [unfold Int64.min_int; nia | exact Hmax].
Qed.

(** *** White space around printing bytes *)

Lemma spaceRunes_no_graph (sp : GoString) (c : byte) :
  In sp spaceRunes -> isGraph c ->
  sp <> [] /\ (forall sp', sp <> c :: sp') /\ (forall sp', sp <> sp' ++ [c]).
Proof.
  intros Hin Hc. unfold isGraph, byteZ in Hc.
  assert (Hhd : forall b sp', sp = b :: sp' -> ~ 33 <= Z.of_N (Byte.to_N b) <= 126).
  { intros b sp' ->. unfold spaceRunes in Hin. cbn [In] in Hin.
    repeat (destruct Hin as [Hin | Hin];
            [injection Hin as <- _; cbn; lia |]).
    destruct Hin. }
  assert (Hlast : forall b sp', sp = sp' ++ [b] -> ~ 33 <= Z.of_N (Byte.to_N b) <= 126).
  { intros b sp' ->. unfold spaceRunes in Hin. cbn [In] in Hin.
    repeat (destruct Hin as [Hin | Hin];
            [apply (f_equal (@rev byte)) in Hin; rewrite rev_app_distr in Hin;
             cbn [rev app] in Hin; injection Hin as <- _; cbn; lia |]).
    destruct Hin. }
  split; [| split].
  - intros ->. unfold spaceRunes in Hin. cbn [In] in Hin.
    repeat (destruct Hin as [Hin | Hin]; [discriminate Hin |]). destruct Hin.
  - intros sp' ->. eapply Hhd; eauto.
  - intros sp' ->. eapply Hlast; eauto.
Qed.

Lemma afterSpace_graph (c : byte) (rest : GoString) :
  isGraph c -> afterSpace (c :: rest) = None.
Proof.
  intros Hc. unfold afterSpace.
  destruct (find (HasPrefix (c :: rest)) spaceRunes) as [sp |] eqn:E; [| reflexivity].
  apply find_some in E as [Hin Hp]. exfalso.
  destruct (spaceRunes_no_graph sp c Hin Hc) as (H0 & H1 & _).
  destruct (HasPrefix_head _ _ _ Hp) as [-> | [sp' ->]];
    [apply H0 | eapply H1]; reflexivity.
Qed.

Lemma beforeSpace_graph (s : GoString) (c : byte) :
  isGraph c -> beforeSpace (s ++ [c]) = None.
Proof.
  intros Hc. unfold beforeSpace.
  destruct (find (HasSuffix (s ++ [c])) spaceRunes) as [sp |] eqn:E; [| reflexivity].
  apply find_some in E as [Hin Hp]. exfalso.
  destruct (spaceRunes_no_graph sp c Hin Hc) as (H0 & _ & H2).
  destruct (HasSuffix_last _ _ _ Hp) as [-> | [sp' ->]];
    [apply H0 | eapply H2]; reflexivity.
Qed.

Lemma HasSuffix_single (s : GoString) (c c' : byte) :
  HasSuffix (s ++ [c]) [c'] = Byte.eqb c c'.
Proof.
  unfold HasSuffix. rewrite length_app. cbn [length].
  replace (1 <=? length s + 1)%nat with true by (symmetry; apply Nat.leb_le; lia).
  replace (length s + 1 - 1)%nat with (length s + 0)%nat by lia.
  rewrite skipn_app, skipn_all2 by lia.
  replace (length s + 0 - length s)%nat with 0%nat by lia.
  cbn [app skipn string_eqb andb]. apply andb_true_r.
Qed.

Lemma beforeSpace_space (s : GoString) : beforeSpace (s ++ [x20]) = Some s.
Proof.
  unfold beforeSpace, spaceRunes. cbn [find].
  rewrite !HasSuffix_single.
  change (Byte.eqb x20 x09) with false. change (Byte.eqb x20 x0a) with false.
  change (Byte.eqb x20 x0b) with false. change (Byte.eqb x20 x0c) with false.
  change (Byte.eqb x20 x0d) with false. change (Byte.eqb x20 x20) with true.
  cbv iota. rewrite length_app. cbn [length].
  replace (length s + 1 - 1)%nat with (length s + 0)%nat by lia.
  rewrite firstn_app_2. cbn [firstn]. rewrite app_nil_r. reflexivity.
Qed.

Lemma trimRight_spaces (s : GoString) (c : byte) (j : nat) :
  isGraph c -> forall fuel, (j <= fuel)%nat ->
    trimRight fuel ((s ++ [c]) ++ repeat x20 j) = s ++ [c].
Proof.
  intros Hc. induction j as [| j IH]; intros fuel Hf.
  - cbn [repeat]. rewrite app_nil_r. destruct fuel as [| fuel]; [reflexivity |].
    cbn [trimRight]. rewrite beforeSpace_graph by exact Hc. reflexivity.
  - destruct fuel as [| fuel]; [lia |]. cbn [trimRight].
    cbn [repeat]. rewrite repeat_cons, app_assoc, beforeSpace_space. apply IH. lia.
Qed.

(** [TrimSpace] leaves a text that starts and ends with printing bytes as
    it is, and removes the spaces that follow it. *)
Lemma TrimSpace_graph (a c : byte) (rest s : GoString) (j : nat) :
  isGraph a -> isGraph c -> a :: rest = s ++ [c] ->
  TrimSpace ((a :: rest) ++ repeat x20 j) = a :: rest.
Proof.
  intros Ha Hc E. unfold TrimSpace.
  assert (Hl : forall fuel, trimLeft fuel ((a :: rest) ++ repeat x20 j)
                            = (a :: rest) ++ repeat x20 j).
  { intros [| fuel]; [reflexivity |]. cbn [trimLeft app].
    rewrite afterSpace_graph by exact Ha. reflexivity. }
  rewrite Hl, E. apply trimRight_spaces; [exact Hc |].
  rewrite length_app, repeat_length. lia.
Qed.

(** *** The unit *)

Lemma HasSuffix_iff (s k : GoString) :
  HasSuffix s k = true <-> exists pre, s = pre ++ k.
Proof.
  split.
  - intros H. apply HasSuffix_skipn in H as [E _].
    exists (firstn (length s - length k) s).
    pose proof (firstn_skipn (length s - length k) s) as F.
    rewrite <- E in F. symmetry. exact F.
  - intros [pre ->]. unfold HasSuffix. rewrite length_app.
    apply andb_true_iff. split; [apply Nat.leb_le; lia |].
    apply string_eqb_eq.
    replace (length pre + length k - length k)%nat with (length pre + 0)%nat by lia.
    rewrite skipn_app, skipn_all2 by lia.
    replace (length pre + 0 - length pre)%nat with 0%nat by lia. reflexivity.
Qed.

(** Behind a byte that is no upper-case letter, a key of upper-case letters
    ends the text exactly when it ends what follows that byte. *)
Lemma HasSuffix_behind (pre : GoString) (c : byte) (k k' : GoString) :
  ~ isUpper c -> Forall isUpper k' ->
  HasSuffix (pre ++ c :: k) k' = HasSuffix k k'.
Proof.
  intros Hc Hk'.
  assert (Hin : ~ In c k').
  { intros Hin. apply Hc. rewrite Forall_forall in Hk'. apply Hk'. exact Hin. }
  destruct (HasSuffix k k') eqn:E.
  - apply HasSuffix_iff in E as [q ->]. apply HasSuffix_iff.
    exists (pre ++ c :: q). rewrite <- app_assoc. reflexivity.
  - destruct (HasSuffix (pre ++ c :: k) k') eqn:E'; [| reflexivity].
    apply HasSuffix_iff in E' as [pre0 E'].
    apply app_eq_app in E' as [l [[-> E2] | [-> E2]]].
    + exfalso. apply Hin. rewrite E2. apply in_or_app. right. now left.
    + destruct l as [| c' l].
      * exfalso. apply Hin. cbn [app] in E2. rewrite <- E2. now left.
      * injection E2 as <- ->.
        assert (H : HasSuffix (l ++ k') k' = true) by (apply HasSuffix_iff; eauto).
        congruence.
Qed.

Lemma longestMatch_behind (keys : list GoString) (pre : GoString) (c : byte)
    (k : GoString) :
  ~ isUpper c -> Forall (Forall isUpper) keys ->
  longestMatch keys (pre ++ c :: k) = longestMatch keys k.
Proof.
  intros Hc. induction 1 as [| k' keys Hk' _ IH]; [reflexivity |].
  cbn [longestMatch fold_right].
  fold (longestMatch keys (pre ++ c :: k)) (longestMatch keys k).
  rewrite IH, HasSuffix_behind by assumption. reflexivity.
Qed.

Lemma upperByte_letter (c : byte) : isUpper (upperByte c) -> isLetter c.
Proof.
  unfold isUpper, isLetter, upperByte.
  destruct ((97 <=? byteZ c) && (byteZ c <=? 122)) eqn:E; [| intros H; left; exact H].
  intros _. apply andb_true_iff in E as [E1 E2]. apply Z.leb_le in E1, E2. right. lia.
Qed.

Lemma upperByte_fixed (c : byte) :
  ~ (97 <= byteZ c <= 122) -> upperByte c = c.
Proof.
  unfold upperByte. intros H.
  destruct ((97 <=? byteZ c) && (byteZ c <=? 122)) eqn:E; [| reflexivity].
  apply andb_true_iff in E as [E1 E2]. apply Z.leb_le in E1, E2. lia.
Qed.

Lemma byteZ_bound (c : byte) : 0 <= byteZ c < 256.
Proof.
  unfold byteZ. pose proof (Byte.to_N_bounded c). lia.
Qed.

Lemma suffixMap_entry (k : GoString) (mult : Z) :
  In (k, mult) suffixMap ->
  Forall isUpper k /\ k <> [] /\ lookup0 suffixMap k = mult /\
  longestMatch suffixKeys k = length k /\
  exists e, 0 <= e <= 62 /\ mult = 2 ^ e /\
    Prim2SF (Float64.of_int64 (2 ^ e)) = S754_finite false 4503599627370496 (e - 52).
Proof.
  assert (Hup : forall k mult e,
            Forall isUpper k -> k <> [] -> lookup0 suffixMap k = mult ->
            longestMatch suffixKeys k = length k -> 0 <= e <= 62 -> mult = 2 ^ e ->
            Prim2SF (Float64.of_int64 (2 ^ e))
            = S754_finite false 4503599627370496 (e - 52) ->
            Forall isUpper k /\ k <> [] /\ lookup0 suffixMap k = mult /\
            longestMatch suffixKeys k = length k /\
            exists e, 0 <= e <= 62 /\ mult = 2 ^ e /\
              Prim2SF (Float64.of_int64 (2 ^ e))
              = S754_finite false 4503599627370496 (e - 52)).
  { intros k0 mult0 e H1 H2 H3 H4 H5 H6 H7. repeat split; try assumption.
    exists e. repeat split; try assumption; lia. }
  unfold suffixMap. cbn [In].
  intros [H | [H | [H | [H | [H | [H | [H | [H | [H | []]]]]]]]]];
    injection H as <- <-;
    [ apply (Hup _ _ 0) | apply (Hup _ _ 10) | apply (Hup _ _ 10)
    | apply (Hup _ _ 20) | apply (Hup _ _ 20) | apply (Hup _ _ 30)
    | apply (Hup _ _ 30) | apply (Hup _ _ 40) | apply (Hup _ _ 40) ];
    try (repeat constructor; unfold isUpper; cbn; lia);
    try discriminate; try lia; try (vm_compute; reflexivity); reflexivity.
Qed.

Lemma lookup_named_digit (d : byte) (rest : GoString) :
  isDigit d -> lookup namedSizes (d :: rest) = None.
Proof.
  intros Hd.
  assert (Hne : forall c, ~ isDigit c -> Byte.eqb c d = false).
  { intros c Hc. destruct (Byte.eqb c d) eqn:E; [| reflexivity].
    apply Byte.byte_dec_bl in E. subst c. contradiction. }
  let v := eval vm_compute in namedSizes in change namedSizes with v.
  cbn [lookup string_eqb].
  rewrite !Hne by (unfold isDigit; cbn; lia). reflexivity.
Qed.

Lemma digit_classes (d : byte) :
  isDigit d -> isGraph d /\ ~ isUpper d /\ (byteZ d <? 128) = true /\ upperByte d = d.
Proof.
  unfold isDigit, isGraph, isUpper. intros H. repeat split; try lia.
  apply upperByte_fixed. lia.
Qed.

Lemma letter_classes (c : byte) :
  isLetter c -> isGraph c /\ (byteZ c <? 128) = true.
Proof.
  unfold isLetter, isGraph. intros H. split; [lia | apply Z.ltb_lt; lia].
Qed.

(** The text in front of the unit: digits, then spaces. *)
Lemma number_part (ds : GoString) (j : nat) :
  Forall isDigit ds -> ds <> [] ->
  isASCII (ds ++ repeat x20 j) = true /\
  map upperByte (ds ++ repeat x20 j) = ds ++ repeat x20 j /\
  TrimSpace (ds ++ repeat x20 j) = ds /\
  exists pre c, ds ++ repeat x20 j = pre ++ [c] /\ ~ isUpper c.
Proof.
  intros Hd Hne. repeat split.
  - unfold isASCII. rewrite forallb_app. apply andb_true_iff. split.
    + apply forallb_forall. intros c Hc. rewrite Forall_forall in Hd.
      apply (digit_classes c (Hd c Hc)).
    + apply forallb_forall. intros c Hc. apply repeat_spec in Hc. subst c. reflexivity.
  - rewrite map_app, map_repeat. f_equal.
    induction Hd as [| d ds Hd0 _ IH]; [reflexivity |].
    cbn [map]. f_equal; [apply (digit_classes d Hd0) |].
    destruct ds as [| d' ds']; [reflexivity | apply IH; discriminate].
  - destruct ds as [| a rest]; [contradiction |].
    destruct (exists_last Hne) as (s & c & E).
    apply (TrimSpace_graph a c rest s j); [| | exact E].
    + inversion Hd; subst. apply digit_classes. assumption.
    + rewrite E in Hd. apply Forall_app in Hd as [_ Hd]. inversion Hd; subst.
      apply digit_classes. assumption.
  - destruct j as [| j].
    + destruct (exists_last Hne) as (s & c & E). exists s, c. split.
      * cbn [repeat]. rewrite app_nil_r. exact E.
      * rewrite E in Hd. apply Forall_app in Hd as [_ Hd]. inversion Hd; subst.
        apply digit_classes. assumption.
    + exists (ds ++ repeat x20 j), x20. split.
      * cbn [repeat]. rewrite repeat_cons, app_assoc. reflexivity.
      * unfold isUpper. cbn. lia.
Qed.

(** X23: a whole number with a unit is that number times the unit. Let
    [ds] be a non-empty string of decimal digits from which [fmt.Sscanf]
    reads the value [n] (at most [2^53], so that [float64] holds it), and
    let [u] be one of the units of [suffixMap] in any mix of upper and lower
    case. Then, with any number of spaces between the two and whatever the
    order of the iteration over [suffixMap], [parseByteSize] returns
    [n * multiplier] exactly, provided that fits [int64]; and the digits
    alone are read as [n] bytes. The table gives [KB] and [KiB], [MB] and
    [MiB], [GB] and [GiB], [TB] and [TiB] the same multipliers [2^10],
    [2^20], [2^30] and [2^40]. *)
Theorem parseByteSize_unit (Map_ToUpper : GoString -> GoString)
    (Sscanf_f : GoString -> option float) (keys : list GoString)
    (ds : GoString) (j : nat) (u : GoString) (mult n : Z) :
  Permutation keys suffixKeys ->
  Forall isDigit ds -> ds <> [] ->
  In (map upperByte u, mult) suffixMap ->
  Sscanf_f ds = Some (Float64.of_int64 n) ->
  1 <= n <= 2 ^ 53 -> n * mult <= Int64.max_int ->
  parseByteSize Map_ToUpper Sscanf_f keys (ds ++ repeat x20 j ++ u)
  = Some (n * mult, None) /\
  parseByteSize Map_ToUpper Sscanf_f keys ds = Some (n, None).
Proof.
  intros Hp Hd Hne Hin Hscan Hn Hmax. split; [| clear Hin Hmax mult u].
  destruct (suffixMap_entry _ _ Hin) as (Hup & Hk & Hmult & Hlong & e & He & -> & Ee).
  destruct (number_part ds j Hd Hne) as (Hascii & Hmap & Htrim & pre & c & Epre & Hc).
  assert (Hu : Forall isLetter u).
  { apply Forall_forall. intros b Hb. apply upperByte_letter.
    rewrite Forall_forall in Hup. apply Hup. apply in_map. exact Hb. }
  assert (Hune : u <> []) by (intros ->; apply Hk; reflexivity).
  assert (Hlen : length (map upperByte u) = length u) by apply length_map.
  set (k := map upperByte u) in *.
  rewrite app_assoc. set (num := ds ++ repeat x20 j) in *.
  (* the text has no white space around it *)
  assert (Ht : TrimSpace (num ++ u) = num ++ u).
  { destruct ds as [| a rest]; [contradiction |].
    destruct (exists_last Hune) as (u' & z & Eu).
    pose proof (TrimSpace_graph a z (rest ++ repeat x20 j ++ u) (num ++ u') 0) as T.
    cbn [repeat] in T. rewrite app_nil_r in T.
    subst num. cbn [app] in *. rewrite <- app_assoc. apply T.
    - inversion Hd; subst. apply digit_classes. assumption.
    - rewrite Eu in Hu. apply Forall_app in Hu as [_ Hu]. inversion Hu; subst.
      apply letter_classes. assumption.
    - rewrite Eu, <- !app_assoc. reflexivity. }
  (* its upper-case form *)
  assert (Hupper : ToUpper Map_ToUpper (num ++ u) = num ++ k).
  { unfold ToUpper, isASCII. rewrite forallb_app. fold (isASCII num). rewrite Hascii.
    replace (forallb (fun c0 => byteZ c0 <? 128) u) with true.
    - cbn [andb]. rewrite map_app, Hmap. reflexivity.
    - symmetry. apply forallb_forall. intros b Hb. rewrite Forall_forall in Hu.
      apply (letter_classes b (Hu b Hb)). }
  unfold parseByteSize. rewrite Ht, Hupper.
  destruct (num ++ u) as [| s0 s'] eqn:Es.
  { apply app_eq_nil in Es as [_ Es]. contradiction. }
  rewrite <- Es.
  replace (lookup namedSizes (num ++ k)) with (@None Z).
  2:{ destruct ds as [| a rest]; [contradiction |]. subst num. cbn [app].
      symmetry. apply lookup_named_digit. inversion Hd; assumption. }
  rewrite suffixLoop_spec, (longestMatch_perm _ _ _ Hp). cbv zeta.
  replace (longestMatch suffixKeys (num ++ k)) with (length k).
  2:{ rewrite Epre, <- app_assoc. cbn [app].
      rewrite longestMatch_behind;
        [| exact Hc | repeat constructor; unfold isUpper; cbn; lia].
      symmetry. exact Hlong. }
  replace (length k <=? length (@nil byte))%nat with false
    by (symmetry; apply Nat.leb_gt; destruct k; [contradiction | cbn; lia]).
  replace (length (num ++ u) <? length k)%nat with false
    by (symmetry; apply Nat.ltb_ge; rewrite length_app; lia).
  replace (skipn (length (num ++ k) - length k) (num ++ k)) with k.
  2:{ rewrite length_app.
      replace (length num + length k - length k)%nat with (length num + 0)%nat by lia.
      rewrite skipn_app, skipn_all2 by lia.
      replace (length num + 0 - length num)%nat with 0%nat by lia. reflexivity. }
  replace (firstn (length (num ++ u) - length k) (num ++ u)) with num.
  2:{ rewrite length_app.
      replace (length num + length u - length k)%nat with (length num + 0)%nat by lia.
      rewrite firstn_app_2. cbn [firstn]. rewrite app_nil_r. reflexivity. }
  rewrite Htrim.
  destruct k as [| k0 k'] eqn:Ek; [contradiction |].
  destruct ds as [| a rest] eqn:Eds; [contradiction |].
  cbv beta iota. rewrite Hscan.
  replace (Float64.of_int64 n <=? 0)%float with false.
  2:{ symmetry. rewrite leb_spec, of_int64_exact by lia.
      destruct n as [| q | q]; try lia. reflexivity. }
  rewrite Hmult. f_equal. f_equal.
  apply to_int64_mul_pow2; assumption.
  (* the digits alone *)
  destruct (number_part ds 0 Hd Hne) as (Hascii & Hmap & Htrim & pre & c & Epre & Hc).
  cbn [repeat] in *. rewrite app_nil_r in *.
  unfold parseByteSize. rewrite Htrim.
  assert (Hupper : ToUpper Map_ToUpper ds = ds) by (unfold ToUpper; rewrite Hascii; exact Hmap).
  rewrite Hupper.
  rewrite suffixLoop_spec, (longestMatch_perm _ _ _ Hp). cbv zeta.
  replace (longestMatch suffixKeys ds) with 0%nat.
  2:{ rewrite Epre. change (pre ++ [c]) with (pre ++ c :: []).
      rewrite longestMatch_behind;
        [reflexivity | exact Hc | repeat constructor; unfold isUpper; cbn; lia]. }
  cbn [length Nat.leb].
  destruct ds as [| a rest] eqn:Eds; [contradiction |].
  rewrite lookup_named_digit by (inversion Hd; assumption).
  cbv beta iota. rewrite Hscan.
  replace (Float64.of_int64 n <=? 0)%float with false.
  2:{ symmetry. rewrite leb_spec, of_int64_exact by lia.
      destruct n as [| q | q]; try lia. reflexivity. }
  change (lookup0 suffixMap (bytes "B")) with (2 ^ 0).
  rewrite to_int64_mul_pow2; [rewrite Z.mul_1_r; reflexivity | lia | lia | reflexivity |].
  unfold Int64.max_int. lia.
Qed.

Lemma parseByteSize_unit_witness :
  let scan := fun numStr : GoString =>
    if string_eqb numStr (bytes "64") then Some 64%float else None in
  (Forall isDigit (bytes "64") /\
   In (map upperByte (bytes "MiB"), 1048576) suffixMap /\
   scan (bytes "64") = Some (Float64.of_int64 64)) /\
  parseByteSize (fun s => s) scan (rev suffixKeys) (bytes "64 MiB")
  = Some (67108864, None) /\
  parseByteSize (fun s => s) scan (rev suffixKeys) (bytes "64") = Some (64, None).
Proof.
  intros scan.
  assert (Hp : Permutation (rev suffixKeys) suffixKeys)
    by (symmetry; apply Permutation_rev).
  assert (Hd : Forall isDigit (bytes "64"))
    by (repeat constructor; unfold isDigit; cbn; lia).
  assert (Hin : In (map upperByte (bytes "MiB"), 1048576) suffixMap)
    by (do 4 right; left; reflexivity).
  assert (Hs : scan (bytes "64") = Some (Float64.of_int64 64))
    by (vm_compute; reflexivity).
  split; [repeat split; assumption |].
  exact (parseByteSize_unit (fun s => s) scan (rev suffixKeys) (bytes "64") 1
           (bytes "MiB") 1048576 64 Hp Hd ltac:(discriminate) Hin Hs
           ltac:(lia) ltac:(unfold Int64.max_int; lia)).
Defined.

(** ** The output file *)

Lemma fold_Write (slots : list (list byte)) :
  forall f, (File.offset f <= length (File.content f))%nat ->
    let f' := fold_left File.Write slots f in
    File.content f'
    = firstn (File.offset f) (File.content f) ++ concat slots
      ++ skipn (File.offset f + length (concat slots)) (File.content f) /\
    File.offset f' = (File.offset f + length (concat slots))%nat.
Proof.
  induction slots as [| buf slots IH]; intros [c o] Ho; cbn [File.offset File.content] in *.
  - cbn [fold_left concat length app File.content File.offset].
    rewrite Nat.add_0_r, firstn_skipn. split; reflexivity.
  - cbn [fold_left concat]. cbv zeta.
    set (g := File.Write {| File.content := c; File.offset := o |} buf).
    assert (Ec : File.content g = (firstn o c ++ buf) ++ skipn (o + length buf) c).
    { subst g. unfold File.Write. cbn [File.content File.offset].
      replace (o - length c)%nat with 0%nat by lia. cbn [repeat app].
      apply app_assoc. }
    assert (Eo : File.offset g = (o + length buf)%nat) by reflexivity.
    assert (Hl : length (firstn o c ++ buf) = (o + length buf)%nat)
      by (rewrite length_app, firstn_length_le by exact Ho; reflexivity).
    assert (Hg : (File.offset g <= length (File.content g))%nat).
    { rewrite Eo, Ec, length_app, Hl. lia. }
    destruct (IH g Hg) as [IH1 IH2]. cbv zeta in IH1, IH2.
    rewrite IH1, IH2, Eo, Ec. split; [| rewrite length_app; lia].
    set (X := firstn o c ++ buf) in *. rewrite <- Hl.
    assert (E1 : forall Y, firstn (length X) (X ++ Y) = X).
    { intros Y. rewrite <- (Nat.add_0_r (length X)), firstn_app_2.
      cbn [firstn]. apply app_nil_r. }
    assert (E2 : forall Y, skipn (length X + length (concat slots)) (X ++ Y)
                           = skipn (length (concat slots)) Y).
    { intros Y. rewrite skipn_app, skipn_all2 by lia.
      replace (length X + length (concat slots) - length X)%nat
        with (length (concat slots)) by lia. reflexivity. }
    rewrite E1, E2, skipn_skipn, length_app, Hl. subst X.
    rewrite <- !app_assoc.
    replace (length (concat slots) + (o + length buf))%nat
      with (o + (length buf + length (concat slots)))%nat by lia.
    reflexivity.
Qed.

(** The slots of a dispatch that ends without error, in capture mode. *)
Lemma capture_slots (world : World) (chunks : list ChunkSpec.t)
    (slots0 : list (list byte)) (concurrency : Z) (st : Dispatch) :
  1 <= concurrency -> well_indexed chunks -> length slots0 = length chunks ->
  reachable world (dispatch_init chunks (Some slots0) concurrency) st ->
  joined st -> firstError (results st) = None ->
  outBufs st = Some (map (received world) chunks).
Proof.
  intros Hconc Hwf Hlen Hreach Hj Efirst.
  destruct (slots_inv_reachable world chunks Hwf slots0 concurrency st Hlen Hreach)
    as [Hinv (slots & Hbufs & Hall)].
  rewrite firstError_None in Efirst.
  destruct (joined_table_reachable world chunks (Some slots0) concurrency st
              Hconc Hwf Hlen Hreach Hj) as [Htlen Htab].
  cbn [capture_mode] in Htab.
  assert (Hexited : forall k w, nth_error (workers st) k = Some w -> w = Exited).
  { intros k w Hk. destruct Hj as [_ Hx]. rewrite Forall_forall in Hx.
    apply Hx. eapply nth_error_In; exact Hk. }
  assert (Hjobs : chunks <> [] -> jobs st = []).
  { intros Hne. apply (inv_exited _ _ _ _ Hinv). exists 0%nat.
    pose proof (workers_length_reachable _ _ _ Hreach) as Hl.
    cbn [dispatch_init workers] in Hl. rewrite repeat_length, workerCount_min in Hl.
    destruct (nth_error (workers st) 0) as [w |] eqn:E0.
    - f_equal. eapply Hexited; exact E0.
    - apply nth_error_None in E0.
      destruct chunks; [contradiction | cbn [length] in Hl; lia]. }
  pose proof (inv_bufs _ _ _ _ Hinv) as Hsized. rewrite Hbufs in Hsized.
  cbn [bufs_sized] in Hsized.
  rewrite Hbufs. f_equal. apply nth_error_ext. intros p.
  rewrite nth_error_map.
  destruct (nth_error chunks p) as [c |] eqn:Ep; cbn [option_map].
  - destruct (Htab p c Ep) as (r & Hr & Ho).
    assert (He : ChunkResult.Err r = None)
      by (apply Efirst; eapply nth_error_In; exact Hr).
    assert (Hne : chunks <> []) by (intros ->; destruct p; discriminate).
    destruct (Hall p c Ep (ex_intro _ r (conj Ho He))) as [H1 | [[k Hk] | H3]].
    + rewrite (Hjobs Hne) in H1. destruct H1.
    + apply Hexited in Hk. discriminate.
    + exact H3.
  - apply nth_error_None. apply nth_error_None in Ep. lia.
Qed.

(** The ranges of the plan, one after the other, are the object. *)
Lemma plan_ranges (obj : list byte) (chunkSize : Z) (n : nat) :
  0 < chunkSize ->
  concat (map (objectRange obj)
              (plan_prefix (Z.of_nat (length obj)) chunkSize n))
  = firstn (Z.to_nat (Z.min (Z.of_nat n * chunkSize) (Z.of_nat (length obj)))) obj.
Proof.
  intros Hc. induction n as [| n IH].
  - cbn [plan_prefix seq map concat]. rewrite Z.mul_0_l, Z.min_l by lia. reflexivity.
  - rewrite plan_prefix_snoc, map_app, concat_app, IH. cbn [map concat].
    rewrite app_nil_r. unfold objectRange.
    cbn [chunk_at ChunkSpec.RangeStart ChunkSpec.RangeEnd].
    set (S := Z.of_nat (length obj)).
    set (a := Z.of_nat n * chunkSize).
    replace (Z.of_nat (Datatypes.S n) * chunkSize) with (a + chunkSize) by (subst a; lia).
    replace ((Z.of_nat n + 1) * chunkSize) with (a + chunkSize) by (subst a; lia).
    assert (Ha : 0 <= a) by (subst a; nia).
    assert (HS : 0 <= S) by (subst S; lia).
    destruct (Z_lt_le_dec a S) as [Hlt | Hge].
    + rewrite (Z.min_l a S) by lia.
      replace (Z.min (a + chunkSize) S - 1 - a + 1)
        with (Z.min (a + chunkSize) S - a) by lia.
      rewrite Z2Nat.inj_sub by lia.
      apply firstn_firstn_skipn. apply Z2Nat.inj_le; lia.
    + rewrite (Z.min_r a S), (Z.min_r (a + chunkSize) S) by lia.
      rewrite skipn_all2 by (subst S; lia).
      rewrite firstn_nil. apply app_nil_r.
Qed.

Lemma served_range (world : World) (obj : list byte) (c : ChunkSpec.t) :
  servesObject world obj c ->
  ChunkSpec.Size c = ChunkSpec.RangeEnd c - ChunkSpec.RangeStart c + 1 ->
  0 <= ChunkSpec.RangeStart c -> 1 <= ChunkSpec.Size c ->
  ChunkSpec.RangeEnd c < Z.of_nat (length obj) ->
  serves world c /\ received world c = objectRange obj c.
Proof.
  intros (body & Hresp & Hpend & Hend) Hsz Hstart Hpos Hlast.
  assert (Hlen : Z.of_nat (length (objectRange obj c)) = ChunkSpec.Size c).
  { unfold objectRange. rewrite length_firstn, length_skipn, <- Hsz. lia. }
  split.
  - exists body. rewrite Hpend. auto.
  - unfold received. rewrite Hresp, Hpend. apply firstn_all2. lia.
Qed.

(** X24: in write mode the output file ends up as a copy of the object.
    Let the store hold [obj] and answer the request for each chunk with the
    bytes [RangeStart .. RangeEnd] of it; let the chunks be the plan of
    [planChunks] for the object's size and a [chunkSize > 0] (without
    [int64] overflow), [concurrency >= 1], the buffers be the fresh
    [make ([][]byte, len (chunks))] of [main], and the output file be at
    offset 0 and no longer than the object (just created, or rewound after
    an earlier run). Then the dispatch returns, and however the workers
    interleave it returns without error and the flush of [main] leaves
    exactly the bytes of [obj] in the file, in order; the file is back at
    offset 0 when another run follows, and at its end otherwise. *)
Theorem output_file_copy (world : World) (obj : list byte) (chunkSize : Z)
    (chunks : list ChunkSpec.t) (concurrency totalTime run runs : Z)
    (outFile : File.t) :
  0 < chunkSize -> Z.of_nat (length obj) + chunkSize <= 2 ^ 63 ->
  1 <= concurrency ->
  planChunks_returns (Z.of_nat (length obj)) chunkSize chunks ->
  (forall c, In c chunks -> servesObject world obj c) ->
  File.offset outFile = 0%nat ->
  (length (File.content outFile) <= length obj)%nat ->
  (exists out bufs',
     downloadObject_returns world chunks (allocOutBufs false (length chunks))
       concurrency totalTime out bufs') /\
  forall out bufs',
    downloadObject_returns world chunks (allocOutBufs false (length chunks))
      concurrency totalTime out bufs' ->
    snd out = None /\
    exists f,
      flushOutput (Some outFile) bufs' run runs = Some f /\
      File.content f = obj /\
      File.offset f = if run <? runs then 0%nat else length obj.
Proof.
  intros Hc Hb Hconc Hplan Hserve Hoff Hcont.
  set (objectSize := Z.of_nat (length obj)) in *.
  assert (HS : 0 <= objectSize) by (subst objectSize; lia).
  set (N := Z.to_nat (chunkCount objectSize chunkSize)).
  pose proof (chunkCount_bounds objectSize chunkSize HS Hc) as [HN0 [_ HNhi]].
  assert (Hret : planChunks_returns objectSize chunkSize
                   (plan_prefix objectSize chunkSize N)).
  { exists (S N). rewrite planChunks_exact_fuel by assumption.
    fold N. replace (N <? S N)%nat with true; [reflexivity |].
    symmetry. apply Nat.ltb_lt. lia. }
  assert (Hchunks : chunks = plan_prefix objectSize chunkSize N)
    by (eapply planChunks_returns_unique; eassumption).
  assert (Hwf : well_indexed chunks).
  { rewrite Hchunks. apply plan_prefix_well_indexed; try assumption. subst N. lia. }
  assert (Hpart : Partitions objectSize chunkSize chunks).
  { rewrite Hchunks. apply plan_prefix_partitions; assumption. }
  set (bufs := allocOutBufs false (length chunks)).
  assert (Hbufs : bufs_sized bufs (length chunks)) by apply repeat_length.
  assert (Hsrv : forall c, In c chunks ->
            serves world c /\ received world c = objectRange obj c).
  { intros c Hin. apply served_range; [apply Hserve; exact Hin | | | |].
    - apply (part_size _ _ _ Hpart c Hin).
    - rewrite Hchunks in Hin. unfold plan_prefix in Hin.
      apply in_map_iff in Hin as (i & <- & _).
      cbn [chunk_at ChunkSpec.RangeStart]. nia.
    - apply (part_size _ _ _ Hpart c Hin).
    - rewrite Hchunks in Hin. unfold plan_prefix in Hin.
      apply in_map_iff in Hin as (i & <- & _).
      cbn [chunk_at ChunkSpec.RangeEnd]. fold objectSize. lia. }
  split.
  - assert (Hinv0 : dispatch_inv world chunks (capture_mode bufs)
                      (dispatch_init chunks bufs concurrency))
      by (apply dispatch_inv_init; auto).
    destruct (dispatch_joins world chunks (capture_mode bufs) Hwf
                (dispatch_measure (dispatch_init chunks bufs concurrency))
                _ (le_n _) Hinv0) as (st & Hreach & Hj).
    exists (dispatch_finish st totalTime), (outBufs st), st. auto.
  - intros out bufs' (st & Hreach & Hj & -> & ->).
    destruct (joined_table_reachable world chunks bufs concurrency st
                Hconc Hwf Hbufs Hreach Hj) as [Htlen Htab].
    assert (Hnone : firstError (results st) = None).
    { apply firstError_None. intros r Hr. apply In_nth_error in Hr as [p Hp].
      destruct (nth_error chunks p) as [c |] eqn:Ec.
      - destruct (Htab p c Ec) as (r' & Hr' & Ho).
        assert (Hin : In c chunks) by (eapply nth_error_In; exact Ec).
        assert (r' = r) by congruence. subst r'.
        apply (serves_outcome world (capture_mode bufs) c r); [apply Hsrv; exact Hin | | exact Ho].
        destruct (part_size _ _ _ Hpart c Hin) as [_ Hsz].
        destruct (Z.eq_dec objectSize 0) as [H0 | H0].
        + rewrite (part_empty _ _ _ Hpart H0) in Hin. destruct Hin.
        + unfold Int64.max_int. lia.
      - apply nth_error_None in Ec.
        assert (p < length (results st))%nat by (apply nth_error_Some; congruence).
        lia. }
    split; [unfold dispatch_finish; rewrite Hnone; reflexivity |].
    rewrite (capture_slots world chunks (repeat [] (length chunks)) concurrency st
               Hconc Hwf (repeat_length _ _) Hreach Hj Hnone).
    assert (Eslots : concat (map (received world) chunks) = obj).
    { replace (map (received world) chunks) with (map (objectRange obj) chunks)
        by (apply map_ext_in; intros c Hin; symmetry; apply Hsrv; exact Hin).
      rewrite Hchunks. unfold objectSize. rewrite plan_ranges by exact Hc.
      fold objectSize. apply firstn_all2. subst N. lia. }
    unfold flushOutput.
    destruct (fold_Write (map (received world) chunks) outFile) as [E1 E2]; [lia |].
    cbv zeta in E1, E2. rewrite Hoff, Eslots in E1, E2. cbn [firstn app Nat.add] in E1, E2.
    rewrite skipn_all2, app_nil_r in E1 by exact Hcont.
    eexists. split; [reflexivity |].
    destruct (run <? runs); cbn [File.Seek0 File.content File.offset]; auto.
Qed.

Lemma output_file_copy_witness :
  let obj := [x61; x62; x63; x64; x65; x66; x67; x68; x69; x6a] in
  planChunks_returns 10 3 sampleChunks /\
  (forall c, In c sampleChunks -> servesObject (objectStore obj) obj c) /\
  forall out bufs',
    downloadObject_returns (objectStore obj) sampleChunks (allocOutBufs false 4)
      2 77 out bufs' ->
    snd out = None /\
    exists f,
      flushOutput (Some File.Create) bufs' 1 3 = Some f /\
      File.content f = obj /\ File.offset f = 0%nat.
Proof.
  intros obj.
  assert (Hplan : planChunks_returns 10 3 sampleChunks) by (exists 5%nat; reflexivity).
  assert (Hserve : forall c, In c sampleChunks -> servesObject (objectStore obj) obj c).
  { intros c _. eexists. split; [reflexivity |]. split; reflexivity. }
  split; [exact Hplan |]. split; [exact Hserve |].
  exact (proj2 (output_file_copy (objectStore obj) obj 3 sampleChunks 2 77 1 3
                  File.Create ltac:(lia) ltac:(cbn; lia) ltac:(lia) Hplan Hserve
                  eq_refl ltac:(cbn; lia))).
Defined.

(** ** Named presets *)

Lemma namedSizes_entry (k : GoString) (v : Z) :
  In (k, v) namedSizes ->
  Forall isUpper k /\ k <> [] /\ lookup namedSizes k = Some v /\ 1 <= v <= Int64.max_int.
Proof.
  unfold namedSizes. cbn [In].
  intros [H | [H | [H | [H | [H | [H | []]]]]]]; injection H as <- <-;
    (split; [repeat constructor; unfold isUpper; cbn; lia |]);
    (split; [discriminate |]); (split; [reflexivity |]);
    unfold Int64.max_int; cbn; lia.
Qed.

(** X25: a preset name is read as its table value. For one of the names
    [XS], [S], [M], [L], [XL], [XXL] in any mix of upper and lower case,
    followed by any number of spaces, [parseByteSize] returns the value
    [namedSizes] gives it (1, 4, 8, 64 and 256 MiB, 1 GiB) and no error:
    the presets come before the units, and neither the unit table nor
    [fmt.Sscanf] is consulted. *)
Theorem parseByteSize_preset (Map_ToUpper : GoString -> GoString)
    (Sscanf_f : GoString -> option float) (keys : list GoString)
    (u : GoString) (j : nat) (v : Z) :
  In (map upperByte u, v) namedSizes ->
  parseByteSize Map_ToUpper Sscanf_f keys (u ++ repeat x20 j) = Some (v, None).
Proof.
  intros Hin.
  destruct (namedSizes_entry _ _ Hin) as (Hup & Hk & Hlook & _).
  assert (Hu : Forall isLetter u).
  { apply Forall_forall. intros b Hb. apply upperByte_letter.
    rewrite Forall_forall in Hup. apply Hup. apply in_map. exact Hb. }
  assert (Hune : u <> []) by (intros ->; apply Hk; reflexivity).
  destruct u as [| a rest] eqn:Eu; [contradiction |]. rewrite <- Eu in *.
  destruct (exists_last Hune) as (u' & z & Ez).
  assert (Ht : TrimSpace (u ++ repeat x20 j) = u).
  { rewrite Eu. apply (TrimSpace_graph a z rest u' j).
    - rewrite Eu in Hu. inversion Hu; subst. apply letter_classes. assumption.
    - rewrite Ez in Hu. apply Forall_app in Hu as [_ Hu]. inversion Hu; subst.
      apply letter_classes. assumption.
    - rewrite <- Eu. exact Ez. }
  unfold parseByteSize. rewrite Ht.
  assert (Hupper : ToUpper Map_ToUpper u = map upperByte u).
  { unfold ToUpper, isASCII.
    replace (forallb (fun c => byteZ c <? 128) u) with true; [reflexivity |].
    symmetry. apply forallb_forall. intros b Hb. rewrite Forall_forall in Hu.
    apply (letter_classes b (Hu b Hb)). }
  rewrite Hupper, Hlook. rewrite Eu. reflexivity.
Qed.

Lemma parseByteSize_preset_witness :
  In (map upperByte (bytes "xl"), 268435456) namedSizes /\
  parseByteSize (fun s => s) (fun _ => None) suffixKeys (bytes "xl ")
  = Some (268435456, None).
Proof.
  assert (Hin : In (map upperByte (bytes "xl"), 268435456) namedSizes)
    by (do 4 right; left; reflexivity).
  split; [exact Hin |].
  exact (parseByteSize_preset (fun s => s) (fun _ => None) suffixKeys (bytes "xl") 1
           268435456 Hin).
Defined.

(** ** The sweep of [main] *)







